(** * Resource expression lexer ([resource_lex.py])

    A shallow embedding of [googlecloudsdk/core/resource/resource_lex.py]:
    the [Lexer] class ([Token], [Args], [Key], [Transform]), the transform
    call objects ([_TransformCall], [_Transform] and its [Evaluate]) and the
    key renderer [GetKeyName], followed by the properties of the
    specification that concern them.

    Python [str] values are lists of characters, the lexer is a record of
    the expression, the cursor and the defaults, and every method is a
    computation in a state and exception monad over that record. *)

From Stdlib Require Import ZArith List Ascii String Lia Bool.
From Stdlib Require Import DecimalString DecimalZ DecimalPos.
From stdpp Require Import gmap strings.
Import ListNotations.

Open Scope string_scope.
Open Scope list_scope.

(** A string literal is read as the list of its characters. *)
Coercion list_ascii_of_string : string >-> list.

(** * Characters and strings *)

Abbreviation str := (list ascii).

(** [c.isspace()] on a one-character byte string. *)
Definition isspace (c : ascii) : bool :=
  match c with
  | " "%char | "009"%char | "010"%char | "011"%char | "012"%char
  | "013"%char => true
  | _ => false
  end.

(** [c in characters] for a one-character [c]. *)
Definition char_in (c : ascii) (characters : str) : bool :=
  existsb (Ascii.eqb c) characters.

Definition isdigit (c : ascii) : bool :=
  let n := nat_of_ascii c in (48 <=? n)%nat && (n <=? 57)%nat.

(** The class [\w] of [re] on byte strings: [[a-zA-Z0-9_]]. *)
Definition isword (c : ascii) : bool :=
  let n := nat_of_ascii c in
  ((48 <=? n)%nat && (n <=? 57)%nat) || ((65 <=? n)%nat && (n <=? 90)%nat)
  || ((97 <=? n)%nat && (n <=? 122)%nat) || (n =? 95)%nat.

Definition str_eqb (a b : str) : bool :=
  if decide (a = b) then true else false.

(** [s.startswith(name)]. *)
Fixpoint startswith (s name : str) : bool :=
  match name, s with
  | [], _ => true
  | _ :: _, [] => false
  | n :: name', c :: s' => Ascii.eqb c n && startswith s' name'
  end.

(** [sub in s] on strings. *)
Fixpoint contains (s sub : str) : bool :=
  startswith s sub ||
  match s with
  | [] => false
  | _ :: s' => contains s' sub
  end.

(** [s.replace(old, new)] for a one-character [old]. *)
Definition replace (old : ascii) (new : str) (s : str) : str :=
  flat_map (fun c => if Ascii.eqb c old then new else [c]) s.

(** [sep.join(parts)]. *)
Fixpoint join (sep : str) (parts : list str) : str :=
  match parts with
  | [] => []
  | [p] => p
  | p :: ps => p ++ sep ++ join sep ps
  end.

(** [s.partition(sep)] for a one-character [sep]: the part before the first
    [sep], whether [sep] was found, and the part after it. *)
Fixpoint partition (sep : ascii) (s : str) : str * bool * str :=
  match s with
  | [] => ([], false, [])
  | c :: s' =>
      if Ascii.eqb c sep then ([], true, s')
      else let '(a, found, b) := partition sep s' in (c :: a, found, b)
  end.

(** * Numbers

    [int(token)] and [float(token)] are builtins.  [py_int] is the decimal
    integer literal of [int]: surrounding white space, an optional sign and
    at least one digit.  A float is kept as the decimal value its literal
    denotes (sign, digits, power of ten), which the interpreter rounds to
    the nearest double; the two words [inf] and [nan] are kept apart. *)

Inductive pyfloat :=
| FNan
| FInf (negative : bool)
| FDec (negative : bool) (digits : N) (exp10 : Z).

Fixpoint lstrip (s : str) : str :=
  match s with
  | c :: s' => if isspace c then lstrip s' else s
  | [] => []
  end.

Definition strip (s : str) : str := rev (lstrip (rev (lstrip s))).

(** The sign of a numeric literal and what follows it. *)
Definition split_sign (s : str) : bool * str :=
  match s with
  | "-"%char :: s' => (true, s')
  | "+"%char :: s' => (false, s')
  | _ => (false, s)
  end.

(** The longest prefix of digits, and the rest. *)
Fixpoint span_digits (s : str) : str * str :=
  match s with
  | c :: s' =>
      if isdigit c then let '(d, r) := span_digits s' in (c :: d, r)
      else ([], s)
  | [] => ([], [])
  end.

Definition digits_value (d : str) : option N :=
  match d with
  | [] => None
  | _ => N.of_uint <$> NilEmpty.uint_of_string (string_of_list_ascii d)
  end.

Definition py_int (token : str) : option Z :=
  let '(neg, body) := split_sign (strip token) in
  if forallb isdigit body then
    n ← digits_value body;
    Some (if neg then Z.opp (Z.of_N n) else Z.of_N n)
  else None.

Definition lower (c : ascii) : ascii :=
  let n := nat_of_ascii c in
  if (65 <=? n)%nat && (n <=? 90)%nat then ascii_of_nat (n + 32) else c.

(** The exponent part of a float literal: nothing, or [e] and a signed
    run of digits. *)
Definition float_exponent (s : str) : option Z :=
  match s with
  | [] => Some 0%Z
  | c :: s' =>
      if Ascii.eqb (lower c) "e" then
        let '(neg, body) := split_sign s' in
        if forallb isdigit body then
          n ← digits_value body;
          Some (if neg then Z.opp (Z.of_N n) else Z.of_N n)
        else None
      else None
  end.

Definition py_float (token : str) : option pyfloat :=
  let '(neg, body) := split_sign (strip token) in
  let word := map lower body in
  if str_eqb word "inf" || str_eqb word "infinity" then Some (FInf neg)
  else if str_eqb word "nan" then Some FNan
  else
    let '(ip, r) := span_digits body in
    let '(fp, r') :=
      match r with
      | "."%char :: r1 => span_digits r1
      | _ => ([], r)
      end in
    m ← digits_value (ip ++ fp);
    e ← float_exponent r';
    Some (FDec neg m (e - Z.of_nat (length fp))).

(** * Values

    The values the lexer produces and the transforms consume: [None],
    integers, floats, strings, lists, and the projection spec object that
    [_ParseTransform] passes to a transform as a handle. *)

#[local] Set Warnings "-register-all".

Inductive value :=
| VNone
| VInt (z : Z)
| VFloat (f : pyfloat)
| VStr (s : str)
| VList (items : list value)
| VProjectionSpec.

(** The truth value of an object in a condition. *)
Definition truthy (v : value) : bool :=
  match v with
  | VNone => false
  | VInt z => negb (z =? 0)%Z
  | VFloat (FDec _ m _) => negb (m =? 0)%N
  | VFloat _ => true
  | VStr s => match s with [] => false | _ => true end
  | VList l => match l with [] => false | _ => true end
  | VProjectionSpec => true
  end.

(** [str(z)] for an integer. *)
Definition str_of_Z (z : Z) : str :=
  list_ascii_of_string (NilEmpty.string_of_int (Z.to_int z)).

(** * Exceptions and results *)

(** The messages of [ExpressionSyntaxError], one constructor per format
    string, with the formatted arguments other than the annotated
    expression. *)
Inductive message :=
| Expected (token : str)                (* '{0} expected [{1}].' *)
| MoreTokensExpected                    (* 'More tokens expected [{0}].' *)
| UnterminatedQuote (quote : ascii)     (* 'Unterminated [{0}] quote [{1}].' *)
| ArgumentExpected                      (* 'Argument expected [{0}].' *)
| NonEmptyKeyNameExpected               (* 'Non-empty key name expected [{0}].' *)
| UnmatchedBracket                      (* 'Unmatched ] in key [{0}].' *)
| UnknownTransformFunction (name : value)
                                        (* 'Unknown transform function {0} [{1}].' *)
| ConditionalFilterExpected             (* 'Conditional filter expression expected [{0}].' *)
| TransformFunctionExpected.            (* 'Transform function expected [{0}].' *)

Inductive exn :=
| ExpressionSyntaxError (msg : message) (annotated : str)
| TypeError
| AttributeError
| IndexError.

(** The outcome of a method call: a value, a raised exception, or a loop
    that used up its iteration budget. *)
Inductive result (A : Type) :=
| Ok (a : A)
| Raise (e : exn)
| Exhausted.

Arguments Ok {A} a.
Arguments Raise {A} e.
Arguments Exhausted {A}.

(** * Transform functions and the projection spec *)

(** A transform function: its identity (functions are compared by [==]),
    its [func_doc], whether [func_defaults] is non-empty, and the function
    itself, called on positional and keyword arguments. *)
Record pyfunc := {
  func_id : N;
  func_doc : option str;
  func_defaults : bool;
  func_call : list value -> gmap string value -> value
}.

Definition func_eqb (f g : pyfunc) : bool := (func_id f =? func_id g)%N.

(** [resource_projection_spec.ProjectionSpec]: the aliases and the symbols
    the lexer looks up. *)
Record ProjectionSpec := {
  aliases : gmap string (list value);
  symbols : gmap string pyfunc
}.

Definition ProjectionSpec_empty : ProjectionSpec :=
  {| aliases := ∅; symbols := ∅ |}.

(** * The lexer state *)

Record Lexer := {
  _expr : str;
  _position : nat;
  _defaults : ProjectionSpec
}.

(** [Lexer(expression, defaults)]. *)
Definition Lexer_init (expression : str) (defaults : option ProjectionSpec)
  : Lexer :=
  {| _expr := expression;
     _position := 0;
     _defaults := default ProjectionSpec_empty defaults |}.

Definition set_position (position : nat) (L : Lexer) : Lexer :=
  {| _expr := _expr L; _position := position; _defaults := _defaults L |}.

(** Methods of the lexer: the cursor is the only field they assign. *)
Definition M (A : Type) : Type := Lexer -> result (A * Lexer).

#[global] Instance M_ret : MRet M := fun A a L => Ok (a, L).

#[global] Instance M_bind : MBind M := fun A B f m L =>
  match m L with
  | Ok (a, L') => f a L'
  | Raise e => Raise e
  | Exhausted => Exhausted
  end.

Definition raise {A} (e : exn) : M A := fun _ => Raise e.
Definition exhausted {A} : M A := fun _ => Exhausted.
Definition get_lexer : M Lexer := fun L => Ok (L, L).

(** The unread part of the expression from [position] on. *)
Definition rest_from (position : nat) (L : Lexer) : str :=
  skipn position (_expr L).

Definition EndOfInput (position : option nat) : M bool := fun L =>
  let position := default (_position L) position in
  Ok ((length (_expr L) <=? position)%nat, L).

Definition GetPosition : M nat := fun L => Ok (_position L, L).

Definition SetPosition (position : nat) : M unit := fun L =>
  Ok (tt, set_position position L).

(** The body of [Annotate] for the position [here] in the expression
    [e].  The character in front of the position, [e[here - 1]], is read
    whenever the position is not 0, so that a position past the end of
    the expression raises [IndexError]; the character at the position is
    read only when the position is inside the expression. *)
Definition annotated (here : nat) (e : str) : result str :=
  let cursor : str := "*HERE*" in
  match
    match here with
    | 0 => Ok cursor
    | S before =>
        match e !! before with
        | Some c =>
            Ok (if negb (isspace c) then " "%char :: cursor else cursor)
        | None => Raise IndexError
        end
    end
  with
  | Ok cursor =>
      let cursor : str :=
        match e !! here with
        | Some c => if negb (isspace c) then cursor ++ [" "%char] else cursor
        | None => cursor
        end in
      Ok (firstn here e ++ cursor ++ skipn here e)
  | Raise x => Raise x
  | Exhausted => Exhausted
  end.

(** [Annotate(position)]. *)
Definition Annotate (position : option nat) : M str := fun L =>
  match annotated (default (_position L) position) (_expr L) with
  | Ok a => Ok (a, L)
  | Raise e => Raise e
  | Exhausted => Exhausted
  end.

(** The string that [Annotate(position)] returns, for a position within
    the expression (the empty string where [Annotate] raises instead). *)
Definition annotate (position : option nat) (L : Lexer) : str :=
  match annotated (default (_position L) position) (_expr L) with
  | Ok a => a
  | _ => []
  end.

(** [raise ExpressionSyntaxError(fmt.format(..., self.Annotate(position)))]. *)
Definition syntax_error {A} (msg : message) (position : option nat) : M A :=
  a ← Annotate position; raise (ExpressionSyntaxError msg a).

(** The number of leading white space characters of [s]. *)
Fixpoint count_space (s : str) : nat :=
  match s with
  | c :: s' => if isspace c then S (count_space s') else 0
  | [] => 0
  end.

Definition SkipSpace (token : option str) : M bool := fun L =>
  let position := _position L + count_space (rest_from (_position L) L) in
  let L' := set_position position L in
  if (position <? length (_expr L))%nat then Ok (true, L')
  else
    match token with
    | Some t => if bool_decide (t = []) then Ok (false, L')
                else syntax_error (Expected t) None L'
    | None => Ok (false, L')
    end.

(** [IsCharacter(characters, peek, eoi_ok)]: the matching character, or
    [None]. *)
Definition IsCharacter (characters : str) (peek eoi_ok : bool)
  : M (option ascii) := fun L =>
  match rest_from (_position L) L with
  | [] =>
      if peek || eoi_ok then Ok (None, L)
      else syntax_error MoreTokensExpected None L
  | c :: _ =>
      if negb (char_in c characters) then Ok (None, L)
      else if negb peek then Ok (Some c, set_position (S (_position L)) L)
      else Ok (Some c, L)
  end.

Definition IsString (name : str) (peek : bool) : M bool :=
  more ← SkipSpace None;
  if negb more then mret false
  else
    i ← GetPosition;
    L ← get_lexer;
    if negb (startswith (rest_from i L) name) then mret false
    else
      let i := i + length name in
      match rest_from i L with
      | [] => (if negb peek then SetPosition i else mret tt);; mret true
      | c :: _ =>
          if isspace c || Ascii.eqb c "("
          then (if negb peek then SetPosition i else mret tt);; mret true
          else mret false
      end.

(** ** Token *)

Definition _ESCAPE : ascii := "\"%char.
Definition squote : ascii := "'"%char.
Definition dquote : ascii := "034"%char.
Definition _QUOTES : str := [squote; dquote].

(** The local variables of [Token] when its scanning loop ends: the index
    [i], the open quote, whether a quote was seen, and the token's
    characters ([None] when there is no token). *)
Record scan := {
  scan_i : nat;
  scan_quote : option ascii;
  scan_quoted : bool;
  scan_token : option str
}.

(** [token.append(c)], after [if token is None: token = []]. *)
Definition append (token : option str) (c : str) : option str :=
  Some (default [] token ++ c).

Definition is_quote (quote : option ascii) (c : ascii) : bool :=
  match quote with
  | Some q => Ascii.eqb c q
  | None => false
  end.

(** The escape branch of the loop, for the character [c] that follows
    the escape: only [_ESCAPE], the current quote or [_QUOTES] are
    escaped. *)
Definition Token_escape (quote : option ascii) (token : option str)
    (c : ascii) : option str :=
  let token := append token [] in
  let token :=
    if negb (Ascii.eqb c _ESCAPE) && negb (is_quote quote c) &&
       (bool_decide (is_Some quote) || negb (char_in c _QUOTES))
    then append token [_ESCAPE] else token in
  append token [c].

(** What an iteration of the loop does with the local variables: [break],
    or new values of [quote], [quoted], [token] and [paren_count]. *)
Inductive action :=
| Break
| Continue (quote : option ascii) (quoted : bool) (token : option str)
    (paren_count : Z).

(** The [elif] branches of the loop, for the character [c]. *)
Definition Token_char (terminators : str) (balance_parens : bool)
    (c : ascii) (quote : option ascii) (quoted : bool)
    (token : option str) (paren_count : Z) : action :=
  if is_quote quote c then
    (* The end of the current quote. *)
    Continue None quoted token paren_count
  else if bool_decide (quote = None) && char_in c _QUOTES then
    (* The start of a new quote. *)
    Continue (Some c) true (append token []) paren_count
  else if bool_decide (quote = None) && balance_parens && char_in c "()" then
    if Ascii.eqb c "(" then
      Continue quote quoted (append token [c]) (paren_count + 1)%Z
    else if char_in c terminators && (paren_count =? 0)%Z then Break
    else Continue quote quoted (append token [c]) (paren_count - 1)%Z
  else if bool_decide (quote = None) && (paren_count =? 0)%Z &&
          char_in c terminators then
    (* Only unquoted terminators terminate the token. *)
    Break
  else if bool_decide (is_Some quote) || negb (isspace c) ||
          (bool_decide (is_Some token) && balance_parens) then
    (* Append c to the token string. *)
    Continue quote quoted (append token [c]) paren_count
  else if bool_decide (is_Some token) then
    (* A space after any token characters is a terminator. *)
    Break
  else Continue quote quoted token paren_count.

(** The [while not self.EndOfInput(i)] loop of [Token], on the characters
    [s] of the expression from index [i] on. *)
Fixpoint Token_loop (terminators : str) (balance_parens : bool)
    (s : str) (i : nat) (quote : option ascii) (quoted : bool)
    (token : option str) (paren_count : Z) {struct s} : scan :=
  let stop := {| scan_i := i; scan_quote := quote; scan_quoted := quoted;
                 scan_token := token |} in
  match s with
  | [] => stop
  | c :: s' =>
      let escaped :=
        match s' with
        | c' :: s'' =>
            if Ascii.eqb c _ESCAPE then
              Some (Token_loop terminators balance_parens s'' (i + 1 + 1)
                      quote quoted (Token_escape quote token c') paren_count)
            else None
        | [] => None
        end in
      match escaped with
      | Some r => r
      | None =>
          match Token_char terminators balance_parens c quote quoted token
                  paren_count with
          | Break => stop
          | Continue quote quoted token paren_count =>
              Token_loop terminators balance_parens s' (i + 1) quote quoted
                token paren_count
          end
      end
  end.

(** The conversion at the end of [Token]: only unquoted, non-empty tokens
    are converted, [int] first and then [float]. *)
Definition convert_token (convert quoted : bool) (token : option str)
  : value :=
  match token with
  | None => VNone
  | Some t =>
      if convert && truthy (VStr t) && negb quoted then
        match py_int t with
        | Some z => VInt z
        | None =>
            match py_float t with
            | Some f => VFloat f
            | None => VStr t
            end
        end
      else VStr t
  end.

(** The scan [Token] performs from the cursor of [L]. *)
Definition Token_scan (terminators : str) (balance_parens : bool)
    (L : Lexer) : scan :=
  Token_loop terminators balance_parens (rest_from (_position L) L)
    (_position L) None false None 0.

Definition Token (terminators : str) (balance_parens space convert : bool)
  : M value :=
  L ← get_lexer;
  let r := Token_scan terminators balance_parens L in
  match scan_quote r with
  | Some quote => syntax_error (UnterminatedQuote quote) None
  | None =>
      SetPosition (scan_i r);;
      (if space then SkipSpace None else mret false);;
      mret (convert_token convert (scan_quoted r) (scan_token r))
  end.

(** ** Args *)

Definition is_none (v : value) : bool :=
  match v with VNone => true | _ => false end.

(** The [while True] loop of [Args]; [fuel] bounds the iterations. *)
Fixpoint Args_loop (fuel : nat) (convert required : bool)
    (args : list value) : M (list value) :=
  match fuel with
  | O => exhausted
  | S fuel =>
      here ← GetPosition;
      arg ← Token ",)" true true convert;
      end_ ← IsCharacter ")" false false;
      args ←
        (if negb (is_none arg) then mret (args ++ [arg])
         else if required || negb (bool_decide (is_Some end_))
         then syntax_error ArgumentExpected (Some here)
         else mret args);
      if bool_decide (is_Some end_) then mret args
      else
        IsCharacter "," false false;;
        Args_loop fuel convert true args
  end.

(** Every iteration that does not leave the loop reads a character, so
    one more than the length of the expression bounds the iterations. *)
Definition budget (L : Lexer) : nat := S (length (_expr L)).

Definition Args (convert : bool) : M (list value) :=
  L ← get_lexer; Args_loop (budget L) convert false [].

(** ** Key *)

Definition _RESERVED_OPERATOR_CHARS : str := "[].(){},:=!<>+*/%&|^~@#;?".

(** [name in self._defaults.aliases] and [self._defaults.aliases[name]]. *)
Definition lookup_alias (name : value) (L : Lexer) : option (list value) :=
  match name with
  | VStr n => aliases (_defaults L) !! string_of_list_ascii n
  | _ => None
  end.

(** The inner loop of [Key]: [[]] slices and [[NUMBER]] indices. *)
Fixpoint Key_brackets (fuel : nat) (key : list value) : M (list value) :=
  match fuel with
  | O => exhausted
  | S fuel =>
      open ← IsCharacter "[" false true;
      if bool_decide (is_Some open) then
        index ← Token "]" false true true;
        IsCharacter "]" false false;;
        Key_brackets fuel (key ++ [index])
      else mret key
  end.

(** The name of an iteration of the loop of [Key], read at [here]: the key
    with which the iteration goes on, or [None] for the [break] at a
    single dot. *)
Definition Key_name (here : nat) (key : list value)
  : M (option (list value)) :=
  name ← Token _RESERVED_OPERATOR_CHARS false false false;
  if truthy name then
    paren ← IsCharacter "(" true true;
    let is_not_function := negb (bool_decide (is_Some paren)) in
    L ← get_lexer;
    match lookup_alias name L with
    | Some alias =>
        if bool_decide (key = []) && is_not_function
        then mret (Some (key ++ alias))
        else mret (Some (key ++ [name]))
    | None => mret (Some (key ++ [name]))
    end
  else
    bracket ← IsCharacter "[" true false;
    if negb (bool_decide (is_Some bracket)) then
      (* A single . is a valid key that names the top level resource. *)
      dot ← (if bool_decide (key = [])
             then IsCharacter "." false false
             else mret (None : option ascii));
      whole ←
        (if bool_decide (is_Some dot) then
           eoi ← EndOfInput None;
           if (eoi : bool) then mret true
           else
             op ← IsCharacter _RESERVED_OPERATOR_CHARS true true;
             mret (bool_decide (is_Some op))
         else mret false);
      if (whole : bool) then mret None
      else syntax_error NonEmptyKeyNameExpected (Some here)
    else mret (Some key).

(** The [while not self.EndOfInput()] loop of [Key]. *)
Fixpoint Key_loop (fuel : nat) (key : list value) : M (list value) :=
  match fuel with
  | O => exhausted
  | S fuel =>
      eoi ← EndOfInput None;
      if (eoi : bool) then mret key
      else
        here ← GetPosition;
        step ← Key_name here key;
        match (step : option (list value)) with
        | None => mret key
        | Some key =>
            eoi ← EndOfInput None;
            if (eoi : bool) then mret key
            else
              close ← IsCharacter "]" false false;
              if bool_decide (is_Some close)
              then syntax_error UnmatchedBracket (Some here)
              else
                L ← get_lexer;
                key ← Key_brackets (budget L) key;
                dot ← IsCharacter "." false true;
                if negb (bool_decide (is_Some dot)) then mret key
                else
                  eoi ← EndOfInput None;
                  if (eoi : bool)
                  then (* Dangling '.' is not allowed. *)
                    syntax_error NonEmptyKeyNameExpected None
                  else Key_loop fuel key
        end
  end.

Definition Key : M (list value) :=
  L ← get_lexer; Key_loop (budget L) [].

(** * Transform calls *)

(** [_TransformCall]: a key transform function call with actual args. *)
Record _TransformCall := {
  name : str;
  func : pyfunc;
  active : option Z;
  map_transform : option bool;
  args : list value;
  kwargs : gmap string value;
  restriction : bool
}.

(** [_TransformCall.__init__], whose defaults are [active=0],
    [map_transform=None], [args=None], [kwargs=None],
    [restriction=False]. *)
Definition _TransformCall_init (name : str) (func : pyfunc)
    (active : option Z) (map_transform : option bool)
    (args : option (list value)) (kwargs : option (gmap string value))
    (restriction : bool) : _TransformCall :=
  {| name := name; func := func; active := active;
     map_transform := map_transform;
     args := default [] args; kwargs := default ∅ kwargs;
     restriction := restriction |}.

(** [transform.map_transform] in a condition. *)
Definition mapped (transform : _TransformCall) : bool :=
  default false (map_transform transform).

(** [_Transform]: the conditional expression and the ordered list of
    calls. *)
Record _Transform := {
  _conditional : option value;
  _transforms : list _TransformCall
}.

(** [_Transform.__init__]. *)
Definition _Transform_init : _Transform :=
  {| _conditional := None; _transforms := [] |}.

(** Methods of a [_Transform] object: they take the object and return it
    with their result, so that a method that assigns an attribute shows
    it. *)
Definition TM (A : Type) : Type := _Transform -> result (A * _Transform).

#[global] Instance TM_ret : MRet TM := fun A a self => Ok (a, self).

#[global] Instance TM_bind : MBind TM := fun A B f m self =>
  match m self with
  | Ok (a, self') => f a self'
  | Raise e => Raise e
  | Exhausted => Exhausted
  end.

Definition get_transforms : TM (list _TransformCall) := fun self =>
  Ok (_transforms self, self).

Definition Add (transform : _TransformCall) : TM unit := fun self =>
  Ok (tt, {| _conditional := _conditional self;
             _transforms := _transforms self ++ [transform] |}).

Definition SetConditional (expr : value) : TM unit := fun self =>
  Ok (tt, {| _conditional := Some expr; _transforms := _transforms self |}).

Definition set_restriction (transform : _TransformCall) : _TransformCall :=
  {| name := name transform; func := func transform;
     active := active transform; map_transform := map_transform transform;
     args := args transform; kwargs := kwargs transform;
     restriction := true |}.

Definition SetRestriction : TM unit := fun self =>
  match _transforms self with
  | [] => Raise IndexError
  | transform :: rest =>
      Ok (tt, {| _conditional := _conditional self;
                 _transforms := set_restriction transform :: rest |})
  end.

(** Modelled from the spec: [resource_property.IsListLike], which is not
    part of the sources; the list-like values are the lists. *)
Definition IsListLike (obj : value) : bool :=
  match obj with
  | VList _ => true
  | _ => false
  end.

(** The call of [transform.func] on the leading positional arguments
    [first], followed by the stored [args] and [kwargs] of the call. *)
Definition call (transform : _TransformCall) (first : list value) : value :=
  func_call (func transform) (first ++ args transform) (kwargs transform).

(** The body of the [for transform in self._transforms] loop of
    [Evaluate]: the next value of [obj]. *)
Definition Evaluate_step (transform : _TransformCall) (obj : value)
  : value :=
  if mapped transform && IsListLike obj then
    (* A transform mapped on a list - transform each list item. *)
    match obj with
    | VList items => VList (map (fun item => call transform [item]) items)
    | _ => obj
    end
  else if truthy obj || negb (mapped transform) then
    if restriction transform then call transform []
    else call transform [obj]
  else obj.

Fixpoint Evaluate_loop (transforms : list _TransformCall) (obj : value)
  : TM value :=
  match transforms with
  | [] => mret obj
  | transform :: rest =>
      Evaluate_loop rest (Evaluate_step transform obj)
  end.

Definition Evaluate (obj : value) : TM value :=
  transforms ← get_transforms; Evaluate_loop transforms obj.

(** [MakeTransform(func_name, func, args, kwargs, restriction)]. *)
Definition MakeTransform (func_name : str) (func : pyfunc)
    (args : option (list value)) (kwargs : option (gmap string value))
    (restriction : bool) : result _Transform :=
  match Add (_TransformCall_init func_name func (Some 0%Z) None args kwargs
               restriction) _Transform_init with
  | Ok (_, calls) => Ok calls
  | Raise e => Raise e
  | Exhausted => Exhausted
  end.

(** * Parsing transform calls *)

Section Transforms.

(** The constant [resource_projection_spec.PROJECTION_ARG_DOC] and the
    functions [TransformAlways], [TransformMap] and [TransformIf] of
    [resource_transform]; the sources use them and do not define them. *)
Variable PROJECTION_ARG_DOC : str.
Variables TransformAlways TransformMap TransformIf : pyfunc.

(** [self._defaults.symbols[func_name]], when [func_name] is in the
    symbols. *)
Definition lookup_symbol (func_name : value) (L : Lexer)
  : option (str * pyfunc) :=
  match func_name with
  | VStr n => (fun f => (n, f)) <$> symbols (_defaults L) !! string_of_list_ascii n
  | _ => None
  end.

(** The [for arg in self.Args()] loop that separates the args from the
    kwargs. *)
Fixpoint split_kwargs (parsed : list value) (args : list value)
    (kwargs : gmap string value)
  : result (list value * gmap string value) :=
  match parsed with
  | [] => Ok (args, kwargs)
  | arg :: parsed =>
      match arg with
      | VStr a =>
          let '(name, sep, val) := partition "=" a in
          if (sep : bool)
          then split_kwargs parsed args
                 (<[string_of_list_ascii name := VStr val]> kwargs)
          else split_kwargs parsed (args ++ [arg]) kwargs
      | _ => Raise AttributeError
      end
  end.

Definition _ParseTransform (func_name : value) (active : option Z)
    (map_transform : option bool) (restriction : bool)
  : M _TransformCall :=
  here ← GetPosition;
  L ← get_lexer;
  match lookup_symbol func_name L with
  | None => syntax_error (UnknownTransformFunction func_name) (Some here)
  | Some (name, func) =>
      let args : list value := [] in
      let kwargs : gmap string value := ∅ in
      let args :=
        match func_doc func with
        | Some doc =>
            if truthy (VStr doc) && contains doc PROJECTION_ARG_DOC
            then (* The second transform arg is the caller projection. *)
              args ++ [VProjectionSpec]
            else args
        | None => args
        end in
      '(args, kwargs) ←
        (if func_defaults func then
           (* Separate the args from the kwargs. *)
           parsed ← Args false;
           match split_kwargs parsed args kwargs with
           | Ok r => mret r
           | Raise e => raise e
           | Exhausted => exhausted
           end
         else
           (* No kwargs. *)
           parsed ← Args false;
           mret (args ++ parsed, kwargs));
      mret (_TransformCall_init name func active map_transform (Some args)
              (Some kwargs) restriction)
  end.

(** A method of the local [calls] object, called from a lexer method. *)
Definition on_calls {A} (m : TM A) (calls : _Transform)
  : M (A * _Transform) :=
  match m calls with
  | Ok r => mret r
  | Raise e => raise e
  | Exhausted => exhausted
  end.

Definition as_str (v : value) : option str :=
  match v with
  | VStr s => Some s
  | _ => None
  end.

(** ['.'.join(call)], which needs every item to be a string. *)
Definition join_key (call : list value) : option str :=
  join "." <$> mapM as_str call.

(** The [while True] loop of [Transform]. *)
Fixpoint Transform_loop (fuel : nat) (func_name : value)
    (active : option Z) (restriction : bool) (here : nat)
    (calls : _Transform) (map_transform : bool) : M _Transform :=
  match fuel with
  | O => exhausted
  | S fuel =>
      transform ←
        _ParseTransform func_name active (Some map_transform) restriction;
      let restriction := false in
      '(func_name, active, map_transform, calls) ←
        (if func_eqb (func transform) TransformAlways then
           (* Always active. *)
           mret (VNone, None, map_transform, calls)
         else if func_eqb (func transform) TransformMap then
           mret (VNone, active, true, calls)
         else if func_eqb (func transform) TransformIf then
           match args transform with
           | [expr] =>
               '(_, calls) ← on_calls (SetConditional expr) calls;
               mret (func_name, active, map_transform, calls)
           | _ => syntax_error ConditionalFilterExpected (Some here)
           end
         else
           (* always() applies to all transforms for key.
              map() applies to the next transform. *)
           '(_, calls) ← on_calls (Add transform) calls;
           mret (func_name, active, false, calls));
      dot ← IsCharacter "." false true;
      if negb (bool_decide (is_Some dot)) then mret calls
      else
        call ← Key;
        here ← GetPosition;
        paren ← IsCharacter "(" false false;
        if negb (bool_decide (is_Some paren))
        then syntax_error TransformFunctionExpected (Some here)
        else
          match call with
          | [func_name] =>
              Transform_loop fuel func_name active restriction here calls
                map_transform
          | _ =>
              match join_key call with
              | Some n =>
                  syntax_error (UnknownTransformFunction (VStr n))
                    (Some here)
              | None => raise TypeError
              end
          end
  end.

Definition Transform (func_name : value) (active : option Z)
    (restriction : bool) : M _Transform :=
  here ← GetPosition;
  L ← get_lexer;
  Transform_loop (budget L) func_name active restriction here
    _Transform_init false.

End Transforms.

(** * GetKeyName *)

(** [re.search(r'\W', part)]. *)
Definition has_nonword (part : str) : bool := existsb (fun c => negb (isword c)) part.

(** The quoted form of a name that has a non-word character. *)
Definition quote_name (part : str) : str :=
  let part := replace "\" "\\" part in
  let part := replace dquote [_ESCAPE; dquote] part in
  [dquote] ++ part ++ [dquote].

(** [parts[-1] += part]. *)
Definition extend_last (parts : list str) (part : str) : list str :=
  alter (fun last => last ++ part) (pred (length parts)) parts.

(** The [for part in key] loop of [GetKeyName]. *)
Fixpoint GetKeyName_loop (key : list value) (parts : list str)
  : result (list str) :=
  match key with
  | [] => Ok parts
  | part :: key =>
      match part with
      | VNone =>
          let part : str := "[]" in
          if bool_decide (parts <> [])
          then GetKeyName_loop key (extend_last parts part)
          else GetKeyName_loop key (parts ++ [part])
      | VInt z =>
          let part : str := "[" ++ str_of_Z z ++ "]" in
          if bool_decide (parts <> [])
          then GetKeyName_loop key (extend_last parts part)
          else GetKeyName_loop key (parts ++ [part])
      | VStr part =>
          if has_nonword part
          then GetKeyName_loop key (parts ++ [quote_name part])
          else GetKeyName_loop key (parts ++ [part])
      | _ => Raise TypeError
      end
  end.

Definition GetKeyName (key : list value) : result str :=
  match GetKeyName_loop key [] with
  | Ok parts => Ok (if bool_decide (parts <> []) then join "." parts else ".")
  | Raise e => Raise e
  | Exhausted => Exhausted
  end.

(** * Definitions used by the statements *)

(** The lexer [Lexer(expression)] with the default, empty projection
    spec. *)
Definition lexer (expression : str) : Lexer := Lexer_init expression None.

(** The value a lexer method returns, without the lexer. *)
Definition returned {A} (r : result (A * Lexer)) : result A :=
  match r with
  | Ok (a, _) => Ok a
  | Raise e => Raise e
  | Exhausted => Exhausted
  end.

(** The value and the cursor after a lexer method. *)
Definition returned_at {A} (r : result (A * Lexer)) : result (A * nat) :=
  match r with
  | Ok (a, L) => Ok (a, _position L)
  | Raise e => Raise e
  | Exhausted => Exhausted
  end.

(** The result is an [ExpressionSyntaxError]. *)
Definition is_syntax_error {A} (r : result A) : Prop :=
  match r with
  | Raise (ExpressionSyntaxError _ _) => True
  | _ => False
  end.

(** [Args(convert)] on an argument list whose opening parenthesis the
    caller consumes first, as [Transform] and the filter parser do. *)
Definition Args_of (convert : bool) (expression : str)
  : result (list value) :=
  returned ((IsCharacter "(" false false;; Args convert) (lexer expression)).

(** A key string [k] parses to [key] when [Key] on [Lexer(k)] returns
    [key] with the cursor at the end of [k]. *)
Definition parses (k : str) (key : list value) : Prop :=
  exists L, Key (lexer k) = Ok (key, L) /\ _position L = length k.

(** The segments of the data model: a non-empty name, an integer index,
    or a slice. *)
Definition is_segment (v : value) : bool :=
  match v with
  | VNone | VInt _ => true
  | VStr n => truthy (VStr n)
  | _ => false
  end.

Definition is_name (v : value) : bool :=
  match v with
  | VStr _ => true
  | _ => false
  end.

(** The canonical string of a key path, following the specification of the
    renderer: an index or a slice is written in brackets directly after
    what precedes it, a name that has a non-word character is written
    between double quotes with the backslash and the double quote escaped
    by a backslash, names are otherwise separated by dots, and the empty
    path is the single dot. *)
Definition escape_char (c : ascii) : str :=
  if Ascii.eqb c "\" then "\\"
  else if Ascii.eqb c dquote then [_ESCAPE; dquote]
  else [c].

Definition double_quoted (n : str) : str :=
  [dquote] ++ flat_map escape_char n ++ [dquote].

Definition canonical_name (n : str) : str :=
  if forallb isword n then n else double_quoted n.

Definition segment_text (v : value) : str :=
  match v with
  | VNone => "[]"
  | VInt z => "[" ++ str_of_Z z ++ "]"
  | VStr n => canonical_name n
  | _ => []
  end.

Fixpoint canonical_tail (key : list value) : str :=
  match key with
  | [] => []
  | v :: key =>
      (if is_name v then "." else []) ++ segment_text v ++ canonical_tail key
  end.

Definition canonical (key : list value) : str :=
  match key with
  | [] => "."
  | v :: key => segment_text v ++ canonical_tail key
  end.

(** The unread part of the expression, and the lexer after [n] more
    characters are read. *)
Definition rest (L : Lexer) : str := rest_from (_position L) L.

Definition advance (n : nat) (L : Lexer) : Lexer :=
  set_position (_position L + n) L.

(** The characters that [Token] appends to an unquoted token outside
    parentheses: neither the escape, a quote, white space nor a
    terminator. *)
Definition plain (terminators : str) (c : ascii) : bool :=
  negb (Ascii.eqb c _ESCAPE) && negb (char_in c _QUOTES) &&
  negb (isspace c) && negb (char_in c terminators).

(** The characters of [w] appended to [token]. *)
Definition append_all (token : option str) (w : str) : option str :=
  match w with
  | [] => token
  | _ => Some (default [] token ++ w)
  end.

(** The unquoted scan stops in front of [r]: at the end of the input, or
    at a terminator. *)
Definition at_terminator (terminators : str) (r : str) : bool :=
  match r with
  | [] => true
  | c :: _ =>
      char_in c terminators && negb (Ascii.eqb c _ESCAPE) &&
      negb (char_in c _QUOTES)
  end.

(** The indices and slices at the front of a key, and what follows
    them. *)
Fixpoint leading_brackets (key : list value) : list value :=
  match key with
  | v :: key => if is_name v then [] else v :: leading_brackets key
  | [] => []
  end.

Fixpoint after_brackets (key : list value) : list value :=
  match key with
  | v :: key' => if is_name v then key else after_brackets key'
  | [] => []
  end.

(** The running value of [Evaluate] after the calls [transforms]. *)
Definition running (transforms : list _TransformCall) (obj : value) : value :=
  fold_left (fun obj transform => Evaluate_step transform obj) transforms obj.

(** What a list-mapped call does with the running value [obj]: a list is
    replaced by the list of the results on its items, a value that is not
    a list and is false in a condition is passed through, and any other
    value is given to the function as a whole, as by an unmapped call. *)
Definition mapped_step (transform : _TransformCall) (obj : value) : value :=
  match obj with
  | VList items => VList (map (fun item => call transform [item]) items)
  | _ =>
      if truthy obj then
        if restriction transform then call transform []
        else call transform [obj]
      else obj
  end.

(** What a call that is not a restriction does with the running value:
    the function always receives the running value, or its items. *)
Definition subject_step (transform : _TransformCall) (obj : value) : value :=
  if mapped transform && IsListLike obj then
    match obj with
    | VList items => VList (map (fun item => call transform [item]) items)
    | _ => obj
    end
  else if truthy obj || negb (mapped transform) then call transform [obj]
  else obj.

(** The value a method of a [_Transform] object returns. *)
Definition returned_T {A} (r : result (A * _Transform)) : result A :=
  match r with
  | Ok (a, _) => Ok a
  | Raise e => Raise e
  | Exhausted => Exhausted
  end.

(** ** Sample transforms

    A symbol table with the three combinators and two ordinary
    transforms, for the examples below. *)

Definition upper (c : ascii) : ascii :=
  let n := nat_of_ascii c in
  if (97 <=? n)%nat && (n <=? 122)%nat then ascii_of_nat (n - 32) else c.

Definition no_value (_ : list value) (_ : gmap string value) : value := VNone.

(** [upper()]: the upper case of a string. *)
Definition call_upper (args : list value) (_ : gmap string value) : value :=
  match args with
  | VStr s :: _ => VStr (map upper s)
  | v :: _ => v
  | [] => VNone
  end.

Definition sample_always : pyfunc :=
  {| func_id := 1; func_doc := None; func_defaults := false;
     func_call := no_value |}.
Definition sample_map : pyfunc :=
  {| func_id := 2; func_doc := None; func_defaults := false;
     func_call := no_value |}.
Definition sample_if : pyfunc :=
  {| func_id := 3; func_doc := None; func_defaults := false;
     func_call := no_value |}.
Definition sample_upper : pyfunc :=
  {| func_id := 4; func_doc := None; func_defaults := false;
     func_call := call_upper |}.
Definition sample_slice : pyfunc :=
  {| func_id := 5; func_doc := None; func_defaults := true;
     func_call := no_value |}.

Definition sample_symbols : gmap string pyfunc :=
  <["always" := sample_always]> (<["map" := sample_map]>
    (<["if" := sample_if]> (<["upper" := sample_upper]>
      (<["slice" := sample_slice]> ∅)))).

Definition sample_defaults : ProjectionSpec :=
  {| aliases := {[ "x" := [VStr "a"; VStr "b"] ]};
     symbols := sample_symbols |}.

(** [Transform(func_name, restriction=restriction)] on the text that
    follows the name of the first function, with the sample symbols. *)
Definition sample_Transform (func_name : str) (restriction : bool)
    (expression : str) : result (_Transform * Lexer) :=
  (IsCharacter "(" false false;;
   Transform " projection: The parent ProjectionSpec." sample_always
     sample_map sample_if (VStr func_name) (Some 0%Z) restriction)
    (Lexer_init expression (Some sample_defaults)).

(** The mapped call [map().upper()]. *)
Definition mapped_upper : _TransformCall :=
  _TransformCall_init "upper" sample_upper (Some 0%Z) (Some true) None None
    false.

(** The segments that the name [n] adds to the key [acc] in [Key]: the
    path of its alias when the key is still empty and no parenthesis
    follows the name, and the name itself otherwise. *)
Definition name_segments (L : Lexer) (acc : list value) (n : str)
    (paren : bool) : list value :=
  match lookup_alias (VStr n) L with
  | Some alias =>
      if bool_decide (acc = []) && negb paren then alias else [VStr n]
  | None => [VStr n]
  end.

(** The key path read from the canonical string of [key] after the
    segments [acc]: only a name at the front of [key] can stand for an
    alias. *)
Definition expand (L : Lexer) (acc key : list value) : list value :=
  match key with
  | VStr n :: key' => name_segments L acc n false ++ key'
  | _ => key
  end.

Definition starts_with_paren (r : str) : bool :=
  match r with
  | c :: _ => Ascii.eqb c "("
  | [] => false
  end.

(** The unread part [r] is empty or starts with a reserved operator
    character. *)
Definition at_operator (r : str) : bool :=
  match r with
  | [] => true
  | c :: _ => char_in c _RESERVED_OPERATOR_CHARS
  end.

(** No alias of the projection spec stands for the empty key path. *)
Definition no_empty_alias (d : ProjectionSpec) : Prop :=
  forall n alias, aliases d !! n = Some alias -> alias <> [].

(** ** Sample inputs *)

(** [s] between double quotes, as it is. *)
Definition in_quotes (s : str) : str := [dquote] ++ s ++ [dquote].

(** The inputs of the quoting examples: three adjacent quoted segments,
    and a token with an escaped quote. *)
Definition sample_adjacent : str :=
  in_quotes "foo" ++ in_quotes " & " ++ in_quotes "bar".

Definition sample_escaped : str := "a\" ++ [dquote] ++ "b".


(** The chain [map().upper()]. *)
Definition sample_chain : _Transform :=
  {| _conditional := None; _transforms := [mapped_upper] |}.

(** The lexer of a restriction [upper().slice(0,3)], just after the
    parenthesis that follows the name of the first function. *)
Definition sample_restriction_lexer : Lexer :=
  set_position 1 (Lexer_init "().slice(0,3)" (Some sample_defaults)).

(** The chain that [Transform] returns for the restriction
    [upper().slice(0,3)]: the first call carries the flag. *)
Definition sample_restriction_chain : _Transform :=
  {| _conditional := None;
     _transforms :=
       [ _TransformCall_init "upper" sample_upper (Some 0%Z) (Some false)
           (Some []) (Some ∅) true;
         _TransformCall_init "slice" sample_slice (Some 0%Z) (Some false)
           (Some [VStr "0"; VStr "3"]) (Some ∅) false ] |}.

(** * The remaining methods of the transform objects *)

(** [_TransformCall.__str__]: the projection spec argument is written
    [<projecton>], and [','.join] needs every other argument to be a
    string. *)
Definition arg_text (arg : value) : option str :=
  match arg with
  | VProjectionSpec => Some (list_ascii_of_string "<projecton>")
  | VStr s => Some s
  | _ => None
  end.

Definition _TransformCall_str (self : _TransformCall) : result str :=
  match mapM arg_text (args self) with
  | Some texts =>
      Ok ((if mapped self then list_ascii_of_string "map()." else []) ++
          name self ++ "(" ++ join "," texts ++ ")")
  | None => Raise TypeError
  end.

(** [map(str, self._transforms)]. *)
Fixpoint map_str (transforms : list _TransformCall) : result (list str) :=
  match transforms with
  | [] => Ok []
  | transform :: transforms =>
      match _TransformCall_str transform with
      | Ok text =>
          match map_str transforms with
          | Ok texts => Ok (text :: texts)
          | Raise e => Raise e
          | Exhausted => Exhausted
          end
      | Raise e => Raise e
      | Exhausted => Exhausted
      end
  end.

(** [_Transform.__str__]. *)
Definition _Transform_str : TM str := fun self =>
  match map_str (_transforms self) with
  | Ok texts => Ok ("[" ++ join "." texts ++ "]", self)
  | Raise e => Raise e
  | Exhausted => Exhausted
  end.

(** The property [active]: the active level of the first call. *)
Definition _Transform_active : TM (option Z) := fun self =>
  match _transforms self with
  | transform :: _ => Ok (active transform, self)
  | [] => Raise IndexError
  end.

(** The property [conditional]. *)
Definition _Transform_conditional : TM (option value) := fun self =>
  Ok (_conditional self, self).

(** [level in (None, active)]. *)
Definition level_in (level active : option Z) : bool :=
  match level with
  | None => true
  | Some l => bool_decide (active = Some l)
  end.

(** [IsActive(active)], as the truth value of what it returns: the empty
    list of calls of an empty chain is false, and [self.active] is not
    looked at then. *)
Definition IsActive (active : option Z) : TM bool :=
  transforms ← get_transforms;
  match transforms with
  | [] => mret false
  | _ :: _ =>
      level ← _Transform_active;
      mret (level_in level active)
  end.

(** [Name()]: the name of the last call, or the empty string. *)
Definition Name : TM str := fun self =>
  Ok (match last (_transforms self) with
      | Some transform => name transform
      | None => []
      end, self).

(** * Definitions used by the further statements *)

(** The lexer [L'] is [L] after reading: the same expression and
    defaults, and a cursor that has not moved back and, when it was
    inside the expression, is still inside it. *)
Definition reads (L L' : Lexer) : Prop :=
  _expr L' = _expr L /\ _defaults L' = _defaults L /\
  _position L <= _position L' /\
  (_position L <= length (_expr L) -> _position L' <= length (_expr L)).

(** The number of unread characters. *)
Definition remaining (L : Lexer) : nat := length (_expr L) - _position L.

(** The characters [c] that lie inside a quote [q] as they are. *)
Definition quotable (q c : ascii) : bool :=
  negb (Ascii.eqb c q) && negb (Ascii.eqb c _ESCAPE).

(** The characters of an unquoted argument of [Args]: neither the escape,
    a quote, white space, a parenthesis nor a comma. *)
Definition arg_char (c : ascii) : bool :=
  plain ",)" c && negb (char_in c "()").

Definition is_arg (a : str) : bool :=
  forallb arg_char a && negb (bool_decide (a = [])).

(** A call that [Transform] keeps in its chain: its function is the
    symbol of its name in the projection spec [d], and is none of the
    three combinators. *)
Definition resolved (d : ProjectionSpec)
    (TransformAlways TransformMap TransformIf : pyfunc)
    (transform : _TransformCall) : Prop :=
  symbols d !! string_of_list_ascii (name transform) = Some (func transform) /\
  func_eqb (func transform) TransformAlways = false /\
  func_eqb (func transform) TransformMap = false /\
  func_eqb (func transform) TransformIf = false.

(** No terminator is a white space character. *)
Definition no_space (T : str) : bool := negb (existsb isspace T).

(** The unread part [r] is empty or starts with a character of [T]. *)
Definition starts_in (T : str) (r : str) : bool :=
  match r with
  | [] => true
  | c :: _ => char_in c T
  end.

(** What ends the word of [IsString]: the end of the input, white space
    or an opening parenthesis. *)
Definition ends_word (r : str) : bool :=
  match r with
  | [] => true
  | c :: _ => isspace c || Ascii.eqb c "("
  end.

(** The value of the unquoted argument [a] of [Args(convert)]. *)
Definition arg_value (convert : bool) (a : str) : value :=
  convert_token convert false (Some a).

(** A function call as [Transform] reads it after a dot: the key, the
    opening parenthesis and the arguments. *)
Definition read_call : M (list value * list value) :=
  call ← Key;
  IsCharacter "(" false false;;
  args ← Args false;
  mret (call, args).

(** The character in front of the cursor. *)
Definition previous (L : Lexer) : option ascii :=
  match _position L with
  | 0 => None
  | S p => _expr L !! p
  end.

Definition is_str (v : value) : bool :=
  match v with VStr _ => true | _ => false end.

(** The arguments [l], each followed by a comma. *)
Definition with_commas (l : list str) : str :=
  flat_map (fun a => a ++ ","%char :: []) l.

(** The result [r] is no exception other than an
    [ExpressionSyntaxError]. *)
Definition syntax_only {A} (r : result A) : Prop :=
  match r with
  | Raise (ExpressionSyntaxError _ _) => True
  | Raise _ => False
  | _ => True
  end.

(** The result [r] is no exception other than an [ExpressionSyntaxError]
    or a [TypeError]. *)
Definition syntax_or_type {A} (r : result A) : Prop :=
  match r with
  | Raise (ExpressionSyntaxError _ _) | Raise TypeError => True
  | Raise _ => False
  | _ => True
  end.

(** The string [s] ends, and the string [s] starts, with white space or
    is empty. *)
Definition ends_spaced (s : str) : bool :=
  match last s with
  | Some c => isspace c
  | None => true
  end.

Definition starts_spaced (s : str) : bool :=
  match s with
  | c :: _ => isspace c
  | [] => true
  end.

(** The cursor that [Annotate] writes. *)
Definition marker : str := "*HERE*".

(** The text [s] that follows a key in an expression: the end of the
    input, or a reserved operator character that neither goes on with the
    key nor closes a bracket. *)
Definition key_end (s : str) : bool :=
  match s with
  | [] => true
  | c :: _ => char_in c _RESERVED_OPERATOR_CHARS && negb (char_in c ".[]")
  end.

(** The arguments that [__str__] can join: the strings and the
    projection spec. *)
Definition printable (arg : value) : bool :=
  match arg_text arg with Some _ => true | None => false end.

(** The first argument of a call whose function asks for the caller
    projection in its [func_doc]. *)
Definition projection_arg (PROJECTION_ARG_DOC : str) (f : pyfunc)
  : list value :=
  match func_doc f with
  | Some doc =>
      if truthy (VStr doc) && contains doc PROJECTION_ARG_DOC
      then [VProjectionSpec] else []
  | None => []
  end.

(** A chain of one call, without a conditional. *)
Definition chain_of (transform : _TransformCall) : _Transform :=
  {| _conditional := None; _transforms := [transform] |}.

(** The text [r] does not go on with a dot. *)
Definition no_dot (r : str) : bool :=
  match r with
  | c :: _ => negb (Ascii.eqb c ".")
  | [] => true
  end.

(** The cursor of [L] is within the expression: at most at its end. *)
Definition within (L : Lexer) : Prop := _position L <= length (_expr L).

(** What an escape and the character [c] after it stand for, outside
    quotes, following the specification: the escape in front of an escape
    or of a quote character is dropped, in front of any other character
    it is kept. *)
Definition escape_pair (c : ascii) : str :=
  if Ascii.eqb c _ESCAPE || char_in c _QUOTES then [c] else [_ESCAPE; c].

(** The same between quotes [q]: there the escape is dropped in front of
    an escape and of the quote [q] only. *)
Definition escape_pair_in (q c : ascii) : str :=
  if Ascii.eqb c _ESCAPE || Ascii.eqb c q then [c] else [_ESCAPE; c].


(** ** Key strings of the grammar *)

(** A segment of a key string, as the grammar of the specification writes
    it: a name, bare or between double quotes, and after it the bracketed
    suffixes, each with the text of a number ([Some d]) or with nothing
    ([None]). *)
Record segment := {
  seg_name : str;
  seg_quoted : bool;
  seg_brackets : list (option str)
}.

Definition bracket_string (b : option str) : str :=
  match b with
  | Some d => "[" ++ d ++ "]"
  | None => "[]"
  end.

Definition name_string (quoted : bool) (n : str) : str :=
  if quoted then double_quoted n else n.

Definition segment_string (s : segment) : str :=
  name_string (seg_quoted s) (seg_name s) ++
  flat_map bracket_string (seg_brackets s).

(** The key string: the segments, separated by dots. *)
Definition key_string (segs : list segment) : str :=
  join "." (map segment_string segs).

(** The segment that a bracketed suffix stands for: its text, converted as
    [Token(']', convert=True)] converts an unquoted token. *)
Definition bracket_value (b : option str) : value :=
  convert_token true false b.

(** The key path that the key string stands for. *)
Definition segment_path (s : segment) : list value :=
  VStr (seg_name s) :: map bracket_value (seg_brackets s).

Definition key_path (segs : list segment) : list value :=
  flat_map segment_path segs.

(** The text of an index: characters that an unquoted token takes in
    front of the closing bracket, which [int] reads as an integer. *)
Definition is_index (d : str) : bool :=
  forallb (plain "]") d && bool_decide (is_Some (py_int d)).

Definition is_ascii (c : ascii) : bool := (nat_of_ascii c <? 128)%nat.

(** A well-formed segment: a non-empty name of ASCII characters, which
    when it is written bare has no white space, quote, escape or reserved
    operator character, followed by indices and empty brackets. *)
Definition well_formed (s : segment) : bool :=
  negb (bool_decide (seg_name s = [])) &&
  forallb is_ascii (seg_name s) &&
  (seg_quoted s || forallb (plain _RESERVED_OPERATOR_CHARS) (seg_name s)) &&
  forallb (fun b => from_option is_index true b) (seg_brackets s).

(** The segment with the quoting of its name made canonical, as the
    specification has it: between double quotes exactly when the name has
    a non-word character. *)
Definition requoted (s : segment) : segment :=
  {| seg_name := seg_name s;
     seg_quoted := negb (forallb isword (seg_name s));
     seg_brackets := seg_brackets s |}.

(** The index written as [str] writes its integer. *)
Definition decimal_bracket (b : option str) : option str :=
  match bracket_value b with
  | VInt z => Some (str_of_Z z)
  | _ => b
  end.

(** A segment whose indices are written as [str] writes them. *)
Definition decimal_indices (s : segment) : bool :=
  forallb (fun b => bool_decide (decimal_bracket b = b)) (seg_brackets s).

(** The canonical spelling of a segment: the quoting of the name made
    canonical and every index written as [str] writes it. *)
Definition canonical_segment (s : segment) : segment :=
  {| seg_name := seg_name s;
     seg_quoted := negb (forallb isword (seg_name s));
     seg_brackets := map decimal_bracket (seg_brackets s) |}.

(** The key string ["a b".c[3][]."d"], whose last name is between
    quotes that it does not need. *)
Definition sample_segments : list segment :=
  [ {| seg_name := "a b"; seg_quoted := true; seg_brackets := [] |};
    {| seg_name := "c"; seg_quoted := false;
       seg_brackets := [Some (list_ascii_of_string "3"); None] |};
    {| seg_name := "d"; seg_quoted := true; seg_brackets := [] |} ].

(** The key string [a[03]]. *)
Definition sample_padded_index : list segment :=
  [ {| seg_name := "a"; seg_quoted := false;
       seg_brackets := [Some (list_ascii_of_string "03")] |} ].
(** * The renderer *)

Lemma join_snoc (sep : str) (parts : list str) (p : str) :
  parts <> [] -> join sep (parts ++ [p]) = join sep parts ++ sep ++ p.
Proof.
  induction parts as [|a parts IH]; [done|]. intros _.
  destruct parts as [|b parts]; [done|].
  change (join sep ((a :: b :: parts) ++ [p]))
    with (a ++ sep ++ join sep ((b :: parts) ++ [p])).
  rewrite IH by done.
  change (join sep (a :: b :: parts)) with (a ++ sep ++ join sep (b :: parts)).
  by rewrite <- !app_assoc.
Qed.

Lemma join_extend (sep : str) (parts : list str) (p t : str) :
  join sep (parts ++ [p ++ t]) = join sep (parts ++ [p]) ++ t.
Proof.
  destruct (decide (parts = [])) as [->|Hne]; [done|].
  rewrite !join_snoc by done. by rewrite <- !app_assoc.
Qed.

Lemma extend_last_snoc (parts : list str) (p t : str) :
  extend_last (parts ++ [p]) t = parts ++ [p ++ t].
Proof.
  unfold extend_last. rewrite length_app, Nat.add_1_r. simpl.
  induction parts as [|a parts IH]; [done|]. cbn. by f_equal.
Qed.

Lemma escape_replace (n : str) :
  replace dquote [_ESCAPE; dquote] (replace "\" "\\" n) =
  flat_map escape_char n.
Proof.
  unfold replace. induction n as [|c n IH]; [done|].
  cbn [flat_map]. rewrite flat_map_app, IH. f_equal.
  unfold escape_char.
  destruct (Ascii.eqb_spec c "\") as [->|]; [done|].
  cbn [flat_map]. rewrite app_nil_r.
  by destruct (Ascii.eqb c dquote).
Qed.

Lemma name_text_canonical (n : str) :
  (if has_nonword n then quote_name n else n) = canonical_name n.
Proof.
  unfold canonical_name, double_quoted, has_nonword, quote_name.
  rewrite escape_replace.
  assert (existsb (fun c => negb (isword c)) n = negb (forallb isword n)) as ->.
  { induction n as [|c n IH]; [done|]. simpl. rewrite IH.
    by destruct (isword c), (forallb isword n). }
  by destruct (forallb isword n).
Qed.

Definition renderable (v : value) : bool :=
  match v with
  | VNone | VInt _ | VStr _ => true
  | _ => false
  end.

Lemma GetKeyName_loop_canonical (key : list value) :
  forallb renderable key = true ->
  forall parts p, exists parts',
    GetKeyName_loop key (parts ++ [p]) = Ok parts' /\ parts' <> [] /\
    join "." parts' = join "." (parts ++ [p]) ++ canonical_tail key.
Proof.
  induction key as [|v key IH]; intros Hok parts p.
  - exists (parts ++ [p]). rewrite app_nil_r. split_and!; [done| |done].
    by destruct parts.
  - simpl in Hok. apply andb_true_iff in Hok as [Hv Hok].
    assert (parts ++ [p] <> []) as Hne by (by destruct parts).
    destruct v as [|z| |n| |]; try discriminate;
      cbn [GetKeyName_loop canonical_tail is_name segment_text].
    + rewrite bool_decide_true by done. rewrite extend_last_snoc.
      destruct (IH Hok parts (p ++ "[]")) as (parts' & Hl & ? & Hj).
      exists parts'. split_and!; [done..|].
      rewrite Hj, join_extend. by rewrite <- app_assoc.
    + rewrite bool_decide_true by done. rewrite extend_last_snoc.
      destruct (IH Hok parts (p ++ "[" ++ str_of_Z z ++ "]"))
        as (parts' & Hl & ? & Hj).
      exists parts'. split_and!; [done..|].
      rewrite Hj, join_extend. by rewrite <- !app_assoc.
    + pose proof (name_text_canonical n) as Hn.
      destruct (IH Hok (parts ++ [p]) (canonical_name n))
        as (parts' & Hl & ? & Hj).
      exists parts'. split_and!; [|done|].
      * by destruct (has_nonword n); rewrite <- Hn in Hl.
      * rewrite Hj, join_snoc by done. by rewrite <- !app_assoc.
Qed.

Lemma GetKeyName_canonical (key : list value) :
  forallb renderable key = true -> GetKeyName key = Ok (canonical key).
Proof.
  intros Hok. unfold GetKeyName. destruct key as [|v key]; [done|].
  simpl in Hok. apply andb_true_iff in Hok as [Hv Hok].
  pose proof (name_text_canonical) as Hn.
  destruct v as [|z| |n| |]; try discriminate;
    cbn [GetKeyName_loop canonical segment_text app];
    rewrite ?bool_decide_false by (by intros []).
  - destruct (GetKeyName_loop_canonical key Hok [] "[]")
      as (parts' & Hl & ? & Hj).
    cbn [app] in Hl. rewrite Hl. rewrite bool_decide_true by done.
    by rewrite Hj.
  - destruct (GetKeyName_loop_canonical key Hok [] ("[" ++ str_of_Z z ++ "]"))
      as (parts' & Hl & ? & Hj).
    cbn [app] in Hl. rewrite Hl.
    rewrite bool_decide_true by done. by rewrite Hj.
  - destruct (GetKeyName_loop_canonical key Hok [] (canonical_name n))
      as (parts' & Hl & ? & Hj).
    specialize (Hn n). cbn [app] in Hl.
    remember (canonical_name n) as text.
    destruct (has_nonword n); rewrite Hn, Hl, bool_decide_true, Hj by done;
      done.
Qed.

(** * The lexer monad *)

#[local] Arguments char_in : simpl never.
#[local] Arguments isspace : simpl never.

Ltac decide_conditions :=
  repeat first
    [ rewrite bool_decide_true by (done || eauto)
    | rewrite bool_decide_false by (done || (intros [? ?]; done)) ].

Lemma bind_Ok {A B} (m : M A) (k : A -> M B) L a L' :
  m L = Ok (a, L') -> (m ≫= k) L = k a L'.
Proof. intros H. unfold mbind, M_bind. by rewrite H. Qed.

Lemma bind_inv {A B} (m : M A) (k : A -> M B) L r :
  (m ≫= k) L = Ok r -> exists a L', m L = Ok (a, L') /\ k a L' = Ok r.
Proof.
  unfold mbind, M_bind. destruct (m L) as [[a L']| |]; [|done..].
  intros H. by exists a, L'.
Qed.

Lemma set_position_id L : set_position (_position L) L = L.
Proof. by destruct L. Qed.

Lemma advance_0 L : advance 0 L = L.
Proof. unfold advance. rewrite Nat.add_0_r. apply set_position_id. Qed.

Lemma advance_advance n m L : advance m (advance n L) = advance (n + m) L.
Proof. unfold advance, set_position. simpl. f_equal. lia. Qed.

Lemma rest_advance L a b : rest L = a ++ b -> rest (advance (length a) L) = b.
Proof.
  unfold rest, rest_from, advance. simpl. intros H.
  rewrite <- drop_drop, H. apply drop_app_length.
Qed.

Lemma rest_length L : length (rest L) = length (_expr L) - _position L.
Proof. apply length_drop. Qed.

Lemma EndOfInput_nil L : rest L = [] -> EndOfInput None L = Ok (true, L).
Proof.
  intros H. unfold EndOfInput. simpl. pose proof (rest_length L) as Hl.
  rewrite H in Hl. simpl in Hl. by rewrite (proj2 (Nat.leb_le _ _)) by lia.
Qed.

Lemma EndOfInput_cons L c r :
  rest L = c :: r -> EndOfInput None L = Ok (false, L).
Proof.
  intros H. unfold EndOfInput. simpl. pose proof (rest_length L) as Hl.
  rewrite H in Hl. simpl in Hl. by rewrite (proj2 (Nat.leb_gt _ _)) by lia.
Qed.

Lemma IsCharacter_eoi L characters peek eoi_ok :
  rest L = [] -> peek || eoi_ok = true ->
  IsCharacter characters peek eoi_ok L = Ok (None, L).
Proof. intros H Hp. unfold IsCharacter. fold (rest L). by rewrite H, Hp. Qed.

Lemma IsCharacter_miss L characters peek eoi_ok c r :
  rest L = c :: r -> char_in c characters = false ->
  IsCharacter characters peek eoi_ok L = Ok (None, L).
Proof. intros H Hc. unfold IsCharacter. fold (rest L). by rewrite H, Hc. Qed.

Lemma IsCharacter_hit L characters eoi_ok c r :
  rest L = c :: r -> char_in c characters = true ->
  IsCharacter characters false eoi_ok L = Ok (Some c, advance 1 L).
Proof.
  intros H Hc. unfold IsCharacter. fold (rest L). rewrite H, Hc. simpl.
  unfold advance. by rewrite Nat.add_1_r.
Qed.

Lemma IsCharacter_peek L characters eoi_ok c r :
  rest L = c :: r -> char_in c characters = true ->
  IsCharacter characters true eoi_ok L = Ok (Some c, L).
Proof. intros H Hc. unfold IsCharacter. fold (rest L). by rewrite H, Hc. Qed.

Lemma SkipSpace_none L :
  count_space (rest L) = 0 -> exists more, SkipSpace None L = Ok (more, L).
Proof.
  intros H. unfold SkipSpace. fold (rest L). rewrite H, Nat.add_0_r.
  rewrite set_position_id. destruct (Nat.ltb _ _); eauto.
Qed.

(** * The scanning loop of [Token] *)

Lemma Token_loop_noesc T bp c s i quote quoted token pc :
  Ascii.eqb c _ESCAPE = false ->
  Token_loop T bp (c :: s) i quote quoted token pc =
  match Token_char T bp c quote quoted token pc with
  | Break => {| scan_i := i; scan_quote := quote; scan_quoted := quoted;
                scan_token := token |}
  | Continue quote quoted token pc =>
      Token_loop T bp s (i + 1) quote quoted token pc
  end.
Proof. intros H. destruct s; simpl; by rewrite ?H. Qed.

Lemma Token_loop_esc T bp c s i quote quoted token pc :
  Token_loop T bp (_ESCAPE :: c :: s) i quote quoted token pc =
  Token_loop T bp s (i + 1 + 1) quote quoted (Token_escape quote token c) pc.
Proof. reflexivity. Qed.

Lemma Token_char_plain T c quoted token :
  plain T c = true ->
  Token_char T false c None quoted token 0 =
  Continue None quoted (append token [c]) 0.
Proof.
  unfold plain. rewrite !andb_true_iff, !negb_true_iff.
  intros [[[_ Hq] Hs] Ht]. unfold Token_char. decide_conditions.
  cbn [is_quote andb orb]. change (0 =? 0)%Z with true.
  by rewrite Hq, Hs, Ht.
Qed.

Lemma plain_noesc T c : plain T c = true -> Ascii.eqb c _ESCAPE = false.
Proof.
  unfold plain. rewrite !andb_true_iff, !negb_true_iff. tauto.
Qed.

Lemma Token_loop_plain T w r i quoted token :
  forallb (plain T) w = true ->
  Token_loop T false (w ++ r) i None quoted token 0 =
  Token_loop T false r (i + length w) None quoted (append_all token w) 0.
Proof.
  revert i token. induction w as [|c w IH]; intros i token Hw.
  - simpl. by rewrite Nat.add_0_r.
  - simpl in Hw. apply andb_true_iff in Hw as [Hc Hw].
    change ((c :: w) ++ r) with (c :: (w ++ r)).
    rewrite Token_loop_noesc by (by eapply plain_noesc).
    rewrite Token_char_plain by done. rewrite IH by done.
    f_equal; [simpl; lia|].
    unfold append, append_all. destruct w; simpl; [done|].
    by rewrite <- app_assoc.
Qed.

(** The loop stops at the end of the input and at an unquoted
    terminator. *)
Lemma Token_loop_end T bp i quote quoted token pc :
  Token_loop T bp [] i quote quoted token pc =
  {| scan_i := i; scan_quote := quote; scan_quoted := quoted;
     scan_token := token |}.
Proof. reflexivity. Qed.

Lemma Token_loop_terminator T c r i quoted token :
  char_in c T = true -> Ascii.eqb c _ESCAPE = false ->
  char_in c _QUOTES = false ->
  Token_loop T false (c :: r) i None quoted token 0 =
  {| scan_i := i; scan_quote := None; scan_quoted := quoted;
     scan_token := token |}.
Proof.
  intros Ht He Hq. rewrite Token_loop_noesc by done.
  unfold Token_char. decide_conditions.
  cbn [is_quote andb orb]. change (0 =? 0)%Z with true.
  by rewrite Hq, Ht.
Qed.

Lemma Token_char_close T bp q quoted token pc :
  Token_char T bp q (Some q) quoted token pc = Continue None quoted token pc.
Proof. unfold Token_char. cbn [is_quote]. by rewrite Ascii.eqb_refl. Qed.

Lemma Token_char_inside T bp c q quoted token pc :
  c <> q ->
  Token_char T bp c (Some q) quoted token pc =
  Continue (Some q) quoted (append token [c]) pc.
Proof.
  intros Hc. unfold Token_char. cbn [is_quote].
  rewrite (proj2 (Ascii.eqb_neq _ _)) by done.
  by decide_conditions.
Qed.

Lemma Token_char_open T bp q quoted token pc :
  char_in q _QUOTES = true ->
  Token_char T bp q None quoted token pc =
  Continue (Some q) true (append token []) pc.
Proof.
  intros Hq. unfold Token_char. cbn [is_quote]. decide_conditions.
  by rewrite Hq.
Qed.

(** Inside a double quote, the escaped form of [n] followed by the
    closing quote appends [n] to the token. *)
Lemma Token_loop_quoted T bp n r i quoted t pc :
  Token_loop T bp (flat_map escape_char n ++ dquote :: r) i
    (Some dquote) quoted (Some t) pc =
  Token_loop T bp r (i + length (flat_map escape_char n) + 1) None quoted
    (Some (t ++ n)) pc.
Proof.
  revert i t. induction n as [|c n IH]; intros i t.
  - cbn [flat_map app length]. rewrite Token_loop_noesc by done.
    rewrite Token_char_close. by rewrite app_nil_r, Nat.add_0_r.
  - cbn [flat_map]. rewrite <- app_assoc, length_app.
    assert (forall c', Token_escape (Some dquote) (Some t) c' =
                       Some (t ++ [c']) \/ (c' <> "\"%char /\ c' <> dquote))
      as Hesc.
    { intros c'. unfold Token_escape, append. cbn [default is_quote].
      rewrite app_nil_r.
      destruct (Ascii.eqb_spec c' _ESCAPE) as [->|]; [by left|].
      destruct (Ascii.eqb_spec c' dquote) as [->|]; [by left|].
      by right. }
    unfold escape_char at 1 3.
    destruct (Ascii.eqb_spec c "\") as [->|Hb].
    + cbn [list_ascii_of_string app length].
      change "\"%char with _ESCAPE at 1.
      rewrite Token_loop_esc.
      destruct (Hesc "\"%char) as [->|[? _]]; [|done].
      rewrite IH, <- app_assoc. f_equal. lia.
    + destruct (Ascii.eqb_spec c dquote) as [->|Hq].
      * cbn [app length].
        rewrite Token_loop_esc.
        destruct (Hesc dquote) as [->|[_ ?]]; [|done].
        rewrite IH, <- app_assoc. f_equal. lia.
      * cbn [app length].
        rewrite Token_loop_noesc by (by apply Ascii.eqb_neq).
        rewrite Token_char_inside by done. cbv beta iota.
        unfold append. cbn [default]. rewrite IH.
        rewrite <- app_assoc. f_equal. lia.
Qed.

Lemma Token_loop_stop T r i quoted token :
  at_terminator T r = true ->
  Token_loop T false r i None quoted token 0 =
  {| scan_i := i; scan_quote := None; scan_quoted := quoted;
     scan_token := token |}.
Proof.
  destruct r as [|c r]; [done|]. unfold at_terminator.
  rewrite !andb_true_iff, !negb_true_iff. intros [[Ht He] Hq].
  by apply Token_loop_terminator.
Qed.

Lemma isword_plain c :
  isword c = true -> plain _RESERVED_OPERATOR_CHARS c = true.
Proof.
  destruct c as [[] [] [] [] [] [] [] []]; vm_compute; congruence.
Qed.

Lemma isdigit_plain c : isdigit c = true -> plain "]" c = true.
Proof.
  destruct c as [[] [] [] [] [] [] [] []]; vm_compute; congruence.
Qed.

Lemma forallb_impl {A} (P Q : A -> bool) (l : list A) :
  (forall a, P a = true -> Q a = true) ->
  forallb P l = true -> forallb Q l = true.
Proof.
  intros H. induction l as [|a l IH]; [done|]. simpl.
  rewrite !andb_true_iff. intros [? ?]. auto.
Qed.

(** The scan of a canonical name that is followed by a terminator. *)
Lemma Token_scan_name L n r :
  n <> [] -> at_terminator _RESERVED_OPERATOR_CHARS r = true ->
  rest L = canonical_name n ++ r ->
  Token_scan _RESERVED_OPERATOR_CHARS false L =
  {| scan_i := _position L + length (canonical_name n); scan_quote := None;
     scan_quoted := negb (forallb isword n); scan_token := Some n |}.
Proof.
  intros Hn Hr HL. unfold Token_scan. fold (rest L). rewrite HL.
  unfold canonical_name, double_quoted. destruct (forallb isword n) eqn:Hw.
  - rewrite Token_loop_plain by (eapply forallb_impl, Hw; apply isword_plain).
    rewrite Token_loop_stop by done. by destruct n.
  - rewrite <- !app_assoc. cbn [list_ascii_of_string app].
    rewrite Token_loop_noesc by done.
    rewrite Token_char_open by done. cbv beta iota.
    unfold append. cbn [default app].
    rewrite Token_loop_quoted. rewrite Token_loop_stop by done.
    cbn [length app negb]. rewrite length_app. cbn [length].
    f_equal. lia.
Qed.

Lemma Token_returns T bp convert L n quoted token :
  Token_scan T bp L =
  {| scan_i := _position L + n; scan_quote := None; scan_quoted := quoted;
     scan_token := token |} ->
  Token T bp false convert L = Ok (convert_token convert quoted token, advance n L).
Proof.
  intros H. unfold Token. unfold mbind, M_bind, get_lexer. by rewrite H.
Qed.

Lemma Token_returns_space T bp convert L n quoted token :
  Token_scan T bp L =
  {| scan_i := _position L + n; scan_quote := None; scan_quoted := quoted;
     scan_token := token |} ->
  count_space (rest (advance n L)) = 0 ->
  Token T bp true convert L = Ok (convert_token convert quoted token, advance n L).
Proof.
  intros H Hs. unfold Token. unfold mbind, M_bind, get_lexer. rewrite H.
  cbn [scan_quote scan_i scan_quoted scan_token SetPosition].
  fold (advance n L).
  by destruct (SkipSpace_none _ Hs) as [more ->].
Qed.

(** * Decimal integers *)

Lemma string_of_uint_digits (d : Decimal.uint) :
  forallb isdigit (list_ascii_of_string (NilEmpty.string_of_uint d)) = true.
Proof. induction d; simpl; auto. Qed.

Lemma isdigit_no_sign c s : isdigit c = true -> split_sign (c :: s) = (false, c :: s).
Proof.
  destruct c as [[] [] [] [] [] [] [] []]; vm_compute; congruence.
Qed.

Lemma isdigit_not_space c : isdigit c = true -> isspace c = false.
Proof.
  destruct c as [[] [] [] [] [] [] [] []]; vm_compute; congruence.
Qed.

Lemma lstrip_id c s : isspace c = false -> lstrip (c :: s) = c :: s.
Proof. intros H. simpl. by rewrite H. Qed.

Lemma strip_id c s d :
  isspace c = false -> isspace d = false ->
  strip (c :: s ++ [d]) = c :: s ++ [d].
Proof.
  intros Hc Hd. unfold strip. rewrite lstrip_id by done.
  change (c :: s ++ [d]) with ((c :: s) ++ [d]).
  rewrite rev_app_distr. cbn [rev app]. rewrite lstrip_id by done.
  change (d :: rev s ++ [c]) with ([d] ++ rev (c :: s)).
  rewrite rev_app_distr, rev_involutive. done.
Qed.

Lemma strip_digits ds :
  forallb isdigit ds = true -> strip ds = ds.
Proof.
  intros H. destruct ds as [|c ds]; [done|].
  destruct (exists_last (l := c :: ds)) as (ds' & d & Heq); [done|].
  destruct ds' as [|c' ds'].
  - injection Heq as -> ->. simpl in H. apply andb_true_iff in H as [H _].
    unfold strip. simpl. rewrite (isdigit_not_space _ H). simpl.
    by rewrite (isdigit_not_space _ H).
  - rewrite Heq in *. simpl in H. apply andb_true_iff in H as [Hc H].
    rewrite forallb_app in H. apply andb_true_iff in H as [_ H].
    simpl in H. apply andb_true_iff in H as [Hd _].
    apply strip_id; by apply isdigit_not_space.
Qed.

Lemma digits_value_uint (d : Decimal.uint) :
  d <> Decimal.Nil ->
  digits_value (list_ascii_of_string (NilEmpty.string_of_uint d)) =
  Some (N.of_uint d).
Proof.
  intros Hd. unfold digits_value.
  rewrite string_of_list_ascii_of_string, NilEmpty.usu.
  by destruct d.
Qed.

Lemma py_int_uint (d : Decimal.uint) :
  d <> Decimal.Nil ->
  py_int (list_ascii_of_string (NilEmpty.string_of_uint d)) =
  Some (Z.of_N (N.of_uint d)).
Proof.
  intros Hd. unfold py_int.
  pose proof (string_of_uint_digits d) as Hds.
  pose proof (digits_value_uint d Hd) as Hv.
  rewrite strip_digits by done.
  destruct (list_ascii_of_string (NilEmpty.string_of_uint d)) as [|c ds] eqn:E.
  { by destruct d. }
  rewrite isdigit_no_sign by (simpl in Hds; by apply andb_true_iff in Hds as [? _]).
  by rewrite Hds, Hv.
Qed.

Lemma py_int_neg_uint (d : Decimal.uint) :
  d <> Decimal.Nil ->
  py_int ("-"%char :: list_ascii_of_string (NilEmpty.string_of_uint d)) =
  Some (- Z.of_N (N.of_uint d))%Z.
Proof.
  intros Hd. unfold py_int.
  pose proof (string_of_uint_digits d) as Hds.
  pose proof (digits_value_uint d Hd) as Hv.
  destruct (exists_last (l := list_ascii_of_string (NilEmpty.string_of_uint d)))
    as (ds' & c & Heq); [by destruct d|].
  rewrite Heq in *. rewrite strip_id; [|done|].
  - cbn [split_sign]. by rewrite Hds, Hv.
  - rewrite forallb_app in Hds. apply andb_true_iff in Hds as [_ H].
    simpl in H. apply andb_true_iff in H as [? _]. by apply isdigit_not_space.
Qed.

Lemma py_int_str_of_Z z : py_int (str_of_Z z) = Some z.
Proof.
  unfold str_of_Z. destruct z as [|p|p]; [done| |].
  - cbn [Z.to_int NilEmpty.string_of_int].
    rewrite py_int_uint by apply Unsigned.to_uint_nonnil.
    by rewrite DecimalPos.Unsigned.of_to.
  - cbn [Z.to_int NilEmpty.string_of_int list_ascii_of_string].
    rewrite py_int_neg_uint by apply Unsigned.to_uint_nonnil.
    by rewrite DecimalPos.Unsigned.of_to.
Qed.

Lemma str_of_Z_plain z : forallb (plain "]") (str_of_Z z) = true.
Proof.
  unfold str_of_Z. destruct z as [|p|p]; [done| |].
  - eapply forallb_impl; [apply isdigit_plain|]. apply string_of_uint_digits.
  - cbn [Z.to_int NilEmpty.string_of_int list_ascii_of_string forallb].
    apply andb_true_iff. split; [done|].
    eapply forallb_impl; [apply isdigit_plain|]. apply string_of_uint_digits.
Qed.

Lemma str_of_Z_nonempty z : str_of_Z z <> [].
Proof.
  intros H. pose proof (py_int_str_of_Z z) as Hp. by rewrite H in Hp.
Qed.

(** * [Key] on canonical strings *)

Lemma canonical_tail_app a b :
  canonical_tail (a ++ b) = canonical_tail a ++ canonical_tail b.
Proof.
  induction a as [|v a IH]; [done|]. cbn [app canonical_tail].
  by rewrite IH, <- !app_assoc.
Qed.

Lemma brackets_split key : key = leading_brackets key ++ after_brackets key.
Proof.
  induction key as [|v key IH]; [done|]. simpl.
  destruct (is_name v); [done|]. simpl. by f_equal.
Qed.

Lemma after_brackets_name key :
  after_brackets key = [] \/ exists n k, after_brackets key = VStr n :: k.
Proof.
  induction key as [|v key IH]; [by left|]. simpl.
  destruct v; simpl; eauto.
Qed.

Lemma is_segment_after key :
  forallb is_segment key = true -> forallb is_segment (after_brackets key) = true.
Proof.
  induction key as [|v key IH]; [done|]. intros H. simpl.
  destruct (is_name v); [done|]. simpl in H.
  apply andb_true_iff in H as [_ H]. auto.
Qed.

Lemma canonical_name_nonempty n : n <> [] -> canonical_name n <> [].
Proof.
  unfold canonical_name, double_quoted. by destruct (forallb isword n), n.
Qed.

Lemma canonical_tail_head key :
  forallb is_segment key = true -> key <> [] ->
  exists c r, canonical_tail key = c :: r /\ (c = "."%char \/ c = "["%char).
Proof.
  destruct key as [|v key]; [done|]. intros H _. simpl in H.
  apply andb_true_iff in H as [Hv _].
  destruct v; try discriminate; cbn; eauto.
Qed.

Lemma canonical_tail_terminator T key :
  forallb is_segment key = true ->
  char_in "." T = true -> char_in "[" T = true ->
  at_terminator T (canonical_tail key) = true.
Proof.
  intros H Hd Hb. destruct key as [|v key]; [done|].
  destruct (canonical_tail_head (v :: key)) as (c & r & -> & [->| ->]);
    [done..| |]; unfold at_terminator; by rewrite ?Hd, ?Hb.
Qed.

Lemma lookup_alias_empty name L :
  aliases (_defaults L) = ∅ -> lookup_alias name L = None.
Proof.
  intros H. unfold lookup_alias. rewrite H. by destruct name.
Qed.

Lemma Token_index L z r :
  rest L = str_of_Z z ++ "]"%char :: r ->
  Token "]" false true true L = Ok (VInt z, advance (length (str_of_Z z)) L).
Proof.
  intros HL.
  assert (Token_scan "]" false L =
          {| scan_i := _position L + length (str_of_Z z); scan_quote := None;
             scan_quoted := false; scan_token := Some (str_of_Z z) |}) as Hs.
  { unfold Token_scan. fold (rest L). rewrite HL.
    rewrite Token_loop_plain by apply str_of_Z_plain.
    rewrite Token_loop_stop by done.
    pose proof (str_of_Z_nonempty z). by destruct (str_of_Z z). }
  rewrite (Token_returns_space _ _ _ _ _ _ _ Hs).
  - unfold convert_token. pose proof (str_of_Z_nonempty z).
    rewrite py_int_str_of_Z. by destruct (str_of_Z z).
  - by rewrite (rest_advance _ _ _ HL).
Qed.

Lemma Token_slice L r :
  rest L = "]"%char :: r ->
  Token "]" false true true L = Ok (VNone, L).
Proof.
  intros HL.
  assert (Token_scan "]" false L =
          {| scan_i := _position L + 0; scan_quote := None;
             scan_quoted := false; scan_token := None |}) as Hs.
  { unfold Token_scan. fold (rest L). rewrite HL.
    rewrite Token_loop_stop by done. by rewrite Nat.add_0_r. }
  rewrite (Token_returns_space _ _ true _ _ _ _ Hs).
  - by rewrite advance_0.
  - by rewrite advance_0, HL.
Qed.

Lemma Key_brackets_canonical key : forall fuel acc L,
  forallb is_segment key = true ->
  rest L = canonical_tail key ->
  length (canonical_tail key) < fuel ->
  Key_brackets fuel acc L =
  Ok (acc ++ leading_brackets key,
      advance (length (canonical_tail (leading_brackets key))) L).
Proof.
  induction key as [|v key IH]; intros fuel acc L Hwf HL Hfuel.
  - destruct fuel as [|fuel]; [simpl in Hfuel; lia|]. cbn [Key_brackets].
    rewrite (bind_Ok _ _ _ _ _ (IsCharacter_eoi L "[" false true HL eq_refl)).
    rewrite bool_decide_false by (by intros [? ?]).
    by rewrite app_nil_r, advance_0.
  - destruct fuel as [|fuel]; [lia|]. cbn [Key_brackets].
    simpl in Hwf. apply andb_true_iff in Hwf as [Hv Hwf].
    destruct v as [|z| |n| |]; try discriminate;
      cbn [canonical_tail is_name segment_text] in HL, Hfuel;
      cbn [leading_brackets is_name canonical_tail segment_text].
    + (* slice *)
      cbn [list_ascii_of_string app] in HL.
      rewrite (bind_Ok _ _ _ _ _ (IsCharacter_hit L "[" true _ _ HL eq_refl)).
      rewrite bool_decide_true by eauto.
      assert (rest (advance 1 L) = "]"%char :: canonical_tail key) as H1
        by (by apply (rest_advance L ["["%char])).
      rewrite (bind_Ok _ _ _ _ _ (Token_slice _ _ H1)).
      rewrite (bind_Ok _ _ _ _ _ (IsCharacter_hit _ "]" false _ _ H1 eq_refl)).
      rewrite IH; [|done| |].
      * rewrite <- app_assoc, !advance_advance.
        f_equal; f_equal; cbn [list_ascii_of_string app length]; lia.
      * by apply (rest_advance _ ["]"%char]).
      * cbn [list_ascii_of_string app length] in Hfuel. lia.
    + (* index *)
      rewrite <- !app_assoc in HL. cbn [list_ascii_of_string app] in HL.
      rewrite (bind_Ok _ _ _ _ _ (IsCharacter_hit L "[" true _ _ HL eq_refl)).
      rewrite bool_decide_true by eauto.
      assert (rest (advance 1 L) = str_of_Z z ++ "]"%char :: canonical_tail key)
        as H1 by (by apply (rest_advance L ["["%char])).
      rewrite (bind_Ok _ _ _ _ _ (Token_index _ _ _ H1)).
      pose proof (rest_advance _ _ _ H1) as H2.
      rewrite (bind_Ok _ _ _ _ _ (IsCharacter_hit _ "]" false _ _ H2 eq_refl)).
      rewrite <- !app_assoc, !length_app in Hfuel.
      cbn [list_ascii_of_string app length] in Hfuel.
      rewrite IH; [|done| |].
      * rewrite <- !app_assoc, !advance_advance, !length_app.
        f_equal; f_equal; cbn [list_ascii_of_string app length];
          rewrite ?length_app; cbn [length]; lia.
      * by apply (rest_advance _ ["]"%char]).
      * lia.
    + (* a name: the loop ends in front of its dot *)
      cbn [list_ascii_of_string app] in HL.
      rewrite (bind_Ok _ _ _ _ _ (IsCharacter_miss L "[" false true _ _ HL eq_refl)).
      rewrite bool_decide_false by (by intros [? ?]).
      by rewrite app_nil_r, advance_0.
Qed.

Lemma truthy_name n : n <> [] -> truthy (VStr n) = true.
Proof. by destruct n. Qed.

Lemma is_segment_name n : is_segment (VStr n) = true -> n <> [].
Proof. by destruct n. Qed.

Lemma IsCharacter_tail L characters peek key :
  forallb is_segment key = true -> rest L = canonical_tail key ->
  char_in "." characters = false -> char_in "[" characters = false ->
  (key = [] -> peek = true) ->
  IsCharacter characters peek true L = Ok (None, L).
Proof.
  intros Hwf HL Hd Hb Hp. destruct key as [|v key].
  - apply IsCharacter_eoi; [done|]. by rewrite orb_true_r.
  - destruct (canonical_tail_head (v :: key)) as (c & r & Hc & Hh); [done..|].
    rewrite Hc in HL. eapply IsCharacter_miss; [done|].
    by destruct Hh as [-> | ->].
Qed.

Lemma IsCharacter_peek_paren L :
  IsCharacter "(" true true L =
  Ok (if starts_with_paren (rest L) then Some "("%char else None, L).
Proof.
  unfold IsCharacter. fold (rest L). destruct (rest L) as [|c r]; [done|].
  unfold starts_with_paren, char_in. cbn [list_ascii_of_string existsb].
  rewrite orb_false_r. by destruct (Ascii.eqb_spec c "(") as [->|].
Qed.

(** The name of an iteration, in front of a canonical name. *)
Lemma Key_name_token L here acc n r :
  n <> [] -> at_terminator _RESERVED_OPERATOR_CHARS r = true ->
  rest L = canonical_name n ++ r ->
  Key_name here acc L =
  Ok (Some (acc ++ name_segments L acc n (starts_with_paren r)),
      advance (length (canonical_name n)) L).
Proof.
  intros Hn Hr HL. unfold Key_name.
  pose proof (Token_scan_name L n _ Hn Hr HL) as Hs.
  rewrite (bind_Ok _ _ _ _ _ (Token_returns _ _ false _ _ _ _ Hs)).
  cbn [convert_token andb]. rewrite truthy_name by done.
  pose proof (rest_advance _ _ _ HL) as H1.
  rewrite (bind_Ok _ _ _ _ _ (IsCharacter_peek_paren _)), H1.
  unfold mbind, M_bind, get_lexer, name_segments.
  change (lookup_alias (VStr n) (advance (length (canonical_name n)) L))
    with (lookup_alias (VStr n) L).
  destruct (lookup_alias (VStr n) L) as [alias|]; [|done].
  destruct (starts_with_paren r); decide_conditions; cbn [negb];
    by destruct (bool_decide (acc = [])).
Qed.

Lemma Key_name_canonical L here acc n key :
  n <> [] -> forallb is_segment key = true ->
  rest L = canonical_name n ++ canonical_tail key ->
  Key_name here acc L =
  Ok (Some (acc ++ name_segments L acc n false),
      advance (length (canonical_name n)) L).
Proof.
  intros Hn Hwf HL.
  rewrite (Key_name_token L here acc n (canonical_tail key)); try done.
  - destruct key as [|v key]; [done|].
    destruct (canonical_tail_head (v :: key)) as (c & r & -> & [->| ->]);
      done.
  - by apply canonical_tail_terminator.
Qed.

(** The name of an iteration, in front of a bracket. *)
Lemma Key_name_bracket L here acc r :
  rest L = "["%char :: r -> Key_name here acc L = Ok (Some acc, L).
Proof.
  intros HL. unfold Key_name.
  assert (Token_scan _RESERVED_OPERATOR_CHARS false L =
          {| scan_i := _position L + 0; scan_quote := None;
             scan_quoted := false; scan_token := None |}) as Hs.
  { unfold Token_scan. fold (rest L). rewrite HL.
    rewrite Token_loop_stop by done. by rewrite Nat.add_0_r. }
  rewrite (bind_Ok _ _ _ _ _ (Token_returns _ _ false _ _ _ _ Hs)).
  rewrite advance_0. cbn [convert_token truthy].
  rewrite (bind_Ok _ _ _ _ _ (IsCharacter_peek L "[" false _ _ HL eq_refl)).
  by rewrite bool_decide_true by eauto.
Qed.

Lemma canonical_bracket v key :
  is_name v = false -> canonical (v :: key) = canonical_tail (v :: key).
Proof. intros H. cbn [canonical canonical_tail]. by rewrite H. Qed.

Lemma name_segments_nonempty L acc n paren :
  (acc = [] ->
   forall alias, lookup_alias (VStr n) L = Some alias -> alias <> []) ->
  name_segments L acc n paren <> [].
Proof.
  intros H. unfold name_segments.
  destruct (lookup_alias (VStr n) L) as [alias|]; [|done].
  destruct (decide (acc = [])) as [E|E].
  - rewrite bool_decide_true by done. destruct paren; [done|]. by apply H.
  - by rewrite bool_decide_false.
Qed.

Lemma expand_nonempty L acc key : acc <> [] -> expand L acc key = key.
Proof.
  intros H. unfold expand, name_segments.
  destruct key as [|[| | |n| |] key]; try done.
  destruct (lookup_alias (VStr n) L); [|done].
  by rewrite bool_decide_false.
Qed.

Lemma expand_unbound L acc n key :
  lookup_alias (VStr n) L = None -> expand L acc (VStr n :: key) = VStr n :: key.
Proof. intros H. unfold expand, name_segments. by rewrite H. Qed.

Lemma leading_brackets_nonempty v key :
  is_name v = false -> leading_brackets (v :: key) <> [].
Proof. intros H. cbn [leading_brackets]. by rewrite H. Qed.

(** [Key_loop] on the canonical string of [key], after the segments
    [acc]. *)
Lemma Key_loop_canonical fuel : forall key acc L,
  forallb is_segment key = true -> key <> [] ->
  (acc = [] -> forall n key' alias, key = VStr n :: key' ->
     lookup_alias (VStr n) L = Some alias -> alias <> []) ->
  rest L = canonical key ->
  length (canonical key) < fuel ->
  Key_loop fuel acc L =
  Ok (acc ++ expand L acc key, advance (length (canonical key)) L).
Proof.
  induction fuel as [|fuel IH]; intros key acc L Hwf Hne Ha HL Hfuel; [lia|].
  destruct key as [|v key]; [done|]. clear Hne.
  (* the name of the iteration *)
  assert (exists acc1 key1 m,
    Key_name (_position L) acc L = Ok (Some acc1, advance m L) /\
    rest (advance m L) = canonical_tail key1 /\
    acc1 ++ key1 = acc ++ expand L acc (v :: key) /\
    m + length (canonical_tail key1) = length (canonical (v :: key)) /\
    forallb is_segment key1 = true /\
    acc1 ++ leading_brackets key1 <> [] /\
    exists c r, rest L = c :: r) as
    (acc1 & key1 & m & Hname & H1 & Hkey & Hlen & Hwf1 & Hacc1 & c & r & Hc).
  { pose proof Hwf as Hwf'. cbn [forallb] in Hwf'.
    apply andb_true_iff in Hwf' as [Hv Hwf'].
    destruct (is_name v) eqn:Hv'.
    - destruct v as [| | |n| |]; try discriminate.
      apply is_segment_name in Hv. cbn [canonical segment_text] in HL.
      exists (acc ++ name_segments L acc n false), key,
        (length (canonical_name n)).
      assert (name_segments L acc n false <> []) as Hns
        by (apply name_segments_nonempty; eauto).
      split_and!.
      + by apply (Key_name_canonical _ _ _ _ key).
      + by apply rest_advance.
      + cbn [expand]. by rewrite <- app_assoc.
      + cbn [canonical segment_text]. by rewrite length_app.
      + done.
      + intros E. apply app_eq_nil in E as [E _].
        by apply app_eq_nil in E as [_ E].
      + rewrite HL. pose proof (canonical_name_nonempty n Hv).
        destruct (canonical_name n); [done|]. cbn [app]. eauto.
    - rewrite canonical_bracket in HL by done.
      destruct (canonical_tail_head (v :: key)) as (c & r & Hc & Hh);
        [done..|].
      assert (c = "["%char) as ->.
      { destruct v; try discriminate; cbn in Hc; congruence. }
      rewrite Hc in HL.
      exists acc, (v :: key), 0. rewrite advance_0. split_and!.
      + by eapply Key_name_bracket.
      + by rewrite HL, Hc.
      + by destruct v.
      + by rewrite canonical_bracket.
      + done.
      + intros E. apply app_eq_nil in E as [_ E].
        by apply leading_brackets_nonempty in E.
      + eauto. }
  rewrite <- Hkey, <- Hlen. clear Hkey Ha.
  cbn [Key_loop].
  rewrite (bind_Ok _ _ _ _ _ (EndOfInput_cons _ _ _ Hc)).
  rewrite (bind_Ok _ _ _ _ _ (eq_refl : GetPosition L = Ok (_position L, L))).
  rewrite (bind_Ok _ _ _ _ _ Hname).
  destruct key1 as [|v1 key1'] eqn:Ekey1.
  { rewrite (bind_Ok _ _ _ _ _ (EndOfInput_nil _ H1)).
    cbn [canonical_tail length]. by rewrite app_nil_r, Nat.add_0_r. }
  rewrite <- Ekey1 in *.
  assert (key1 <> []) as Hne1 by (by rewrite Ekey1).
  clear Ekey1 v1 key1'.
  destruct (canonical_tail_head key1) as (c1 & r1 & Hc1 & Hh1); [done..|].
  pose proof H1 as H1'. rewrite Hc1 in H1'.
  rewrite (bind_Ok _ _ _ _ _ (EndOfInput_cons _ _ _ H1')).
  rewrite (bind_Ok _ _ _ _ _ (IsCharacter_miss _ "]" false false _ _ H1'
            ltac:(by destruct Hh1 as [-> | ->]))).
  rewrite bool_decide_false by (by intros [? ?]).
  rewrite (bind_Ok _ _ _ _ _
             (eq_refl : get_lexer (advance m L) = Ok (advance m L, advance m L))).
  assert (length (canonical_tail key1) < budget (advance m L)) as Hb.
  { pose proof (rest_length (advance m L)) as Hr. rewrite H1 in Hr.
    unfold budget. lia. }
  rewrite (bind_Ok _ _ _ _ _ (Key_brackets_canonical key1 _ acc1 _ Hwf1 H1 Hb)).
  rewrite advance_advance.
  set (lb := leading_brackets key1) in *. set (ab := after_brackets key1).
  assert (canonical_tail key1 = canonical_tail lb ++ canonical_tail ab) as Hsplit.
  { rewrite <- canonical_tail_app. f_equal. apply brackets_split. }
  assert (rest (advance (m + length (canonical_tail lb)) L) = canonical_tail ab)
    as H2.
  { rewrite <- advance_advance. apply rest_advance. by rewrite H1. }
  pose proof (is_segment_after key1 Hwf1) as Hwf2. fold ab in Hwf2.
  pose proof (brackets_split key1) as Hk. fold lb ab in Hk.
  rewrite Hsplit, length_app.
  destruct (after_brackets_name key1) as [E|(n' & k2 & E)]; fold ab in E;
    rewrite E in *.
  - rewrite (bind_Ok _ _ _ _ _ (IsCharacter_eoi _ "." false true H2 eq_refl)).
    rewrite bool_decide_false by (by intros [? ?]).
    rewrite Hk. cbn [negb canonical_tail length].
    by rewrite Nat.add_0_r, app_nil_r.
  - cbn [canonical_tail is_name segment_text list_ascii_of_string app] in H2.
    cbn [forallb] in Hwf2. apply andb_true_iff in Hwf2 as [Hn' Hwf2].
    apply is_segment_name in Hn'.
    rewrite (bind_Ok _ _ _ _ _ (IsCharacter_hit _ "." true _ _ H2 eq_refl)).
    rewrite bool_decide_true by eauto. cbn [negb].
    pose proof (rest_advance _ ["."%char] _ H2) as H3.
    rewrite advance_advance in H3. cbn [length] in H3.
    pose proof (canonical_name_nonempty n' Hn') as Hcn.
    destruct (canonical_name n' ++ canonical_tail k2) as [|c3 r3] eqn:E3.
    { by destruct (canonical_name n'). }
    rewrite advance_advance.
    rewrite (bind_Ok _ _ _ _ _ (EndOfInput_cons _ _ _ H3)).
    rewrite <- E3 in H3.
    rewrite (IH (VStr n' :: k2)); [| |done| |done|].
    + rewrite expand_nonempty by done.
      rewrite advance_advance, Hk, <- !app_assoc. f_equal. f_equal.
      cbn [canonical canonical_tail is_name segment_text
             list_ascii_of_string app length].
      apply (f_equal (fun k => advance k L)). lia.
    + cbn [forallb]. apply andb_true_iff. split; [by destruct n'|done].
    + done.
    + rewrite Hsplit, length_app in Hlen.
      cbn [canonical_tail is_name segment_text list_ascii_of_string app
             length] in Hlen.
      cbn [canonical segment_text]. lia.
Qed.

Lemma expand_no_alias L acc key :
  aliases (_defaults L) = ∅ -> expand L acc key = key.
Proof.
  intros H. destruct key as [|[| | |n| |] key]; try done.
  apply expand_unbound. by apply lookup_alias_empty.
Qed.

Lemma is_segment_renderable key :
  forallb is_segment key = true -> forallb renderable key = true.
Proof. apply forallb_impl. by intros []. Qed.

Lemma Key_canonical key :
  forallb is_segment key = true -> parses (canonical key) key.
Proof.
  intros Hwf. unfold parses.
  destruct (decide (key = [])) as [->|Hne].
  { eexists. split; [vm_compute; reflexivity|reflexivity]. }
  exists (advance (length (canonical key)) (lexer (canonical key))).
  split; [|done]. unfold Key.
  rewrite (bind_Ok _ _ _ _ _
             (eq_refl : get_lexer (lexer (canonical key)) = Ok (_, _))).
  rewrite (Key_loop_canonical _ key);
    [by rewrite expand_no_alias|done|done| |done|unfold budget; simpl; lia].
  intros _ n key' alias _ Hl. by rewrite lookup_alias_empty in Hl.
Qed.


(** * [Key] on the key strings of the grammar *)

Lemma key_string_cons s segs :
  key_string (s :: segs) =
  segment_string s ++ flat_map (fun s => "."%char :: segment_string s) segs.
Proof.
  unfold key_string. revert s.
  induction segs as [|s2 segs IH]; intros s.
  - cbn [map join flat_map]. by rewrite app_nil_r.
  - change (map segment_string (s :: s2 :: segs))
      with (segment_string s :: map segment_string (s2 :: segs)).
    cbn [join]. rewrite IH. by destruct segs.
Qed.

Lemma bracket_string_head b : exists r, bracket_string b = "["%char :: r.
Proof. destruct b; cbn; eauto. Qed.

Lemma brackets_head bs t :
  (t = [] \/ exists r, t = "."%char :: r) ->
  flat_map bracket_string bs ++ t = [] \/
  exists c r, flat_map bracket_string bs ++ t = c :: r /\
              (c = "["%char \/ c = "."%char).
Proof.
  intros Ht. destruct bs as [|b bs].
  - destruct Ht as [->|(r & ->)]; [by left|right; cbn; eauto].
  - right. cbn [flat_map]. destruct (bracket_string_head b) as (r & ->).
    cbn. eauto.
Qed.

Lemma dots_head segs :
  flat_map (fun s => "."%char :: segment_string s) segs = [] \/
  exists r, flat_map (fun s => "."%char :: segment_string s) segs =
            "."%char :: r.
Proof. destruct segs; [by left|right; cbn; eauto]. Qed.

Lemma brackets_length bs :
  length bs <= length (flat_map bracket_string bs).
Proof.
  induction bs as [|b bs IH]; [done|]. cbn [flat_map].
  destruct (bracket_string_head b) as (r & ->).
  rewrite length_app. cbn [length]. lia.
Qed.

Lemma dots_length segs :
  length segs <=
  length (flat_map (fun s => "."%char :: segment_string s) segs).
Proof.
  induction segs as [|s segs IH]; [done|]. cbn [flat_map length app].
  rewrite length_app. lia.
Qed.

Lemma well_formed_inv s :
  well_formed s = true ->
  seg_name s <> [] /\
  (seg_quoted s = false ->
   forallb (plain _RESERVED_OPERATOR_CHARS) (seg_name s) = true) /\
  forallb (fun b => from_option is_index true b) (seg_brackets s) = true.
Proof.
  unfold well_formed. rewrite !andb_true_iff, negb_true_iff.
  intros [[[Hn _] Hq] Hb]. apply bool_decide_eq_false in Hn.
  split_and!; [done| |done]. intros E. by rewrite E in Hq.
Qed.

Lemma name_string_nonempty q n : n <> [] -> name_string q n <> [].
Proof. by destruct q, n. Qed.

Lemma EndOfInput_app L a b :
  a <> [] -> rest L = a ++ b -> EndOfInput None L = Ok (false, L).
Proof.
  intros Ha HL. destruct a as [|c a]; [done|]. by eapply EndOfInput_cons.
Qed.

(** [Token] on a name of the grammar, bare or between double quotes. *)
Lemma Token_scan_spelled L q n r :
  n <> [] ->
  (q = false -> forallb (plain _RESERVED_OPERATOR_CHARS) n = true) ->
  at_terminator _RESERVED_OPERATOR_CHARS r = true ->
  rest L = name_string q n ++ r ->
  Token_scan _RESERVED_OPERATOR_CHARS false L =
  {| scan_i := _position L + length (name_string q n); scan_quote := None;
     scan_quoted := q; scan_token := Some n |}.
Proof.
  intros Hn Hq Hr HL. unfold Token_scan. fold (rest L). rewrite HL.
  unfold name_string, double_quoted. destruct q.
  - rewrite <- !app_assoc. cbn [list_ascii_of_string app].
    rewrite Token_loop_noesc by done.
    rewrite Token_char_open by done. cbv beta iota.
    unfold append. cbn [default app].
    rewrite Token_loop_quoted. rewrite Token_loop_stop by done.
    cbn [length app]. rewrite length_app. cbn [length].
    f_equal. lia.
  - rewrite Token_loop_plain by auto.
    rewrite Token_loop_stop by done. by destruct n.
Qed.

(** The name of an iteration, in front of a name of the grammar, when no
    alias is bound. *)
Lemma Key_name_spelled L here acc q n r :
  n <> [] ->
  (q = false -> forallb (plain _RESERVED_OPERATOR_CHARS) n = true) ->
  at_terminator _RESERVED_OPERATOR_CHARS r = true ->
  aliases (_defaults L) = ∅ ->
  rest L = name_string q n ++ r ->
  Key_name here acc L =
  Ok (Some (acc ++ [VStr n]), advance (length (name_string q n)) L).
Proof.
  intros Hn Hq Hr Hal HL. unfold Key_name.
  pose proof (Token_scan_spelled L q n r Hn Hq Hr HL) as Hs.
  rewrite (bind_Ok _ _ _ _ _ (Token_returns _ _ false _ _ _ _ Hs)).
  cbn [convert_token andb]. rewrite truthy_name by done.
  rewrite (bind_Ok _ _ _ _ _ (IsCharacter_peek_paren _)).
  unfold mbind, M_bind, get_lexer.
  change (lookup_alias (VStr n) (advance (length (name_string q n)) L))
    with (lookup_alias (VStr n) L).
  by rewrite lookup_alias_empty.
Qed.

(** [Token] between brackets, on the text of an index. *)
Lemma Token_bracket L d r :
  d <> [] -> forallb (plain "]") d = true ->
  rest L = d ++ "]"%char :: r ->
  Token "]" false true true L =
  Ok (bracket_value (Some d), advance (length d) L).
Proof.
  intros Hd Hp HL.
  assert (Token_scan "]" false L =
          {| scan_i := _position L + length d; scan_quote := None;
             scan_quoted := false; scan_token := Some d |}) as Hs.
  { unfold Token_scan. fold (rest L). rewrite HL.
    rewrite Token_loop_plain by done.
    rewrite Token_loop_stop by done. by destruct d. }
  rewrite (Token_returns_space _ _ _ _ _ _ _ Hs); [done|].
  by rewrite (rest_advance _ _ _ HL).
Qed.

Lemma is_index_inv d :
  is_index d = true ->
  d <> [] /\ forallb (plain "]") d = true /\
  exists z, py_int d = Some z /\ bracket_value (Some d) = VInt z.
Proof.
  unfold is_index. rewrite andb_true_iff.
  intros [Hp [z Hz]%bool_decide_eq_true].
  assert (d <> []) as Hd by (intros ->; discriminate).
  split_and!; [done..|]. exists z. split; [done|].
  unfold bracket_value, convert_token. rewrite Hz. by destruct d.
Qed.

(** The bracketed suffixes of a segment. *)
Lemma Key_brackets_run bs : forall fuel acc L t,
  forallb (fun b => from_option is_index true b) bs = true ->
  (t = [] \/ exists r, t = "."%char :: r) ->
  rest L = flat_map bracket_string bs ++ t ->
  length bs < fuel ->
  Key_brackets fuel acc L =
  Ok (acc ++ map bracket_value bs,
      advance (length (flat_map bracket_string bs)) L).
Proof.
  induction bs as [|b bs IH]; intros fuel acc L t Hwf Ht HL Hfuel;
    (destruct fuel as [|fuel]; [simpl in Hfuel; lia|]); cbn [Key_brackets].
  - cbn [flat_map app] in HL.
    assert (IsCharacter "[" false true L = Ok (None, L)) as Hc.
    { destruct Ht as [->|(r & ->)].
      - by apply IsCharacter_eoi.
      - by eapply IsCharacter_miss. }
    rewrite (bind_Ok _ _ _ _ _ Hc).
    rewrite bool_decide_false by (by intros [? ?]).
    cbn [map flat_map length]. by rewrite app_nil_r, advance_0.
  - cbn [forallb] in Hwf. apply andb_true_iff in Hwf as [Hb Hwf].
    cbn [flat_map map] in *. rewrite <- app_assoc in HL.
    set (u := flat_map bracket_string bs ++ t) in *.
    assert (exists m v,
      rest L = "["%char :: rest (advance 1 L) /\
      Token "]" false true true (advance 1 L) =
        Ok (v, advance m (advance 1 L)) /\
      v = bracket_value b /\
      rest (advance m (advance 1 L)) = "]"%char :: u /\
      length (bracket_string b) = 1 + m + 1) as
      (m & v & H0 & Htok & -> & H2 & Hlen).
    { destruct b as [d|]; cbn [bracket_string] in *.
      - cbn [from_option] in Hb.
        apply is_index_inv in Hb as (Hd & Hp & _).
        cbn [list_ascii_of_string app] in HL. rewrite <- app_assoc in HL.
        cbn [list_ascii_of_string app] in HL.
        pose proof (rest_advance L ["["%char] _ HL) as H1.
        cbn [length] in H1.
        exists (length d), (bracket_value (Some d)). split_and!.
        + by rewrite H1.
        + by apply (Token_bracket _ d u).
        + done.
        + by apply rest_advance.
        + cbn [list_ascii_of_string app length]. rewrite length_app.
          cbn [length]. lia.
      - cbn [list_ascii_of_string app] in HL.
        pose proof (rest_advance L ["["%char] _ HL) as H1.
        cbn [length] in H1.
        exists 0, VNone. rewrite advance_0. split_and!.
        + by rewrite H1.
        + by apply (Token_slice _ u).
        + done.
        + done.
        + done. }
    rewrite (bind_Ok _ _ _ _ _ (IsCharacter_hit _ "[" true _ _ H0 eq_refl)).
    rewrite bool_decide_true by eauto.
    rewrite (bind_Ok _ _ _ _ _ Htok).
    rewrite (bind_Ok _ _ _ _ _ (IsCharacter_hit _ "]" false _ _ H2 eq_refl)).
    pose proof (rest_advance _ ["]"%char] _ H2) as H3. cbn [length] in H3.
    cbn [length] in Hfuel. rewrite (IH fuel _ _ t Hwf Ht H3) by lia.
    rewrite !advance_advance, <- app_assoc. cbn [app].
    rewrite length_app, Hlen. do 2 f_equal.
    apply (f_equal (fun k => advance k L)). lia.
Qed.

(** The loop of [Key] on the segments of a key string, one iteration for
    each segment. *)
Lemma Key_loop_segments fuel : forall s segs acc L,
  forallb well_formed (s :: segs) = true ->
  aliases (_defaults L) = ∅ ->
  rest L = key_string (s :: segs) ->
  length segs < fuel ->
  Key_loop fuel acc L =
  Ok (acc ++ key_path (s :: segs),
      advance (length (key_string (s :: segs))) L).
Proof.
  induction fuel as [|fuel IH]; intros s segs acc L Hwf Hal HL Hfuel; [lia|].
  cbn [forallb] in Hwf. apply andb_true_iff in Hwf as [Hs Hwf].
  destruct (well_formed_inv s Hs) as (Hn & Hq & Hbs).
  rewrite key_string_cons in *.
  set (t := flat_map (fun s => "."%char :: segment_string s) segs) in *.
  unfold segment_string in HL |- *. rewrite <- app_assoc in HL.
  set (nm := name_string (seg_quoted s) (seg_name s)) in *.
  set (bs := seg_brackets s) in *.
  set (bt := flat_map bracket_string bs) in *.
  assert (nm <> []) as Hnm by (by apply name_string_nonempty).
  pose proof (dots_head segs) as Ht. fold t in Ht.
  pose proof (brackets_head bs t Ht) as Hbt. fold bt in Hbt.
  assert (at_terminator _RESERVED_OPERATOR_CHARS (bt ++ t) = true) as Hterm.
  { destruct Hbt as [->|(c & r & -> & [->| ->])]; done. }
  cbn [Key_loop].
  rewrite (bind_Ok _ _ _ _ _ (EndOfInput_app _ _ _ Hnm HL)).
  rewrite (bind_Ok _ _ _ _ _ (eq_refl : GetPosition L = Ok (_position L, L))).
  rewrite (bind_Ok _ _ _ _ _
             (Key_name_spelled L _ acc _ _ _ Hn Hq Hterm Hal HL)).
  fold nm. pose proof (rest_advance _ _ _ HL) as H1.
  cbn [key_path flat_map]. unfold segment_path at 1. fold bs.
  fold (key_path segs).
  destruct Hbt as [E|(c & r & E & Hc)].
  { rewrite E in H1. rewrite (bind_Ok _ _ _ _ _ (EndOfInput_nil _ H1)).
    apply app_eq_nil in E as [Eb Et].
    assert (bs = []) as -> by (pose proof (brackets_length bs) as Hl;
      fold bt in Hl; rewrite Eb in Hl; destruct bs; [done|simpl in Hl; lia]).
    assert (segs = []) as -> by (pose proof (dots_length segs) as Hl;
      fold t in Hl; rewrite Et in Hl; destruct segs; [done|simpl in Hl; lia]).
    rewrite Eb, Et, !app_nil_r. by cbn. }
  pose proof H1 as H1'. rewrite E in H1'.
  rewrite (bind_Ok _ _ _ _ _ (EndOfInput_cons _ _ _ H1')).
  rewrite (bind_Ok _ _ _ _ _ (IsCharacter_miss _ "]" false false _ _ H1'
            ltac:(by destruct Hc as [-> | ->]))).
  rewrite bool_decide_false by (by intros [? ?]).
  rewrite (bind_Ok _ _ _ _ _
             (eq_refl : get_lexer (advance (length nm) L) =
                        Ok (advance (length nm) L, advance (length nm) L))).
  assert (length bs < budget (advance (length nm) L)) as Hb.
  { pose proof (rest_length (advance (length nm) L)) as Hr.
    rewrite H1, length_app in Hr. pose proof (brackets_length bs) as Hl.
    fold bt in Hl. unfold budget. lia. }
  rewrite (bind_Ok _ _ _ _ _ (Key_brackets_run bs _ _ _ t Hbs Ht H1 Hb)).
  fold bt. rewrite advance_advance.
  pose proof (rest_advance _ _ _ H1) as H2. rewrite advance_advance in H2.
  destruct segs as [|s2 segs].
  - rewrite (bind_Ok _ _ _ _ _ (IsCharacter_eoi _ "." false true H2 eq_refl)).
    rewrite bool_decide_false by (by intros [? ?]). cbn [negb].
    unfold mret, M_ret. cbn [key_path flat_map].
    rewrite !app_nil_r, <- app_assoc, length_app. by cbn [app].
  - cbn [flat_map] in t. change t with
      ("."%char :: segment_string s2 ++
         flat_map (fun s => "."%char :: segment_string s) segs) in H2.
    rewrite <- key_string_cons in H2.
    rewrite (bind_Ok _ _ _ _ _ (IsCharacter_hit _ "." true _ _ H2 eq_refl)).
    rewrite bool_decide_true by eauto. cbn [negb].
    pose proof (rest_advance _ ["."%char] _ H2) as H3.
    rewrite advance_advance in H3. cbn [length] in H3.
    rewrite advance_advance.
    assert (exists c3 r3, key_string (s2 :: segs) = c3 :: r3) as (c3 & r3 & E3).
    { rewrite key_string_cons. unfold segment_string.
      cbn [forallb] in Hwf. apply andb_true_iff in Hwf as [Hs2 _].
      destruct (well_formed_inv s2 Hs2) as (Hn2 & _).
      pose proof (name_string_nonempty (seg_quoted s2) _ Hn2) as Hne.
      destruct (name_string (seg_quoted s2) (seg_name s2)); [done|].
      cbn [app]. eauto. }
    pose proof H3 as H3'. rewrite E3 in H3'.
    rewrite (bind_Ok _ _ _ _ _ (EndOfInput_cons _ _ _ H3')).
    rewrite (IH s2 segs _ (advance (length nm + length bt + 1) L) Hwf Hal H3)
      by (cbn [length] in Hfuel; lia).
    rewrite advance_advance, <- !app_assoc. cbn [app]. f_equal. f_equal.
    apply (f_equal (fun k => advance k L)).
    subst t. rewrite key_string_cons, !length_app. cbn [length].
    rewrite ?length_app. lia.
Qed.

(** [Key] on a key string of the grammar returns the key path that the
    string stands for, and reads the string to its end. *)
Lemma Key_segments L s segs :
  forallb well_formed (s :: segs) = true ->
  aliases (_defaults L) = ∅ ->
  rest L = key_string (s :: segs) ->
  Key L = Ok (key_path (s :: segs),
              advance (length (key_string (s :: segs))) L).
Proof.
  intros Hwf Hal HL. unfold Key.
  rewrite (bind_Ok _ _ _ _ _ (eq_refl : get_lexer L = Ok (L, L))).
  rewrite (Key_loop_segments _ s segs [] L Hwf Hal HL); [done|].
  pose proof (rest_length L) as Hr. rewrite HL, key_string_cons in Hr.
  rewrite length_app in Hr. pose proof (dots_length segs). unfold budget. lia.
Qed.

(** The key path of well-formed segments has names, integers and [None]
    only, and its canonical string is the key string of the canonical
    segments. *)
Lemma bracket_value_index b :
  from_option is_index true b = true ->
  is_segment (bracket_value b) = true /\
  is_name (bracket_value b) = false /\
  segment_text (bracket_value b) = bracket_string (decimal_bracket b).
Proof.
  destruct b as [d|]; [|done]. cbn [from_option]. intros Hd.
  apply is_index_inv in Hd as (_ & _ & z & _ & Hz).
  unfold decimal_bracket. by rewrite Hz.
Qed.

Lemma key_path_segments segs :
  forallb well_formed segs = true -> forallb is_segment (key_path segs) = true.
Proof.
  induction segs as [|s segs IH]; [done|]. cbn [forallb key_path flat_map].
  rewrite andb_true_iff. intros [Hs Hwf]. fold (key_path segs).
  destruct (well_formed_inv s Hs) as (Hn & _ & Hbs).
  unfold segment_path. cbn [app forallb]. rewrite forallb_app.
  rewrite !andb_true_iff. split_and!; [by destruct (seg_name s)| |by apply IH].
  clear -Hbs. induction (seg_brackets s) as [|b bs IHb]; [done|].
  cbn [forallb map] in *. apply andb_true_iff in Hbs as [Hb Hbs].
  apply andb_true_iff. split; [by apply bracket_value_index|by apply IHb].
Qed.

Lemma canonical_tail_brackets bs :
  forallb (fun b => from_option is_index true b) bs = true ->
  canonical_tail (map bracket_value bs) =
  flat_map bracket_string (map decimal_bracket bs).
Proof.
  induction bs as [|b bs IH]; [done|]. cbn [forallb map flat_map canonical_tail].
  rewrite andb_true_iff. intros [Hb Hbs].
  destruct (bracket_value_index b Hb) as (_ & -> & ->). by rewrite IH.
Qed.

Lemma canonical_tail_key_path segs :
  forallb well_formed segs = true ->
  canonical_tail (key_path segs) =
  flat_map (fun s => "."%char :: segment_string s) (map canonical_segment segs).
Proof.
  induction segs as [|s segs IH]; [done|]. cbn [forallb key_path flat_map map].
  rewrite andb_true_iff. intros [Hs Hwf]. fold (key_path segs).
  destruct (well_formed_inv s Hs) as (_ & _ & Hbs).
  unfold segment_path. cbn [app canonical_tail is_name segment_text].
  rewrite canonical_tail_app, canonical_tail_brackets, IH by done.
  unfold segment_string, canonical_segment, name_string, canonical_name.
  cbn [seg_name seg_quoted seg_brackets list_ascii_of_string app].
  rewrite <- app_assoc. by destruct (forallb isword (seg_name s)).
Qed.

Lemma canonical_key_path s segs :
  forallb well_formed (s :: segs) = true ->
  canonical (key_path (s :: segs)) =
  key_string (map canonical_segment (s :: segs)).
Proof.
  cbn [forallb key_path flat_map map]. rewrite andb_true_iff.
  intros [Hs Hwf]. fold (key_path segs).
  destruct (well_formed_inv s Hs) as (_ & _ & Hbs).
  rewrite key_string_cons. unfold segment_path. cbn [app canonical segment_text].
  rewrite canonical_tail_app, canonical_tail_brackets, canonical_tail_key_path
    by done.
  unfold segment_string, canonical_segment, name_string, canonical_name.
  cbn [seg_name seg_quoted seg_brackets].
  rewrite <- app_assoc. by destruct (forallb isword (seg_name s)).
Qed.

Lemma canonical_segment_decimal segs :
  forallb decimal_indices segs = true ->
  map canonical_segment segs = map requoted segs.
Proof.
  induction segs as [|s segs IH]; [done|]. cbn [forallb map].
  rewrite andb_true_iff. intros [Hs Hd]. rewrite IH by done. f_equal.
  unfold canonical_segment, requoted. f_equal.
  unfold decimal_indices in Hs.
  induction (seg_brackets s) as [|b bs IHb]; [done|].
  cbn [forallb map] in *. apply andb_true_iff in Hs as [Hb Hs].
  apply bool_decide_eq_true in Hb. by rewrite Hb, IHb.
Qed.

(** * [Evaluate] *)

Lemma Evaluate_loop_running transforms obj self :
  Evaluate_loop transforms obj self = Ok (running transforms obj, self).
Proof.
  revert obj. induction transforms as [|t transforms IH]; intros obj; [done|].
  cbn [Evaluate_loop running fold_left]. apply IH.
Qed.

Lemma Evaluate_running obj self :
  Evaluate obj self = Ok (running (_transforms self) obj, self).
Proof. unfold Evaluate. cbn. apply Evaluate_loop_running. Qed.

Lemma Evaluate_step_mapped transform obj :
  mapped transform = true ->
  Evaluate_step transform obj = mapped_step transform obj.
Proof.
  intros H. unfold Evaluate_step, mapped_step. rewrite H.
  destruct obj; cbn [IsListLike andb negb]; by rewrite ?orb_false_r.
Qed.

Lemma Evaluate_step_subject transform obj :
  restriction transform = false ->
  Evaluate_step transform obj = subject_step transform obj.
Proof. intros H. unfold Evaluate_step, subject_step. by rewrite H. Qed.

(** * [Transform] *)

(** [Annotate] returns the annotated string without moving the cursor,
    or raises [IndexError]; it returns for every position within the
    expression. *)
Lemma annotated_cases here e :
  (exists a, annotated here e = Ok a) \/ annotated here e = Raise IndexError.
Proof.
  unfold annotated. destruct here as [|before]; [by eauto|].
  destruct (e !! before); by eauto.
Qed.

Lemma annotated_within here e :
  here <= length e -> exists a, annotated here e = Ok a.
Proof.
  intros Hle. unfold annotated. destruct here as [|before]; [by eauto|].
  destruct (lookup_lt_is_Some_2 e before ltac:(lia)) as [c ->]. by eauto.
Qed.

Lemma Annotate_cases position L :
  Annotate position L = Ok (annotate position L, L) \/
  Annotate position L = Raise IndexError.
Proof.
  unfold Annotate, annotate.
  destruct (annotated_cases (default (_position L) position) (_expr L))
    as [[a ->]| ->]; by auto.
Qed.

Lemma Annotate_within position L :
  default (_position L) position <= length (_expr L) ->
  Annotate position L = Ok (annotate position L, L).
Proof.
  intros Hle. unfold Annotate, annotate.
  by destruct (annotated_within _ _ Hle) as [a ->].
Qed.

Lemma annotate_set_position p n L :
  annotate (Some p) (set_position n L) = annotate (Some p) L.
Proof. reflexivity. Qed.

Lemma syntax_error_within {A} msg position L :
  default (_position L) position <= length (_expr L) ->
  syntax_error (A := A) msg position L =
  Raise (ExpressionSyntaxError msg (annotate position L)).
Proof.
  intros Hle. unfold syntax_error, mbind, M_bind.
  by rewrite Annotate_within.
Qed.

Lemma syntax_error_bind {A B} msg position (k : A -> M B) L :
  (syntax_error msg position ≫= k) L = syntax_error msg position L.
Proof.
  unfold syntax_error, mbind, M_bind.
  by destruct (Annotate_cases position L) as [-> | ->].
Qed.

Lemma rest_within L c r : rest L = c :: r -> _position L < length (_expr L).
Proof.
  intros H. pose proof (rest_length L) as Hl. rewrite H in Hl.
  simpl in Hl. lia.
Qed.

Lemma syntax_error_raises {A} msg position L r :
  syntax_error (A := A) msg position L = Ok r -> False.
Proof.
  unfold syntax_error, mbind at 1, M_bind at 1.
  by destruct (Annotate_cases position L) as [-> | ->].
Qed.

Lemma _ParseTransform_restriction PAD func_name active mt restr L t L' :
  _ParseTransform PAD func_name active mt restr L = Ok (t, L') ->
  restriction t = restr.
Proof.
  unfold _ParseTransform. intros H.
  apply bind_inv in H as (here & L1 & _ & H).
  apply bind_inv in H as (L2 & L3 & _ & H).
  destruct (lookup_symbol func_name L2) as [[n f]|];
    [|by apply syntax_error_raises in H].
  apply bind_inv in H as ([a k] & L4 & _ & H).
  by injection H as <- _.
Qed.

Section Transform_invariant.

Variable PAD : str.
Variables TransformAlways TransformMap TransformIf : pyfunc.

Let unrestricted := Forall (fun t => restriction t = false).

Lemma Transform_loop_restriction fuel : forall func_name active restr here
    calls mt L chain L',
  Transform_loop PAD TransformAlways TransformMap TransformIf fuel func_name
    active restr here calls mt L = Ok (chain, L') ->
  exists new,
    _transforms chain = _transforms calls ++ new /\
    unrestricted (tail new) /\
    (restr = false -> unrestricted new).
Proof.
  induction fuel as [|fuel IH]; intros func_name active restr here calls mt
    L chain L' H; [done|].
  cbn [Transform_loop] in H.
  apply bind_inv in H as (t & L1 & Hparse & H).
  apply _ParseTransform_restriction in Hparse.
  apply bind_inv in H as ([[[fn' active'] mt'] calls'] & L2 & Hcase & H).
  assert (_transforms calls' = _transforms calls \/
          _transforms calls' = _transforms calls ++ [t]) as Hcalls.
  { unfold on_calls, SetConditional, Add, mbind, M_bind, mret, M_ret in Hcase.
    destruct (func_eqb (func t) TransformAlways);
      [cbv beta in Hcase; simplify_eq; by left|].
    destruct (func_eqb (func t) TransformMap);
      [cbv beta in Hcase; simplify_eq; by left|].
    destruct (func_eqb (func t) TransformIf).
    - destruct (args t) as [|expr [|? ?]];
        [by apply syntax_error_raises in Hcase| |
         by apply syntax_error_raises in Hcase].
      cbv beta in Hcase. simplify_eq. by left.
    - cbv beta in Hcase. simplify_eq. by right. }
  assert (exists new', _transforms chain = _transforms calls' ++ new' /\
                       unrestricted new') as (new' & Hchain & Hnew').
  { apply bind_inv in H as (dot & L3 & _ & H).
    destruct (negb (bool_decide (is_Some dot))).
    - injection H as <- _. exists []. rewrite app_nil_r.
      split; [done|constructor].
    - apply bind_inv in H as (key & L4 & _ & H).
      apply bind_inv in H as (here' & L5 & _ & H).
      apply bind_inv in H as (paren & L6 & _ & H).
      destruct (negb (bool_decide (is_Some paren)));
        [by apply syntax_error_raises in H|].
      destruct key as [|fn'' [|? ?]].
      + destruct (join_key []); [by apply syntax_error_raises in H|done].
      + apply IH in H as (new' & ? & _ & Hall). exists new'. auto.
      + destruct (join_key _); [by apply syntax_error_raises in H|done]. }
  destruct Hcalls as [Hc|Hc]; rewrite Hc in Hchain.
  - exists new'. split_and!; [done| |done].
    destruct new'; [done|]. by inversion Hnew'.
  - exists (t :: new'). rewrite <- app_assoc in Hchain. split_and!; [done..|].
    intros ->. by constructor.
Qed.

End Transform_invariant.

(** * Aliases *)




Lemma Key_brackets_miss fuel acc L c r :
  rest L = c :: r -> char_in c "[" = false ->
  Key_brackets (S fuel) acc L = Ok (acc, L).
Proof.
  intros HL Hc. cbn [Key_brackets].
  rewrite (bind_Ok _ _ _ _ _ (IsCharacter_miss L "[" false true _ _ HL Hc)).
  by rewrite bool_decide_false by (by intros [? ?]).
Qed.

(** A name that is followed by a parenthesis is the name of a function:
    it is kept, bound or not, and the cursor stops at the parenthesis. *)
Lemma Key_function_name (d : ProjectionSpec) n r :
  n <> [] ->
  returned_at (Key (Lexer_init (canonical_name n ++ "("%char :: r) (Some d))) =
  Ok ([VStr n], length (canonical_name n)).
Proof.
  intros Hn. unfold Key.
  set (L := Lexer_init (canonical_name n ++ "("%char :: r) (Some d)).
  rewrite (bind_Ok _ _ _ _ _ (eq_refl : get_lexer L = Ok (L, L))).
  assert (rest L = canonical_name n ++ "("%char :: r) as HL by done.
  pose proof (canonical_name_nonempty n Hn) as Hcn.
  assert (exists c r', rest L = c :: r') as (c & r' & Hc).
  { rewrite HL. destruct (canonical_name n); [done|]. cbn [app]. eauto. }
  unfold budget. cbn [Key_loop].
  rewrite (bind_Ok _ _ _ _ _ (EndOfInput_cons _ _ _ Hc)).
  rewrite (bind_Ok _ _ _ _ _ (eq_refl : GetPosition L = Ok (_position L, L))).
  rewrite (bind_Ok _ _ _ _ _
             (Key_name_token L _ [] n ("("%char :: r) Hn eq_refl HL)).
  pose proof (rest_advance _ _ _ HL) as H1.
  rewrite (bind_Ok _ _ _ _ _ (EndOfInput_cons _ _ _ H1)).
  rewrite (bind_Ok _ _ _ _ _ (IsCharacter_miss _ "]" false false _ _ H1 eq_refl)).
  rewrite bool_decide_false by (by intros [? ?]).
  unfold name_segments. cbn [starts_with_paren]. rewrite Ascii.eqb_refl.
  rewrite andb_false_r.
  set (ns := match lookup_alias (VStr n) L with
             | Some _ => [VStr n] | None => [VStr n] end).
  assert (ns = [VStr n]) as -> by (unfold ns; by destruct (lookup_alias _ _)).
  set (L1 := advance (length (canonical_name n)) L) in *.
  rewrite (bind_Ok _ _ _ _ _ (eq_refl : get_lexer L1 = Ok (L1, L1))).
  unfold budget.
  rewrite (bind_Ok _ _ _ _ _ (Key_brackets_miss _ _ _ _ _ H1 eq_refl)).
  rewrite (bind_Ok _ _ _ _ _ (IsCharacter_miss _ "." false true _ _ H1 eq_refl)).
  by rewrite bool_decide_false by (by intros [? ?]).
Qed.

(** * The keys that [Key] returns *)

Lemma EndOfInput_inv L b L' :
  EndOfInput None L = Ok (b, L') ->
  L' = L /\ (b = true <-> rest L = []).
Proof.
  unfold EndOfInput. cbn [default]. intros [= <- <-]. split; [done|].
  pose proof (rest_length L) as Hl. rewrite Nat.leb_le.
  split.
  - intros H. apply length_zero_iff_nil. lia.
  - intros H. rewrite H in Hl. simpl in Hl. unfold rest, rest_from in H.
    by apply drop_nil_inv in H.
Qed.

Lemma IsCharacter_inv L characters peek eoi_ok o L' :
  IsCharacter characters peek eoi_ok L = Ok (o, L') ->
  match o with
  | None =>
      L' = L /\
      forall c r, rest L = c :: r -> char_in c characters = false
  | Some c =>
      exists r, rest L = c :: r /\ char_in c characters = true /\
                L' = if peek then L else advance 1 L
  end.
Proof.
  unfold IsCharacter. fold (rest L). destruct (rest L) as [|c r].
  - destruct (peek || eoi_ok); [by intros [= <- <-]|].
    intros H. by apply syntax_error_raises in H.
  - destruct (char_in c characters) eqn:Hc; cbn [negb].
    + destruct peek; cbn [negb]; intros [= <- <-]; exists r;
        split_and!; try done.
      unfold advance. by rewrite Nat.add_1_r.
    + intros [= <- <-]. split; [done|]. by intros ? ? [= <- <-].
Qed.

Lemma Key_brackets_length fuel : forall acc L acc' L',
  Key_brackets fuel acc L = Ok (acc', L') ->
  length acc <= length acc' /\
  (forall r, rest L = "["%char :: r -> length acc < length acc').
Proof.
  induction fuel as [|fuel IH]; intros acc L acc' L' H; [done|].
  cbn [Key_brackets] in H.
  apply bind_inv in H as (open & L1 & Hopen & H).
  apply IsCharacter_inv in Hopen.
  destruct open as [c|].
  - rewrite bool_decide_true in H by eauto.
    apply bind_inv in H as (index & L2 & _ & H).
    apply bind_inv in H as (close & L3 & _ & H).
    apply IH in H as [H _]. rewrite length_app in H. simpl in H.
    split; [lia|]. intros. lia.
  - rewrite bool_decide_false in H by (by intros [? ?]).
    injection H as <- <-. destruct Hopen as [-> Hmiss]. split; [done|].
    intros r Hr. by apply Hmiss in Hr.
Qed.

Lemma char_in_single c d : char_in c [d] = true -> c = d.
Proof.
  unfold char_in. cbn [existsb]. rewrite orb_false_r.
  by intros ?%Ascii.eqb_eq.
Qed.

Lemma SkipSpace_defaults L b L' :
  SkipSpace None L = Ok (b, L') -> _defaults L' = _defaults L.
Proof. unfold SkipSpace. by destruct (Nat.ltb _ _); intros [= <- <-]. Qed.

Lemma Token_defaults T bp space convert L v L' :
  Token T bp space convert L = Ok (v, L') -> _defaults L' = _defaults L.
Proof.
  unfold Token. intros H.
  apply bind_inv in H as (L0 & L1 & [= <- <-] & H).
  destruct (scan_quote _); [by apply syntax_error_raises in H|].
  apply bind_inv in H as ([] & L1 & [= <-] & H).
  apply bind_inv in H as (b & L2 & Hs & [= <- <-]).
  destruct space; [by apply SkipSpace_defaults in Hs|].
  by injection Hs as <- <-.
Qed.

Lemma lookup_alias_defaults v L L' :
  _defaults L' = _defaults L -> lookup_alias v L' = lookup_alias v L.
Proof. intros H. unfold lookup_alias. by rewrite H. Qed.

Lemma lookup_alias_nonempty v L alias :
  no_empty_alias (_defaults L) -> lookup_alias v L = Some alias ->
  alias <> [].
Proof. intros Hd. destruct v; try done. apply Hd. Qed.

(** What [Key_name] returns: the dot of the whole resource, or a key
    that is only empty in front of a bracket. *)
Lemma Key_name_inv here acc L step L' :
  Key_name here acc L = Ok (step, L') ->
  match step with
  | None =>
      acc = [] /\
      exists name L0,
        Token _RESERVED_OPERATOR_CHARS false false false L = Ok (name, L0) /\
        truthy name = false /\
        rest L0 = "."%char :: rest L' /\ at_operator (rest L') = true
  | Some acc1 =>
      length acc <= length acc1 /\
      (no_empty_alias (_defaults L) -> acc1 = [] ->
       exists r, rest L' = "["%char :: r)
  end.
Proof.
  unfold Key_name. intros H.
  apply bind_inv in H as (name & L1 & Htok' & H).
  pose proof (Token_defaults _ _ _ _ _ _ _ Htok') as Htok.
  destruct (truthy name) eqn:Hname.
  - apply bind_inv in H as (paren & L2 & Hp & H).
    apply IsCharacter_inv in Hp.
    assert (L2 = L1) as -> by (destruct paren; [by destruct Hp as (? & _ & _ & ->)|by destruct Hp]).
    apply bind_inv in H as (L3 & L4 & [= <- <-] & H).
    assert (step = Some (acc ++ [name]) \/
            exists alias, lookup_alias name L1 = Some alias /\
                          step = Some (acc ++ alias)) as [->|(alias & Hl & ->)].
    { destruct (lookup_alias name L1) as [alias|];
        [|injection H as <- _; by left].
      destruct (_ && _); injection H as <- _; eauto. }
    + rewrite length_app. split; [lia|]. intros _ E. by destruct acc.
    + rewrite length_app. split; [lia|]. intros Hd E.
      apply app_eq_nil in E as [_ ->].
      rewrite (lookup_alias_defaults _ _ _ Htok) in Hl.
      by apply lookup_alias_nonempty in Hl.
  - apply bind_inv in H as (bracket & L2 & Hb & H).
    apply IsCharacter_inv in Hb.
    destruct bracket as [c|].
    + rewrite bool_decide_true in H by eauto. cbn [negb] in H.
      injection H as <- <-. destruct Hb as (r & Hr & Hc & ->).
      apply char_in_single in Hc as ->. split; [done|]. eauto.
    + rewrite bool_decide_false in H by (by intros [? ?]). cbn [negb] in H.
      destruct Hb as [-> _].
      apply bind_inv in H as (dot & L3 & Hdot & H).
      apply bind_inv in H as (whole & L4 & Hwhole & H).
      destruct whole; [|by apply syntax_error_raises in H].
      injection H as <- <-.
      destruct dot as [c|];
        [|rewrite bool_decide_false in Hwhole by (by intros [? ?]); done].
      rewrite bool_decide_true in Hwhole by eauto.
      destruct (decide (acc = [])) as [->|Hacc];
        [|by rewrite bool_decide_false in Hdot by done].
      rewrite bool_decide_true in Hdot by done.
      apply IsCharacter_inv in Hdot as (r & Hr & Hc & ->).
      apply char_in_single in Hc as ->.
      pose proof (rest_advance L1 ["."%char] r Hr) as Hr'. cbn [length] in Hr'.
      split; [done|]. exists name, L1. split; [done|]. split; [done|].
      apply bind_inv in Hwhole as (eoi & L5 & Heoi & Hwhole).
      apply EndOfInput_inv in Heoi as [-> Heoi].
      destruct eoi.
      * injection Hwhole as <-. rewrite Hr'.
        split; [done|]. by rewrite (proj1 Heoi eq_refl) in Hr'; subst r.
      * apply bind_inv in Hwhole as (op & L6 & Hop & [= Hw <-]).
        apply IsCharacter_inv in Hop.
        destruct op as [c|]; [|by rewrite bool_decide_false in Hw by (by intros [? ?])].
        destruct Hop as (r' & Hr'' & Hc & ->).
        rewrite Hr'. split; [done|]. rewrite Hr' in Hr''. by rewrite Hr''.
Qed.

(** [Key_loop] only adds segments to the key. *)
Lemma Key_loop_length fuel : forall acc L acc' L',
  Key_loop fuel acc L = Ok (acc', L') -> length acc <= length acc'.
Proof.
  induction fuel as [|fuel IH]; intros acc L acc' L' H; [done|].
  cbn [Key_loop] in H.
  apply bind_inv in H as (eoi & L1 & _ & H).
  destruct eoi; [by injection H as <- _|].
  apply bind_inv in H as (here & L2 & _ & H).
  apply bind_inv in H as (step & L3 & Hname & H).
  apply Key_name_inv in Hname.
  destruct step as [acc1|]; [|by injection H as <- _].
  destruct Hname as [Hlen _].
  apply bind_inv in H as (eoi & L4 & _ & H).
  destruct eoi; [by injection H as <- _|].
  apply bind_inv in H as (close & L5 & _ & H).
  destruct (bool_decide (is_Some close));
    [by apply syntax_error_raises in H|].
  apply bind_inv in H as (L6 & L7 & _ & H).
  apply bind_inv in H as (acc2 & L8 & Hbr & H).
  apply Key_brackets_length in Hbr as [Hbr _].
  apply bind_inv in H as (dot & L9 & _ & H).
  destruct (negb (bool_decide (is_Some dot))); [injection H as <- _; lia|].
  apply bind_inv in H as (eoi & L10 & _ & H).
  destruct eoi; [by apply syntax_error_raises in H|].
  apply IH in H. lia.
Qed.

(** [Key] returns the empty key only at the end of the input and for
    the single dot. *)
Lemma Key_empty_inv L L' :
  no_empty_alias (_defaults L) -> Key L = Ok ([], L') ->
  rest L = [] \/
  exists name L0,
    Token _RESERVED_OPERATOR_CHARS false false false L = Ok (name, L0) /\
    truthy name = false /\
    rest L0 = "."%char :: rest L' /\ at_operator (rest L') = true.
Proof.
  intros Hd H. unfold Key in H.
  apply bind_inv in H as (L0 & L1 & [= <- <-] & H).
  unfold budget in H. cbn [Key_loop] in H.
  apply bind_inv in H as (eoi & L1 & Heoi & H).
  apply EndOfInput_inv in Heoi as [-> Heoi].
  destruct eoi; [left; by apply Heoi|]. right.
  apply bind_inv in H as (here & L2 & [= <- <-] & H).
  apply bind_inv in H as (step & L3 & Hname & H).
  apply Key_name_inv in Hname.
  destruct step as [acc1|].
  2:{ injection H as <-. by destruct Hname as [_ ?]. }
  exfalso. destruct Hname as [_ Hbr]. specialize (Hbr Hd).
  apply bind_inv in H as (eoi & L4 & Heoi' & H).
  apply EndOfInput_inv in Heoi' as [-> Heoi'].
  destruct eoi.
  { injection H as -> <-. destruct (Hbr eq_refl) as (r & Hr).
    by rewrite (proj1 Heoi' eq_refl) in Hr. }
  apply bind_inv in H as (close & L5 & Hclose & H).
  apply IsCharacter_inv in Hclose.
  destruct close as [c|].
  { rewrite bool_decide_true in H by eauto.
    by apply syntax_error_raises in H. }
  rewrite bool_decide_false in H by (by intros [? ?]).
  destruct Hclose as [-> _].
  apply bind_inv in H as (L6 & L7 & [= <- <-] & H).
  apply bind_inv in H as (acc2 & L8 & Hbrk & H).
  apply Key_brackets_length in Hbrk as [Hle Hlt].
  assert (0 < length acc2) as Hpos.
  { destruct acc1 as [|v acc1]; [|simpl in Hle; lia].
    destruct (Hbr eq_refl) as (r & Hr). by apply Hlt in Hr. }
  apply bind_inv in H as (dot & L9 & _ & H).
  destruct (negb (bool_decide (is_Some dot))).
  { injection H as -> _. simpl in Hpos. lia. }
  apply bind_inv in H as (eoi & L10 & _ & H).
  destruct eoi; [by apply syntax_error_raises in H|].
  apply Key_loop_length in H. simpl in H. lia.
Qed.

(** The single dot, at the end of the input or in front of a reserved
    operator character. *)
Lemma Key_dot (d : option ProjectionSpec) r :
  at_operator r = true ->
  returned_at (Key (Lexer_init ("."%char :: r) d)) = Ok ([], 1).
Proof.
  intros Hr. unfold Key.
  set (L := Lexer_init ("."%char :: r) d).
  rewrite (bind_Ok _ _ _ _ _ (eq_refl : get_lexer L = Ok (L, L))).
  assert (rest L = "."%char :: r) as HL by done.
  unfold budget. cbn [Key_loop].
  rewrite (bind_Ok _ _ _ _ _ (EndOfInput_cons _ _ _ HL)).
  rewrite (bind_Ok _ _ _ _ _ (eq_refl : GetPosition L = Ok (_position L, L))).
  assert (Key_name (_position L) [] L = Ok (None, advance 1 L)) as Hname.
  { unfold Key_name.
    assert (Token_scan _RESERVED_OPERATOR_CHARS false L =
            {| scan_i := _position L + 0; scan_quote := None;
               scan_quoted := false; scan_token := None |}) as Hs.
    { unfold Token_scan. fold (rest L). rewrite HL.
      rewrite Token_loop_stop by done. by rewrite Nat.add_0_r. }
    rewrite (bind_Ok _ _ _ _ _ (Token_returns _ _ false _ _ _ _ Hs)).
    rewrite advance_0. cbn [convert_token truthy].
    rewrite (bind_Ok _ _ _ _ _
               (IsCharacter_miss L "[" true false _ _ HL eq_refl)).
    rewrite bool_decide_false by (by intros [? ?]). cbn [negb].
    rewrite bool_decide_true by done.
    rewrite (bind_Ok _ _ _ _ _
               (IsCharacter_hit L "." false _ _ HL eq_refl)).
    rewrite bool_decide_true by eauto.
    pose proof (rest_advance L ["."%char] r HL) as H1. cbn [length] in H1.
    destruct r as [|c r].
    - rewrite (bind_Ok _ _ _ true (advance 1 L)); [done|].
      unfold mbind, M_bind. by rewrite (EndOfInput_nil _ H1).
    - rewrite (bind_Ok _ _ _ true (advance 1 L)); [done|].
      unfold mbind, M_bind. rewrite (EndOfInput_cons _ _ _ H1).
      rewrite (IsCharacter_peek _ _RESERVED_OPERATOR_CHARS true _ _ H1 Hr).
      by rewrite bool_decide_true by eauto. }
  by rewrite (bind_Ok _ _ _ _ _ Hname).
Qed.

(** * Quoted and numeric tokens *)



Lemma rest_lexer (s : str) : rest (lexer s) = s.
Proof. reflexivity. Qed.


(** The scan of two adjacent double-quoted segments. *)
Lemma Token_scan_adjacent T bp a b i :
  Token_loop T bp (double_quoted a ++ double_quoted b) i None false None 0 =
  {| scan_i := i + length (double_quoted a ++ double_quoted b);
     scan_quote := None; scan_quoted := true; scan_token := Some (a ++ b) |}.
Proof.
  unfold double_quoted. rewrite <- !app_assoc.
  cbn [list_ascii_of_string app].
  rewrite Token_loop_noesc by done. rewrite Token_char_open by done.
  cbv beta iota. unfold append. cbn [default app].
  rewrite Token_loop_quoted.
  rewrite Token_loop_noesc by done. rewrite Token_char_open by done.
  cbv beta iota. unfold append. cbn [default app]. rewrite app_nil_r.
  rewrite <- (app_nil_r (_ ++ [_])), <- app_assoc. cbn [app].
  rewrite Token_loop_quoted, Token_loop_end.
  f_equal. cbn [length]. rewrite !length_app. cbn [length].
  rewrite !length_app. cbn [length]. lia.
Qed.

Lemma Token_adjacent a b convert :
  returned (Token [] false true convert
              (lexer (double_quoted a ++ double_quoted b))) =
  Ok (VStr (a ++ b)).
Proof.
  set (s := double_quoted a ++ double_quoted b). set (L := lexer s).
  assert (Token_scan [] false L =
          {| scan_i := _position L + length s; scan_quote := None;
             scan_quoted := true; scan_token := Some (a ++ b) |}) as Hs.
  { unfold Token_scan. fold (rest L). unfold L. rewrite rest_lexer.
    apply Token_scan_adjacent. }
  rewrite (Token_returns_space _ _ _ _ _ _ _ Hs).
  - unfold convert_token. by rewrite andb_false_r.
  - rewrite (rest_advance L s []); [done|].
    unfold L. by rewrite rest_lexer, app_nil_r.
Qed.


(** * Properties of the specification *)

(** C1, as the code has it. A key string [k] of the grammar is a
    non-empty list of well-formed segments separated by dots.  [Key] on
    [Lexer(k)] reads [k] to its end and returns the key path that [k]
    stands for; [GetKeyName] renders this key path as [k] with the
    quoting of every name made canonical (between double quotes exactly
    when the name has a non-word character) and with every index written
    as [str] writes its integer.  When the indices of [k] are written so,
    this is [k] up to the canonical quoting of its names.  The rendered
    string parses to the same key path. *)
Theorem GetKeyName_Key_round_trip (segs : list segment) :
  segs <> [] -> forallb well_formed segs = true ->
  let k := key_string segs in
  let rendered := key_string (map canonical_segment segs) in
  returned_at (Key (lexer k)) = Ok (key_path segs, length k) /\
  GetKeyName (key_path segs) = Ok rendered /\
  (forallb decimal_indices segs = true ->
   GetKeyName (key_path segs) = Ok (key_string (map requoted segs))) /\
  returned_at (Key (lexer rendered)) = Ok (key_path segs, length rendered).
Proof.
  intros Hne Hwf k rendered. destruct segs as [|s segs]; [done|]. clear Hne.
  pose proof (key_path_segments _ Hwf) as Hseg.
  assert (GetKeyName (key_path (s :: segs)) = Ok rendered) as Hr.
  { rewrite GetKeyName_canonical by (by apply is_segment_renderable).
    by rewrite canonical_key_path. }
  split_and!.
  - unfold k.
    by rewrite (Key_segments (lexer (key_string (s :: segs))) s segs Hwf
                  eq_refl (rest_lexer _)).
  - done.
  - intros Hd. rewrite Hr. unfold rendered.
    by rewrite canonical_segment_decimal.
  - destruct (Key_canonical _ Hseg) as (L & HL & Hpos).
    rewrite canonical_key_path in HL, Hpos by done. fold rendered in HL, Hpos.
    rewrite HL. cbn [returned_at]. by rewrite Hpos.
Qed.

Lemma GetKeyName_Key_round_trip_witness :
  sample_segments <> [] /\
  forallb well_formed sample_segments = true /\
  forallb decimal_indices sample_segments = true /\
  returned_at (Key (lexer (key_string sample_segments))) =
    Ok (key_path sample_segments, length (key_string sample_segments)) /\
  GetKeyName (key_path sample_segments) =
    Ok (key_string (map requoted sample_segments)).
Proof.
  assert (sample_segments <> []) as Hne by discriminate.
  assert (forallb well_formed sample_segments = true) as Hwf by reflexivity.
  assert (forallb decimal_indices sample_segments = true) as Hd
    by reflexivity.
  destruct (GetKeyName_Key_round_trip sample_segments Hne Hwf)
    as (Hk & _ & Hr & _).
  exact (conj Hne (conj Hwf (conj Hd (conj Hk (Hr Hd))))).
Defined.

(** C1, as stated, fails: [a[03]] is a key string of the grammar with
    neither a quote nor a name that has a non-word character, so that
    canonical quoting leaves it as it is; [Key] returns ['a', 3] on it,
    which [GetKeyName] renders as [a[3]]. *)
Lemma GetKeyName_Key_round_trip_counterexample :
  forallb well_formed sample_padded_index = true /\
  key_string sample_padded_index = list_ascii_of_string "a[03]" /\
  key_string (map requoted sample_padded_index) =
    list_ascii_of_string "a[03]" /\
  returned (Key (lexer "a[03]")) = Ok [VStr "a"; VInt 3] /\
  GetKeyName [VStr "a"; VInt 3] = Ok (list_ascii_of_string "a[3]") /\
  GetKeyName [VStr "a"; VInt 3] <>
    Ok (key_string (map requoted sample_padded_index)).
Proof.
  split_and!; try (vm_compute; reflexivity).
  vm_compute. discriminate.
Qed.

(** C2, as the code has it. A call marked list-mapped, anywhere in a
    chain, replaces a list by the list of the results of its function on
    the items (an empty list by an empty list); it passes a running value
    through unchanged only when the value is not a list and is false in a
    condition; a value that is not a list and is true in a condition is
    given to the function as a whole, as by an unmapped call. *)
Theorem Evaluate_mapped (before after : list _TransformCall)
    (transform : _TransformCall) (obj : value) (self : _Transform) :
  mapped transform = true ->
  _transforms self = before ++ transform :: after ->
  returned_T (Evaluate obj self) =
    Ok (running after (mapped_step transform (running before obj))) /\
  (forall items,
     mapped_step transform (VList items) =
     VList (map (fun item => call transform [item]) items)) /\
  mapped_step transform (VList []) = VList [] /\
  (forall v, IsListLike v = false -> truthy v = false ->
             mapped_step transform v = v) /\
  (forall v, IsListLike v = false -> truthy v = true ->
             mapped_step transform v =
             if restriction transform then call transform []
             else call transform [v]).
Proof.
  intros Hm Hself. split_and!.
  - rewrite Evaluate_running, Hself. unfold returned_T, running.
    rewrite fold_left_app. cbn [fold_left].
    by rewrite Evaluate_step_mapped.
  - done.
  - done.
  - intros v Hl Ht. unfold mapped_step. rewrite Ht. by destruct v.
  - intros v Hl Ht. unfold mapped_step. rewrite Ht. by destruct v.
Qed.

Lemma Evaluate_mapped_witness :
  mapped mapped_upper = true /\
  _transforms sample_chain = [] ++ mapped_upper :: [] /\
  returned_T (Evaluate (VList [VStr "a"; VStr "b"]) sample_chain) =
    Ok (VList [VStr "A"; VStr "B"]).
Proof.
  split; [reflexivity|]. split; [reflexivity|].
  destruct (Evaluate_mapped [] [] mapped_upper (VList [VStr "a"; VStr "b"])
              sample_chain eq_refl eq_refl) as (H & _).
  exact H.
Defined.

(** C2, as stated, fails: [map().upper()] applied to the string [a], which
    is not list-like, does not pass it through but evaluates to [A]. *)
Lemma Evaluate_mapped_counterexample :
  mapped mapped_upper = true /\
  IsListLike (VStr "a") = false /\
  returned_T (Evaluate (VStr "a") sample_chain) = Ok (VStr "A") /\
  returned_T (Evaluate (VStr "a") sample_chain) <> Ok (VStr "a").
Proof. split_and!; [reflexivity..|]. vm_compute. discriminate. Qed.

(** C3, as the code has it. [Key] on a single dot that the end of the
    input or a reserved operator character follows returns the empty key
    path, with the cursor after the dot: the whole resource is the empty
    list, not a list of one segment, and [GetKeyName] renders it as the
    dot.  On every key string of the grammar with a segment [Key] returns
    a key path that is not empty.  When no alias stands for the empty
    path, [Key] returns the empty key path only at the end of the input
    and at such a dot: the [Token] call of its first iteration on the
    lexer returns no name and stops in front of the dot, and the cursor is
    left after the dot, at the end of the input or in front of a reserved
    operator character. *)
Theorem Key_whole_resource :
  (forall d r, at_operator r = true ->
     returned_at (Key (Lexer_init ("."%char :: r) d)) = Ok ([], 1)) /\
  GetKeyName [] = Ok (list_ascii_of_string ".") /\
  (forall segs, segs <> [] -> forallb well_formed segs = true ->
     exists v key,
       returned (Key (lexer (key_string segs))) = Ok (v :: key)) /\
  (forall L L', no_empty_alias (_defaults L) -> Key L = Ok ([], L') ->
     rest L = [] \/
     exists name L0,
       Token _RESERVED_OPERATOR_CHARS false false false L = Ok (name, L0) /\
       truthy name = false /\
       rest L0 = "."%char :: rest L' /\
       at_operator (rest L') = true).
Proof.
  split_and!.
  - intros d r. apply Key_dot.
  - reflexivity.
  - intros [|s segs] Hne Hwf; [done|].
    rewrite (Key_segments (lexer (key_string (s :: segs))) s segs Hwf
               eq_refl (rest_lexer _)).
    cbn [returned key_path flat_map]. unfold segment_path. cbn [app]. eauto.
  - intros L L'. apply Key_empty_inv.
Qed.

Lemma Key_whole_resource_witness :
  at_operator [] = true /\
  returned_at (Key (lexer ".")) = Ok ([], 1) /\
  at_operator "=x" = true /\
  returned_at (Key (lexer ".=x")) = Ok ([], 1) /\
  sample_segments <> [] /\
  forallb well_formed sample_segments = true /\
  exists v key,
    returned (Key (lexer (key_string sample_segments))) = Ok (v :: key).
Proof.
  assert (sample_segments <> []) as Hne by discriminate.
  destruct Key_whole_resource as (H & _ & H3 & _).
  exact (conj eq_refl (conj (H None [] eq_refl)
           (conj eq_refl (conj (H None (list_ascii_of_string "=x") eq_refl)
              (conj Hne (conj eq_refl
                 (H3 sample_segments Hne eq_refl))))))).
Defined.

(** C3, as stated, fails: [Key] on the single dot returns the empty list,
    which is neither non-empty nor a list of one segment. *)
Lemma Key_whole_resource_counterexample :
  returned (Key (lexer ".")) = Ok [] /\
  ~ (exists v, returned (Key (lexer ".")) = Ok [v]).
Proof.
  assert (returned (Key (lexer ".")) = Ok []) as H
    by (vm_compute; reflexivity).
  split; [done|]. intros (v & Hv). rewrite H in Hv. discriminate.
Qed.

(** C4. [Key] on [a.b[3].c[].d] returns the six segments
    ['a', 'b', 3, 'c', None, 'd'], in the order of the input. *)
Theorem Key_example :
  returned (Key (lexer "a.b[3].c[].d")) =
  Ok [VStr "a"; VStr "b"; VInt 3; VStr "c"; VNone; VStr "d"].
Proof. vm_compute. reflexivity. Qed.

(** C6. [Args], after the opening parenthesis: [()] is the empty list,
    [(1,2,3)] is the three arguments in order (converted to integers when
    conversion is asked for), and [(1,,3)] and [(1,)] raise an
    [ExpressionSyntaxError], so that no list is returned. *)
Theorem Args_examples :
  Args_of false "()" = Ok [] /\
  Args_of false "(1,2,3)" = Ok [VStr "1"; VStr "2"; VStr "3"] /\
  Args_of true "(1,2,3)" = Ok [VInt 1; VInt 2; VInt 3] /\
  (forall convert, is_syntax_error (Args_of convert "(1,,3)")) /\
  (forall convert, is_syntax_error (Args_of convert "(1,)")).
Proof.
  split_and!.
  - vm_compute. reflexivity.
  - vm_compute. reflexivity.
  - vm_compute. reflexivity.
  - intros []; vm_compute; exact I.
  - intros []; vm_compute; exact I.
Qed.





(** C9. [Evaluate] leaves the chain as it is: for every chain and every
    subject it returns a value together with the same conditional and the
    same list of calls, so that a second evaluation, against any subject,
    is the evaluation of the chain as it was parsed. *)
Theorem Evaluate_frame (self : _Transform) (obj : value) :
  (exists v, Evaluate obj self = Ok (v, self)) /\
  (forall obj', (Evaluate obj;; Evaluate obj') self = Evaluate obj' self).
Proof.
  split.
  - eexists. apply Evaluate_running.
  - intros obj'. unfold mbind, TM_bind. by rewrite Evaluate_running.
Qed.

(** C10. In every chain that [Transform] returns, no call after the first
    carries the restriction flag, and none at all when the caller's flag
    is false: the flag goes to the first parsed call only.  [Evaluate]
    therefore gives the running value, or its items, to the function of
    every call after the first. *)
Theorem Transform_restriction (PROJECTION_ARG_DOC : str)
    (TransformAlways TransformMap TransformIf : pyfunc)
    (func_name : value) (active : option Z) (restr : bool)
    (L L' : Lexer) (chain : _Transform) :
  Transform PROJECTION_ARG_DOC TransformAlways TransformMap TransformIf
    func_name active restr L = Ok (chain, L') ->
  Forall (fun t => restriction t = false) (tail (_transforms chain)) /\
  (restr = false ->
   Forall (fun t => restriction t = false) (_transforms chain)) /\
  (forall obj,
     returned_T (Evaluate obj chain) =
     Ok (match _transforms chain with
         | [] => obj
         | first :: others =>
             fold_left (fun obj t => subject_step t obj) others
               (Evaluate_step first obj)
         end)).
Proof.
  unfold Transform. intros H.
  apply bind_inv in H as (here & L1 & _ & H).
  apply bind_inv in H as (L2 & L3 & _ & H).
  apply Transform_loop_restriction in H as (new & Hnew & Htail & Hall).
  cbn [_Transform_init _transforms app] in Hnew.
  rewrite Hnew. split_and!; [done..|].
  intros obj. rewrite Evaluate_running, Hnew. unfold returned_T, running.
  destruct new as [|first others]; [done|]. cbn [fold_left tail] in *.
  f_equal. generalize (Evaluate_step first obj). clear Hall Hnew.
  induction Htail as [|t others Ht _ IH]; intros v; [done|].
  cbn [fold_left]. by rewrite Evaluate_step_subject, IH.
Qed.

Lemma Transform_restriction_witness :
  Transform " projection: The parent ProjectionSpec." sample_always
    sample_map sample_if (VStr "upper") (Some 0%Z) true
    sample_restriction_lexer =
  Ok (sample_restriction_chain, set_position 13 sample_restriction_lexer) /\
  Forall (fun t => restriction t = false)
    (tail (_transforms sample_restriction_chain)).
Proof.
  assert (Transform " projection: The parent ProjectionSpec." sample_always
            sample_map sample_if (VStr "upper") (Some 0%Z) true
            sample_restriction_lexer =
          Ok (sample_restriction_chain,
              set_position 13 sample_restriction_lexer)) as H
    by reflexivity.
  exact (conj H (proj1 (Transform_restriction _ _ _ _ _ _ _ _ _ _ H))).
Defined.

(** * Further properties of the lexer *)

(** ** The cursor *)

Lemma reads_refl L : reads L L.
Proof. by unfold reads. Qed.

Lemma reads_trans L1 L2 L3 : reads L1 L2 -> reads L2 L3 -> reads L1 L3.
Proof.
  unfold reads. intros (E1 & D1 & P1 & B1) (E2 & D2 & P2 & B2).
  rewrite E1 in *. split_and!; [congruence|congruence|lia|].
  intros H. apply B2. auto.
Qed.

Lemma reads_set_position L p :
  _position L <= p -> (_position L <= length (_expr L) -> p <= length (_expr L)) ->
  reads L (set_position p L).
Proof. by unfold reads. Qed.

Lemma reads_remaining L L' : reads L L' -> remaining L' <= remaining L.
Proof. unfold reads, remaining. intros (-> & _ & ? & _). lia. Qed.

Lemma count_space_length s : count_space s <= length s.
Proof.
  induction s as [|c s IH]; [done|]. simpl. destruct (isspace c); simpl; lia.
Qed.

(** The index at which the scanning loop stops. *)
Lemma Token_loop_bounds T bp n : forall s i quote quoted token pc,
  length s <= n ->
  i <= scan_i (Token_loop T bp s i quote quoted token pc) <= i + length s.
Proof.
  induction n as [|n IH]; intros s i quote quoted token pc Hn.
  { destruct s; [simpl; lia|simpl in Hn; lia]. }
  destruct s as [|c s]; [simpl; lia|].
  destruct (Ascii.eqb c _ESCAPE) eqn:Hc.
  - apply Ascii.eqb_eq in Hc as ->. destruct s as [|c' s].
    + simpl. destruct (Token_char _ _ _ _ _ _ _); simpl; lia.
    + rewrite Token_loop_esc. simpl in Hn.
      pose proof (IH s (i + 1 + 1) quote quoted
                    (Token_escape quote token c') pc ltac:(lia)).
      simpl. lia.
  - rewrite Token_loop_noesc by done. simpl in Hn.
    destruct (Token_char _ _ _ _ _ _ _) as [|q' qd' tok' pc'];
      [simpl; lia|].
    pose proof (IH s (i + 1) q' qd' tok' pc' ltac:(lia)). simpl. lia.
Qed.

Lemma Token_char_token T bp c quote quoted token pc q' qd' tok' pc' :
  Token_char T bp c quote quoted token pc = Continue q' qd' tok' pc' ->
  is_Some token -> is_Some tok'.
Proof.
  unfold Token_char, append. intros H Ht.
  repeat (match type of H with
          | (if ?b then _ else _) = _ => destruct b
          end); by simplify_eq.
Qed.

(** A token that has a character keeps one. *)
Lemma Token_loop_token T bp n : forall s i quote quoted token pc,
  length s <= n -> is_Some token ->
  is_Some (scan_token (Token_loop T bp s i quote quoted token pc)).
Proof.
  induction n as [|n IH]; intros s i quote quoted token pc Hn Ht.
  { destruct s; [done|simpl in Hn; lia]. }
  destruct s as [|c s]; [done|].
  destruct (Ascii.eqb c _ESCAPE) eqn:Hc.
  - apply Ascii.eqb_eq in Hc as ->. destruct s as [|c' s].
    + simpl. destruct (Token_char _ _ _ _ _ _ _) eqn:E; [done|].
      simpl. by eapply Token_char_token.
    + rewrite Token_loop_esc. simpl in Hn. apply IH; [lia|].
      unfold Token_escape, append. by destruct (_ && _).
  - rewrite Token_loop_noesc by done. simpl in Hn.
    destruct (Token_char _ _ _ _ _ _ _) eqn:E; [done|].
    apply IH; [lia|]. by eapply Token_char_token.
Qed.

(** A scan that returns a token has read a character. *)
Lemma Token_loop_progress T bp s i quote quoted pc :
  is_Some (scan_token (Token_loop T bp s i quote quoted None pc)) ->
  i < scan_i (Token_loop T bp s i quote quoted None pc).
Proof.
  destruct s as [|c s]; [by intros [? ?]|].
  destruct (Ascii.eqb c _ESCAPE) eqn:Hc.
  - apply Ascii.eqb_eq in Hc as ->. destruct s as [|c' s].
    + simpl. destruct (Token_char _ _ _ _ _ _ _); simpl;
        [by intros [? ?]|lia].
    + rewrite Token_loop_esc. intros _.
      pose proof (Token_loop_bounds T bp _ s (i + 1 + 1) quote quoted
                    (Token_escape quote None c') pc (le_n _)). lia.
  - rewrite Token_loop_noesc by done.
    destruct (Token_char _ _ _ _ _ _ _) as [|q' qd' tok' pc'];
      [by intros [? ?]|]. intros _.
    pose proof (Token_loop_bounds T bp _ s (i + 1) q' qd' tok' pc' (le_n _)).
    lia.
Qed.

Lemma SkipSpace_reads token L b L' :
  SkipSpace token L = Ok (b, L') -> reads L L'.
Proof.
  unfold SkipSpace. fold (rest L).
  pose proof (count_space_length (rest L)) as Hc.
  pose proof (rest_length L) as Hr.
  assert (reads L (set_position (_position L + count_space (rest L)) L)) as H.
  { apply reads_set_position; lia. }
  destruct (Nat.ltb _ _); [by intros [= <- <-]|].
  destruct token as [t|]; [|by intros [= <- <-]].
  destruct (bool_decide (t = [])); [by intros [= <- <-]|].
  intros E. by apply syntax_error_raises in E.
Qed.

Lemma Token_inv T bp space convert L v L' :
  Token T bp space convert L = Ok (v, L') ->
  scan_quote (Token_scan T bp L) = None /\
  v = convert_token convert (scan_quoted (Token_scan T bp L))
        (scan_token (Token_scan T bp L)) /\
  reads (set_position (scan_i (Token_scan T bp L)) L) L' /\
  (space = false -> L' = set_position (scan_i (Token_scan T bp L)) L).
Proof.
  unfold Token. intros H.
  apply bind_inv in H as (L0 & L1 & [= <- <-] & H).
  destruct (scan_quote (Token_scan T bp L)) eqn:Hq;
    [by apply syntax_error_raises in H|].
  apply bind_inv in H as ([] & L1 & [= <-] & H).
  apply bind_inv in H as (b & L2 & Hs & [= <- <-]).
  split_and!; [done..| |].
  - destruct space; [by eapply SkipSpace_reads|].
    injection Hs as _ <-. apply reads_refl.
  - intros ->. by injection Hs as _ <-.
Qed.

Lemma Token_scan_reads T bp L :
  reads L (set_position (scan_i (Token_scan T bp L)) L).
Proof.
  unfold Token_scan. fold (rest L).
  pose proof (Token_loop_bounds T bp _ (rest L) (_position L) None false
                None 0 (le_n _)) as Hb.
  pose proof (rest_length L). apply reads_set_position; lia.
Qed.

Lemma Token_reads T bp space convert L v L' :
  Token T bp space convert L = Ok (v, L') -> reads L L'.
Proof.
  intros H. apply Token_inv in H as (_ & _ & H & _).
  eapply reads_trans; [apply Token_scan_reads|done].
Qed.

Lemma advance_reads L c r : rest L = c :: r -> reads L (advance 1 L).
Proof.
  intros H. pose proof (rest_length L) as Hl. rewrite H in Hl. simpl in Hl.
  apply reads_set_position; lia.
Qed.

Lemma IsCharacter_reads characters peek eoi_ok L o L' :
  IsCharacter characters peek eoi_ok L = Ok (o, L') -> reads L L'.
Proof.
  intros H. apply IsCharacter_inv in H. destruct o as [c|].
  - destruct H as (r & Hr & _ & ->). destruct peek; [apply reads_refl|].
    by eapply advance_reads.
  - destruct H as [-> _]. apply reads_refl.
Qed.

Lemma Key_brackets_reads fuel : forall acc L acc' L',
  Key_brackets fuel acc L = Ok (acc', L') -> reads L L'.
Proof.
  induction fuel as [|fuel IH]; intros acc L acc' L' H; [done|].
  cbn [Key_brackets] in H.
  apply bind_inv in H as (open & L1 & Hopen & H).
  apply IsCharacter_reads in Hopen.
  destruct (bool_decide (is_Some open)).
  - apply bind_inv in H as (index & L2 & Hi & H). apply Token_reads in Hi.
    apply bind_inv in H as (close & L3 & Hc & H).
    apply IsCharacter_reads in Hc. apply IH in H.
    eauto using reads_trans.
  - by injection H as _ <-.
Qed.

Lemma Key_name_reads here acc L step L' :
  Key_name here acc L = Ok (step, L') -> reads L L'.
Proof.
  unfold Key_name. intros H.
  apply bind_inv in H as (name & L1 & Htok & H). apply Token_reads in Htok.
  eapply reads_trans; [done|]. clear Htok.
  destruct (truthy name).
  - apply bind_inv in H as (paren & L2 & Hp & H).
    apply IsCharacter_reads in Hp. eapply reads_trans; [done|].
    apply bind_inv in H as (L3 & L4 & [= <- <-] & H).
    destruct (lookup_alias name L2); [destruct (_ && _)|];
      injection H as _ <-; apply reads_refl.
  - apply bind_inv in H as (bracket & L2 & Hb & H).
    apply IsCharacter_reads in Hb. eapply reads_trans; [done|].
    destruct (negb (bool_decide (is_Some bracket)));
      [|injection H as _ <-; apply reads_refl].
    apply bind_inv in H as (dot & L3 & Hdot & H).
    assert (reads L2 L3) as H23.
    { destruct (bool_decide (acc = []));
        [by apply IsCharacter_reads in Hdot|].
      injection Hdot as _ <-. apply reads_refl. }
    eapply reads_trans; [done|].
    apply bind_inv in H as (whole & L4 & Hwhole & H).
    assert (reads L3 L4) as H34.
    { destruct (bool_decide (is_Some dot));
        [|injection Hwhole as _ <-; apply reads_refl].
      apply bind_inv in Hwhole as (eoi & L5 & [= <- <-] & Hwhole).
      destruct (length (_expr L3) <=? _position L3)%nat;
        [injection Hwhole as _ <-; apply reads_refl|].
      apply bind_inv in Hwhole as (op & L6 & Hop & [= _ <-]).
      by apply IsCharacter_reads in Hop. }
    eapply reads_trans; [done|].
    destruct whole; [|by apply syntax_error_raises in H].
    injection H as _ <-. apply reads_refl.
Qed.

Lemma Key_loop_reads fuel : forall acc L acc' L',
  Key_loop fuel acc L = Ok (acc', L') -> reads L L'.
Proof.
  induction fuel as [|fuel IH]; intros acc L acc' L' H; [done|].
  cbn [Key_loop] in H.
  apply bind_inv in H as (eoi & L1 & [= <- <-] & H).
  destruct (length (_expr L) <=? _position L)%nat;
    [injection H as _ <-; apply reads_refl|].
  apply bind_inv in H as (here & L2 & [= <- <-] & H).
  apply bind_inv in H as (step & L3 & Hname & H).
  apply Key_name_reads in Hname. eapply reads_trans; [done|].
  destruct step as [acc1|]; [|injection H as _ <-; apply reads_refl].
  apply bind_inv in H as (eoi & L4 & [= <- <-] & H).
  destruct (length (_expr L3) <=? _position L3)%nat;
    [injection H as _ <-; apply reads_refl|].
  apply bind_inv in H as (close & L5 & Hclose & H).
  apply IsCharacter_reads in Hclose. eapply reads_trans; [done|].
  destruct (bool_decide (is_Some close));
    [by apply syntax_error_raises in H|].
  apply bind_inv in H as (L6 & L7 & [= <- <-] & H).
  apply bind_inv in H as (acc2 & L8 & Hbr & H).
  apply Key_brackets_reads in Hbr. eapply reads_trans; [done|].
  apply bind_inv in H as (dot & L9 & Hdot & H).
  apply IsCharacter_reads in Hdot. eapply reads_trans; [done|].
  destruct (negb (bool_decide (is_Some dot)));
    [injection H as _ <-; apply reads_refl|].
  apply bind_inv in H as (eoi & L10 & [= <- <-] & H).
  destruct (length (_expr L9) <=? _position L9)%nat;
    [by apply syntax_error_raises in H|].
  by apply IH in H.
Qed.

Lemma Key_reads L key L' : Key L = Ok (key, L') -> reads L L'.
Proof.
  unfold Key. intros H.
  apply bind_inv in H as (L0 & L1 & [= <- <-] & H).
  by apply Key_loop_reads in H.
Qed.

(** [Args] reads at least the closing parenthesis. *)
Lemma Args_loop_reads fuel : forall convert required args L args' L',
  Args_loop fuel convert required args L = Ok (args', L') ->
  reads L L' /\ _position L < _position L' /\
  _position L' <= length (_expr L).
Proof.
  induction fuel as [|fuel IH]; intros convert required args L args' L' H;
    [done|].
  cbn [Args_loop] in H.
  apply bind_inv in H as (here & L1 & [= <- <-] & H).
  apply bind_inv in H as (arg & L2 & Htok & H). apply Token_reads in Htok.
  apply bind_inv in H as (end_ & L3 & Hend & H).
  pose proof (IsCharacter_reads _ _ _ _ _ _ Hend) as Hr.
  apply IsCharacter_inv in Hend.
  apply bind_inv in H as (args1 & L4 & Hargs & H).
  assert (L4 = L3) as ->.
  { destruct (negb (is_none arg)); [by injection Hargs as _ <-|].
    destruct (_ || _); [by apply syntax_error_raises in Hargs|].
    by injection Hargs as _ <-. }
  destruct end_ as [c|].
  - rewrite bool_decide_true in H by eauto. injection H as _ <-.
    destruct Hend as (r & Hrest & _ & ->). cbn [negb].
    pose proof (rest_length L2) as Hl. rewrite Hrest in Hl. simpl in Hl.
    split; [eauto using reads_trans|].
    destruct Htok as (E & _ & P & _). unfold advance. simpl.
    rewrite E in Hl. lia.
  - rewrite bool_decide_false in H by (by intros [? ?]).
    apply bind_inv in H as (comma & L5 & Hcomma & H).
    apply IsCharacter_reads in Hcomma.
    apply IH in H as (H & Hlt & Hle).
    assert (reads L L5) as H05 by eauto using reads_trans.
    split; [eauto using reads_trans|].
    destruct H05 as (E & _ & P & _). rewrite E in Hle. lia.
Qed.

Lemma Args_reads convert L args L' :
  Args convert L = Ok (args, L') ->
  reads L L' /\ _position L < _position L' /\
  _position L' <= length (_expr L).
Proof.
  unfold Args. intros H.
  apply bind_inv in H as (L0 & L1 & [= <- <-] & H).
  by apply Args_loop_reads in H.
Qed.

(** ** Termination of the loops *)

Lemma bind_terminates {A B} (m : M A) (k : A -> M B) L :
  m L <> Exhausted ->
  (forall a L1, m L = Ok (a, L1) -> k a L1 <> Exhausted) ->
  (m ≫= k) L <> Exhausted.
Proof.
  intros Hm Hk. unfold mbind, M_bind.
  destruct (m L) as [[a L1]| |]; [by apply Hk|done..].
Qed.

Lemma syntax_error_terminates {A} msg position L :
  syntax_error (A := A) msg position L <> Exhausted.
Proof.
  unfold syntax_error, mbind at 1, M_bind at 1.
  by destruct (Annotate_cases position L) as [-> | ->].
Qed.

Lemma IsCharacter_terminates characters peek eoi_ok L :
  IsCharacter characters peek eoi_ok L <> Exhausted.
Proof.
  unfold IsCharacter. destruct (rest_from _ _) as [|c r].
  - destruct (_ || _); [done|apply syntax_error_terminates].
  - destruct (negb (char_in c characters)); [done|]. by destruct (negb peek).
Qed.

Lemma SkipSpace_terminates token L : SkipSpace token L <> Exhausted.
Proof.
  unfold SkipSpace. destruct (Nat.ltb _ _); [done|].
  destruct token as [t|]; [|done].
  destruct (bool_decide (t = [])); [done|apply syntax_error_terminates].
Qed.

Lemma Token_terminates T bp space convert L :
  Token T bp space convert L <> Exhausted.
Proof.
  unfold Token. apply bind_terminates; [done|]. intros L0 L1 [= <- <-].
  destruct (scan_quote _); [apply syntax_error_terminates|].
  apply bind_terminates; [done|]. intros [] L1 [= <-].
  apply bind_terminates; [|done].
  destruct space; [apply SkipSpace_terminates|done].
Qed.

Lemma remaining_rest L : remaining L = length (rest L).
Proof. unfold remaining. by rewrite rest_length. Qed.

Lemma remaining_advance L c r :
  rest L = c :: r -> remaining (advance 1 L) < remaining L.
Proof.
  intros H. rewrite !remaining_rest.
  pose proof (rest_advance L [c] r H) as H1. cbn [length] in H1.
  rewrite H1, H. simpl. lia.
Qed.

Lemma IsCharacter_remaining characters eoi_ok L c L' :
  IsCharacter characters false eoi_ok L = Ok (Some c, L') ->
  remaining L' < remaining L.
Proof.
  intros H. apply IsCharacter_inv in H as (r & Hr & _ & ->).
  by eapply remaining_advance.
Qed.

Lemma Key_brackets_terminates fuel : forall acc L,
  remaining L < fuel -> Key_brackets fuel acc L <> Exhausted.
Proof.
  induction fuel as [|fuel IH]; intros acc L Hfuel; [lia|].
  cbn [Key_brackets].
  apply bind_terminates; [apply IsCharacter_terminates|].
  intros open L1 Hopen. destruct open as [c|].
  - rewrite bool_decide_true by eauto.
    apply IsCharacter_remaining in Hopen.
    apply bind_terminates; [apply Token_terminates|].
    intros index L2 Hi%Token_reads%reads_remaining.
    apply bind_terminates; [apply IsCharacter_terminates|].
    intros close L3 Hc%IsCharacter_reads%reads_remaining.
    apply IH. lia.
  - by rewrite bool_decide_false by (by intros [? ?]).
Qed.

Lemma Key_name_terminates here acc L : Key_name here acc L <> Exhausted.
Proof.
  unfold Key_name. apply bind_terminates; [apply Token_terminates|].
  intros name L1 _. destruct (truthy name).
  - apply bind_terminates; [apply IsCharacter_terminates|].
    intros paren L2 _. apply bind_terminates; [done|].
    intros L3 L4 [= <- <-].
    destruct (lookup_alias name L2); [by destruct (_ && _)|done].
  - apply bind_terminates; [apply IsCharacter_terminates|].
    intros bracket L2 _. destruct (negb _); [|done].
    apply bind_terminates.
    { destruct (bool_decide (acc = [])); [apply IsCharacter_terminates|done]. }
    intros dot L3 _. apply bind_terminates.
    { destruct (bool_decide (is_Some dot)); [|done].
      apply bind_terminates; [done|]. intros eoi L4 _.
      destruct eoi; [done|].
      apply bind_terminates; [apply IsCharacter_terminates|done]. }
    intros whole L4 _.
    destruct whole; [done|apply syntax_error_terminates].
Qed.

Lemma budget_remaining L : remaining L < budget L.
Proof. unfold remaining, budget. lia. Qed.

Lemma Key_loop_terminates fuel : forall acc L,
  remaining L < fuel -> Key_loop fuel acc L <> Exhausted.
Proof.
  induction fuel as [|fuel IH]; intros acc L Hfuel; [lia|].
  cbn [Key_loop]. apply bind_terminates; [done|].
  intros eoi L1 [= <- <-].
  destruct (length (_expr L) <=? _position L)%nat; [done|].
  apply bind_terminates; [done|]. intros here L2 [= <- <-].
  apply bind_terminates; [apply Key_name_terminates|].
  intros step L3 H3%Key_name_reads%reads_remaining.
  destruct step as [acc1|]; [|done].
  apply bind_terminates; [done|]. intros eoi L4 [= <- <-].
  destruct (length (_expr L3) <=? _position L3)%nat; [done|].
  apply bind_terminates; [apply IsCharacter_terminates|].
  intros close L5 H5%IsCharacter_reads%reads_remaining.
  destruct (bool_decide (is_Some close)); [apply syntax_error_terminates|].
  apply bind_terminates; [done|]. intros L6 L7 [= <- <-].
  apply bind_terminates;
    [apply Key_brackets_terminates, budget_remaining|].
  intros acc2 L8 H8%Key_brackets_reads%reads_remaining.
  apply bind_terminates; [apply IsCharacter_terminates|].
  intros dot L9 Hdot. destruct dot as [c|].
  - rewrite bool_decide_true by eauto. cbn [negb].
    apply IsCharacter_remaining in Hdot.
    apply bind_terminates; [done|]. intros eoi L10 [= <- <-].
    destruct (length (_expr L9) <=? _position L9)%nat;
      [apply syntax_error_terminates|].
    apply IH. lia.
  - by rewrite bool_decide_false by (by intros [? ?]).
Qed.

Lemma Token_remaining T bp space convert L v L' :
  Token T bp space convert L = Ok (v, L') -> is_none v = false ->
  remaining L' < remaining L.
Proof.
  intros H Hv. apply Token_inv in H as (_ & -> & Hr & _).
  apply reads_remaining in Hr.
  assert (is_Some (scan_token (Token_scan T bp L))) as Hs.
  { destruct (scan_token _); [eauto|done]. }
  unfold Token_scan in *. fold (rest L) in *.
  apply Token_loop_progress in Hs.
  pose proof (Token_loop_bounds T bp _ (rest L) (_position L) None false
                None 0 (le_n _)) as Hb.
  pose proof (rest_length L).
  unfold remaining in *. simpl in Hr. lia.
Qed.

Lemma Args_loop_terminates fuel : forall convert required args L,
  remaining L < fuel -> Args_loop fuel convert required args L <> Exhausted.
Proof.
  induction fuel as [|fuel IH]; intros convert required args L Hfuel; [lia|].
  cbn [Args_loop]. apply bind_terminates; [done|].
  intros here L1 [= <- <-].
  apply bind_terminates; [apply Token_terminates|].
  intros arg L2 Htok.
  apply bind_terminates; [apply IsCharacter_terminates|].
  intros end_ L3 H3. pose proof (IsCharacter_reads _ _ _ _ _ _ H3) as Hr3.
  apply reads_remaining in Hr3.
  destruct (is_none arg) eqn:Harg; cbn [negb].
  - destruct end_ as [c|].
    + rewrite bool_decide_true by eauto. cbn [negb].
      destruct required; cbn [orb].
      * apply bind_terminates; [apply syntax_error_terminates|].
        intros ? ? E. by apply syntax_error_raises in E.
      * apply bind_terminates; [done|]. by intros ? ? [= <- <-].
    + rewrite bool_decide_false by (by intros [? ?]). cbn [negb].
      rewrite orb_true_r.
      apply bind_terminates; [apply syntax_error_terminates|].
      intros ? ? E. by apply syntax_error_raises in E.
  - apply bind_terminates; [done|]. intros args1 L4 [= <- <-].
    destruct (bool_decide (is_Some end_)); [done|].
    apply bind_terminates; [apply IsCharacter_terminates|].
    intros comma L5 H5%IsCharacter_reads%reads_remaining.
    apply IH. pose proof (Token_remaining _ _ _ _ _ _ _ Htok Harg). lia.
Qed.

Lemma Args_terminates convert L : Args convert L <> Exhausted.
Proof.
  unfold Args. apply bind_terminates; [done|]. intros L0 L1 [= <- <-].
  apply Args_loop_terminates, budget_remaining.
Qed.

Lemma Key_terminates L : Key L <> Exhausted.
Proof.
  unfold Key. apply bind_terminates; [done|]. intros L0 L1 [= <- <-].
  apply Key_loop_terminates, budget_remaining.
Qed.

Lemma split_kwargs_terminates parsed : forall args kwargs,
  split_kwargs parsed args kwargs <> Exhausted.
Proof.
  induction parsed as [|arg parsed IH]; intros args kwargs; [done|].
  cbn [split_kwargs]. destruct arg; try done.
  destruct (partition "=" s) as [[n sep] val]. by destruct sep.
Qed.

Lemma _ParseTransform_terminates PAD func_name active mt restr L :
  _ParseTransform PAD func_name active mt restr L <> Exhausted.
Proof.
  unfold _ParseTransform. apply bind_terminates; [done|].
  intros here L1 [= <- <-]. apply bind_terminates; [done|].
  intros L2 L3 [= <- <-].
  destruct (lookup_symbol func_name L) as [[n f]|];
    [|apply syntax_error_terminates].
  apply bind_terminates; [|by intros [a k] L4 _].
  destruct (func_defaults f).
  - apply bind_terminates; [apply Args_terminates|]. intros parsed L4 _.
    pose proof (split_kwargs_terminates parsed
      match func_doc f with
      | Some doc => if truthy (VStr doc) && contains doc PAD
                    then [] ++ [VProjectionSpec] else []
      | None => []
      end ∅) as Hs.
    by destruct (split_kwargs _ _ _).
  - apply bind_terminates; [apply Args_terminates|done].
Qed.

(** What [_ParseTransform] returns: the call of the symbol of the name,
    with the flags it was given, after an argument list. *)
Lemma _ParseTransform_inv PAD func_name level mt restr L t L' :
  _ParseTransform PAD func_name level mt restr L = Ok (t, L') ->
  lookup_symbol func_name L = Some (name t, func t) /\
  active t = level /\ map_transform t = mt /\ restriction t = restr /\
  reads L L' /\ _position L < _position L' /\
  _position L' <= length (_expr L).
Proof.
  unfold _ParseTransform. intros H.
  apply bind_inv in H as (here & L1 & [= <- <-] & H).
  apply bind_inv in H as (L2 & L3 & [= <- <-] & H).
  destruct (lookup_symbol func_name L) as [[n f]|];
    [|by apply syntax_error_raises in H].
  apply bind_inv in H as ([a k] & L4 & Hargs & [= <- <-]).
  split_and!; [done..| | |];
    (destruct (func_defaults f);
     apply bind_inv in Hargs as (parsed & L5 & HA%Args_reads & Hargs);
     [destruct (split_kwargs _ _ _) as [r| |]; try done;
      injection Hargs as _ <-
     |injection Hargs as _ _ <-]; tauto).
Qed.

Section Transform_loop.

Variable PAD : str.
Variables TransformAlways TransformMap TransformIf : pyfunc.

Lemma Transform_loop_terminates fuel : forall func_name level restr here
    calls mt L,
  remaining L < fuel ->
  Transform_loop PAD TransformAlways TransformMap TransformIf fuel func_name
    level restr here calls mt L <> Exhausted.
Proof.
  induction fuel as [|fuel IH]; intros func_name level restr here calls mt L
    Hfuel; [lia|].
  cbn [Transform_loop].
  apply bind_terminates; [apply _ParseTransform_terminates|].
  intros t L1 H1. apply _ParseTransform_inv in H1 as (_ & _ & _ & _ & H1 & Hlt & Hle).
  assert (remaining L1 < remaining L) as Hrem.
  { destruct H1 as (E & _). unfold remaining. rewrite E. lia. }
  apply bind_terminates.
  { unfold on_calls, SetConditional, Add.
    destruct (func_eqb _ _); [done|]. destruct (func_eqb _ _); [done|].
    destruct (func_eqb _ _); [|done].
    destruct (args t) as [|expr [|? ?]];
      [apply syntax_error_terminates|done|apply syntax_error_terminates]. }
  intros [[[fn' level'] mt'] calls'] L2 H2.
  assert (L2 = L1) as ->.
  { unfold on_calls, SetConditional, Add, mbind, M_bind, mret, M_ret in H2.
    destruct (func_eqb _ _); [by injection H2 as _ _ _ _ <-|].
    destruct (func_eqb _ _); [by injection H2 as _ _ _ _ <-|].
    destruct (func_eqb _ _); [|by injection H2 as _ _ _ _ <-].
    destruct (args t) as [|expr [|? ?]];
      [by apply syntax_error_raises in H2| |
       by apply syntax_error_raises in H2].
    by injection H2 as _ _ _ _ <-. }
  apply bind_terminates; [apply IsCharacter_terminates|].
  intros dot L3 H3%IsCharacter_reads%reads_remaining.
  destruct (negb _); [done|].
  apply bind_terminates; [apply Key_terminates|].
  intros key L4 H4%Key_reads%reads_remaining.
  apply bind_terminates; [done|]. intros here' L5 [= <- <-].
  apply bind_terminates; [apply IsCharacter_terminates|].
  intros paren L6 H6%IsCharacter_reads%reads_remaining.
  destruct (negb _); [apply syntax_error_terminates|].
  destruct key as [|fn'' [|? ?]].
  - destruct (join_key []); [apply syntax_error_terminates|done].
  - apply IH. lia.
  - destruct (join_key _); [apply syntax_error_terminates|done].
Qed.

Lemma Transform_loop_calls fuel : forall func_name level restr here
    calls mt L chain L',
  Transform_loop PAD TransformAlways TransformMap TransformIf fuel func_name
    level restr here calls mt L = Ok (chain, L') ->
  reads L L' /\
  exists new,
    _transforms chain = _transforms calls ++ new /\
    Forall (resolved (_defaults L) TransformAlways TransformMap TransformIf)
      new.
Proof.
  induction fuel as [|fuel IH]; intros func_name level restr here calls mt
    L chain L' H; [done|].
  cbn [Transform_loop] in H.
  apply bind_inv in H as (t & L1 & Hparse & H).
  apply _ParseTransform_inv in Hparse as (Hsym & _ & _ & _ & H1 & _ & _).
  assert (symbols (_defaults L) !! string_of_list_ascii (name t) =
          Some (func t)) as Hsym'.
  { unfold lookup_symbol in Hsym. destruct func_name; try done.
    destruct (symbols (_defaults L) !! string_of_list_ascii s) eqn:E;
      [|done].
    cbn in Hsym. by simplify_eq. }
  clear Hsym.
  apply bind_inv in H as ([[[fn' level'] mt'] calls'] & L2 & Hcase & H).
  assert (L2 = L1 /\
          (_transforms calls' = _transforms calls \/
           _transforms calls' = _transforms calls ++ [t] /\
           resolved (_defaults L) TransformAlways TransformMap TransformIf t))
    as [-> Hcalls].
  { unfold on_calls, SetConditional, Add, mbind, M_bind, mret, M_ret in Hcase.
    destruct (func_eqb (func t) TransformAlways) eqn:EA;
      [cbv beta in Hcase; simplify_eq; by auto|].
    destruct (func_eqb (func t) TransformMap) eqn:EM;
      [cbv beta in Hcase; simplify_eq; by auto|].
    destruct (func_eqb (func t) TransformIf) eqn:EI.
    - destruct (args t) as [|expr [|? ?]];
        [by apply syntax_error_raises in Hcase| |
         by apply syntax_error_raises in Hcase].
      cbv beta in Hcase. simplify_eq. by auto.
    - cbv beta in Hcase. simplify_eq. split; [done|]. right.
      split; [done|]. by unfold resolved. }
  assert (reads L1 L' /\
          exists new', _transforms chain = _transforms calls' ++ new' /\
            Forall (resolved (_defaults L) TransformAlways TransformMap
                      TransformIf) new') as (H1' & new' & Hchain & Hnew').
  { apply bind_inv in H as (dot & L3 & H3%IsCharacter_reads & H).
    destruct (negb (bool_decide (is_Some dot))).
    - injection H as <- <-. split; [done|]. exists [].
      by rewrite app_nil_r.
    - apply bind_inv in H as (key & L4 & H4%Key_reads & H).
      apply bind_inv in H as (here' & L5 & [= <- <-] & H).
      apply bind_inv in H as (paren & L6 & H6%IsCharacter_reads & H).
      destruct (negb (bool_decide (is_Some paren)));
        [by apply syntax_error_raises in H|].
      assert (reads L1 L6) as H16 by eauto using reads_trans.
      destruct key as [|fn'' [|? ?]].
      + destruct (join_key []); [by apply syntax_error_raises in H|done].
      + apply IH in H as (Hr & new' & ? & Hall).
        split; [eauto using reads_trans|]. exists new'. split; [done|].
        destruct H16 as (_ & D16 & _). destruct H1 as (_ & D1 & _).
        by rewrite D16, D1 in Hall.
      + destruct (join_key _); [by apply syntax_error_raises in H|done]. }
  split; [eauto using reads_trans|].
  destruct Hcalls as [Hc|[Hc Hres]]; rewrite Hc in Hchain.
  - by exists new'.
  - exists (t :: new'). rewrite <- app_assoc in Hchain. split; [done|].
    by constructor.
Qed.

End Transform_loop.

(** ** Quotes *)

Lemma quote_char q : char_in q _QUOTES = true -> q = squote \/ q = dquote.
Proof.
  unfold char_in, _QUOTES. cbn [existsb]. rewrite orb_false_r.
  intros [H|H]%orb_true_iff; apply Ascii.eqb_eq in H; auto.
Qed.

Lemma quote_noesc q : char_in q _QUOTES = true -> Ascii.eqb q _ESCAPE = false.
Proof. by intros [-> | ->]%quote_char. Qed.

(** Inside a quote, every character other than the quote and the escape
    is appended to the token. *)
Lemma Token_loop_in_quote T bp q body r : forall i quoted t pc,
  forallb (quotable q) body = true ->
  Token_loop T bp (body ++ r) i (Some q) quoted (Some t) pc =
  Token_loop T bp r (i + length body) (Some q) quoted (Some (t ++ body)) pc.
Proof.
  induction body as [|c body IH]; intros i quoted t pc Hb.
  - cbn [app length]. by rewrite app_nil_r, Nat.add_0_r.
  - cbn [forallb] in Hb. apply andb_true_iff in Hb as [Hc Hb].
    unfold quotable in Hc. apply andb_true_iff in Hc as [Hq He].
    apply negb_true_iff in Hq, He.
    cbn [app]. rewrite Token_loop_noesc by done.
    rewrite Token_char_inside by (by apply Ascii.eqb_neq).
    cbv beta iota. unfold append. cbn [default]. rewrite IH by done.
    rewrite <- app_assoc. cbn [app length]. f_equal. lia.
Qed.

Lemma Token_scan_open T bp q s :
  char_in q _QUOTES = true ->
  Token_scan T bp (lexer (q :: s)) =
  Token_loop T bp s 1 (Some q) true (Some []) 0.
Proof.
  intros Hq. unfold Token_scan. fold (rest (lexer (q :: s))).
  rewrite rest_lexer. rewrite Token_loop_noesc by (by apply quote_noesc).
  by rewrite Token_char_open.
Qed.

(** * Further properties *)

(** X1. The loops of [Key] end on every lexer: [Key] returns a key or
    raises an exception, and never uses up the iteration budget of the
    model. *)
Theorem Key_returns_or_raises (L : Lexer) :
  (exists key L', Key L = Ok (key, L')) \/ (exists e, Key L = Raise e).
Proof.
  pose proof (Key_terminates L) as H.
  destruct (Key L) as [[key L']|e|]; [left|right|done]; eauto.
Qed.

(** X2. The loop of [Args] ends on every lexer: [Args] returns the
    argument list or raises an exception. *)
Theorem Args_returns_or_raises (convert : bool) (L : Lexer) :
  (exists args L', Args convert L = Ok (args, L')) \/
  (exists e, Args convert L = Raise e).
Proof.
  pose proof (Args_terminates convert L) as H.
  destruct (Args convert L) as [[a L']|e|]; [left|right|done]; eauto.
Qed.

(** X3. The loop of [Transform] ends on every lexer, whatever the symbols
    and the combinators are: [Transform] returns a chain or raises an
    exception. *)
Theorem Transform_returns_or_raises (PROJECTION_ARG_DOC : str)
    (TransformAlways TransformMap TransformIf : pyfunc)
    (func_name : value) (level : option Z) (restr : bool) (L : Lexer) :
  (exists chain L',
     Transform PROJECTION_ARG_DOC TransformAlways TransformMap TransformIf
       func_name level restr L = Ok (chain, L')) \/
  (exists e,
     Transform PROJECTION_ARG_DOC TransformAlways TransformMap TransformIf
       func_name level restr L = Raise e).
Proof.
  assert (Transform PROJECTION_ARG_DOC TransformAlways TransformMap
            TransformIf func_name level restr L <> Exhausted) as H.
  { unfold Transform. apply bind_terminates; [done|].
    intros here L1 [= <- <-]. apply bind_terminates; [done|].
    intros L2 L3 [= <- <-].
    apply Transform_loop_terminates, budget_remaining. }
  destruct (Transform _ _ _ _ _ _ _ _) as [[c L']|e|];
    [left|right|done]; eauto.
Qed.

(** X4. The methods that read tokens only move the cursor forward: after
    [Token], [Args], [Key] and [Transform] return, the expression and the
    defaults are the ones before the call, the cursor has not moved back
    and, when it was inside the expression, it still is; [Args] and
    [Transform] have read at least one character. *)
Theorem lexer_methods_read_forward :
  (forall T bp space convert L v L',
     Token T bp space convert L = Ok (v, L') -> reads L L') /\
  (forall convert L args L',
     Args convert L = Ok (args, L') ->
     reads L L' /\ _position L < _position L') /\
  (forall L key L', Key L = Ok (key, L') -> reads L L') /\
  (forall PAD TA TM TI func_name level restr L chain L',
     Transform PAD TA TM TI func_name level restr L = Ok (chain, L') ->
     reads L L' /\ _position L < _position L').
Proof.
  split_and!.
  - apply Token_reads.
  - intros convert L args L' H. apply Args_reads in H. tauto.
  - apply Key_reads.
  - intros PAD TA TM TI func_name level restr L chain L' H.
    unfold Transform in H.
    apply bind_inv in H as (here & L1 & [= <- <-] & H).
    apply bind_inv in H as (L2 & L3 & [= <- <-] & H).
    pose proof (Transform_loop_calls _ _ _ _ _ _ _ _ _ _ _ _ _ _ H)
      as [Hr _].
    split; [done|].
    unfold budget in H. cbn [Transform_loop] in H.
    apply bind_inv in H as (t & L1 & Hparse & H).
    apply _ParseTransform_inv in Hparse as (_ & _ & _ & _ & _ & Hlt & _).
    apply bind_inv in H as (x & L2 & Hcase & H).
    assert (L2 = L1) as ->.
    { unfold on_calls, SetConditional, Add, mbind, M_bind, mret, M_ret
        in Hcase.
      destruct (func_eqb _ _); [by simplify_eq|].
      destruct (func_eqb _ _); [by simplify_eq|].
      destruct (func_eqb _ _); [|by simplify_eq].
      destruct (args t) as [|expr [|? ?]];
        [by apply syntax_error_raises in Hcase| |
         by apply syntax_error_raises in Hcase].
      by simplify_eq. }
    destruct x as [[[fn' level'] mt'] calls'].
    apply bind_inv in H as (dot & L3 & H3%IsCharacter_reads & H).
    destruct (negb (bool_decide (is_Some dot))).
    + injection H as _ <-. destruct H3 as (_ & _ & ? & _). lia.
    + apply bind_inv in H as (key & L4 & H4%Key_reads & H).
      apply bind_inv in H as (here' & L5 & [= <- <-] & H).
      apply bind_inv in H as (paren & L6 & H6%IsCharacter_reads & H).
      destruct (negb (bool_decide (is_Some paren)));
        [by apply syntax_error_raises in H|].
      destruct key as [|fn'' [|? ?]].
      * destruct (join_key []); [by apply syntax_error_raises in H|done].
      * apply Transform_loop_calls in H as [H _].
        destruct H3 as (_ & _ & ? & _), H4 as (_ & _ & ? & _),
          H6 as (_ & _ & ? & _), H as (_ & _ & ? & _). lia.
      * destruct (join_key _); [by apply syntax_error_raises in H|done].
Qed.

Lemma lexer_methods_read_forward_witness :
  Key (lexer "a.b") = Ok ([VStr "a"; VStr "b"], set_position 3 (lexer "a.b")) /\
  reads (lexer "a.b") (set_position 3 (lexer "a.b")).
Proof.
  assert (Key (lexer "a.b") =
          Ok ([VStr "a"; VStr "b"], set_position 3 (lexer "a.b"))) as H
    by (vm_compute; reflexivity).
  destruct lexer_methods_read_forward as (_ & _ & HK & _).
  exact (conj H (HK _ _ _ H)).
Defined.

(** X5. Every call of a chain that [Transform] returns is resolved: its
    function is the symbol of its name in the defaults of the lexer, and
    it is none of the combinators [always], [map] and [if], which are
    never kept as calls. *)
Theorem Transform_calls_resolved (PROJECTION_ARG_DOC : str)
    (TransformAlways TransformMap TransformIf : pyfunc)
    (func_name : value) (level : option Z) (restr : bool)
    (L L' : Lexer) (chain : _Transform) :
  Transform PROJECTION_ARG_DOC TransformAlways TransformMap TransformIf
    func_name level restr L = Ok (chain, L') ->
  Forall (resolved (_defaults L) TransformAlways TransformMap TransformIf)
    (_transforms chain).
Proof.
  unfold Transform. intros H.
  apply bind_inv in H as (here & L1 & [= <- <-] & H).
  apply bind_inv in H as (L2 & L3 & [= <- <-] & H).
  apply Transform_loop_calls in H as (_ & new & Hnew & Hall).
  by rewrite Hnew.
Qed.

Lemma Transform_calls_resolved_witness :
  Transform " projection: The parent ProjectionSpec." sample_always
    sample_map sample_if (VStr "upper") (Some 0%Z) true
    sample_restriction_lexer =
  Ok (sample_restriction_chain, set_position 13 sample_restriction_lexer) /\
  Forall (resolved sample_defaults sample_always sample_map sample_if)
    (_transforms sample_restriction_chain).
Proof.
  assert (Transform " projection: The parent ProjectionSpec." sample_always
            sample_map sample_if (VStr "upper") (Some 0%Z) true
            sample_restriction_lexer =
          Ok (sample_restriction_chain,
              set_position 13 sample_restriction_lexer)) as H
    by reflexivity.
  exact (conj H (Transform_calls_resolved _ _ _ _ _ _ _ _ _ _ H)).
Defined.

(** X6. A quote that is not closed is a syntax error: on a quote
    character followed by characters that are neither that quote nor the
    escape, [Token] raises the unterminated quote error that names the
    quote, annotated at the start of the expression, whatever the
    terminators and flags are. *)
Theorem Token_unterminated_quote (T : str) (bp space convert : bool)
    (q : ascii) (body : str) :
  char_in q _QUOTES = true -> forallb (quotable q) body = true ->
  Token T bp space convert (lexer (q :: body)) =
  Raise (ExpressionSyntaxError (UnterminatedQuote q)
           ("*HERE* " ++ q :: body)).
Proof.
  intros Hq Hb.
  assert (scan_quote (Token_scan T bp (lexer (q :: body))) = Some q) as Hs.
  { rewrite Token_scan_open by done.
    rewrite <- (app_nil_r body) at 1.
    by rewrite Token_loop_in_quote, Token_loop_end by done. }
  unfold Token, mbind at 1, M_bind at 1, get_lexer. rewrite Hs.
  unfold syntax_error, mbind, M_bind, Annotate, raise, annotate.
  by destruct (quote_char q Hq) as [-> | ->].
Qed.

Lemma Token_unterminated_quote_witness :
  char_in squote _QUOTES = true /\
  forallb (quotable squote) "abc" = true /\
  Token [] false true false (lexer (squote :: "abc")) =
  Raise (ExpressionSyntaxError (UnterminatedQuote squote)
           ("*HERE* " ++ squote :: "abc")).
Proof.
  exact (conj eq_refl (conj eq_refl
    (Token_unterminated_quote [] false true false squote "abc"
       eq_refl eq_refl))).
Defined.

(** X7. Between quotes every character is an ordinary one: on a quote,
    characters that are neither that quote nor the escape, and the same
    quote again, [Token] returns exactly these characters as a string,
    to the end of the expression, whatever the terminators and the flags
    are; terminators, white space, parentheses and digits between the
    quotes neither end the token nor are converted. *)
Theorem Token_quoted_verbatim (T : str) (bp space convert : bool)
    (q : ascii) (body : str) :
  char_in q _QUOTES = true -> forallb (quotable q) body = true ->
  returned_at (Token T bp space convert (lexer (q :: body ++ [q]))) =
  Ok (VStr body, length (q :: body ++ [q])).
Proof.
  intros Hq Hb. set (L := lexer (q :: body ++ [q])).
  assert (Token_scan T bp L =
          {| scan_i := _position L + length (q :: body ++ [q]);
             scan_quote := None; scan_quoted := true;
             scan_token := Some body |}) as Hs.
  { unfold L. rewrite Token_scan_open by done.
    rewrite Token_loop_in_quote by done.
    rewrite Token_loop_noesc by (by apply quote_noesc).
    rewrite Token_char_close, Token_loop_end. cbn [app length _position lexer Lexer_init].
    f_equal. rewrite length_app. cbn [length]. lia. }
  assert (rest (advance (length (q :: body ++ [q])) L) = []) as Hend.
  { apply (rest_advance L (q :: body ++ [q]) []).
    unfold L. by rewrite rest_lexer, app_nil_r. }
  assert (Token T bp space convert L =
          Ok (VStr body, advance (length (q :: body ++ [q])) L)) as ->.
  { destruct space.
    - rewrite (Token_returns_space _ _ _ _ _ _ _ Hs); [|by rewrite Hend].
      unfold convert_token. by rewrite andb_false_r.
    - rewrite (Token_returns _ _ _ _ _ _ _ Hs).
      unfold convert_token. by rewrite andb_false_r. }
  done.
Qed.

Lemma Token_quoted_verbatim_witness :
  char_in squote _QUOTES = true /\
  forallb (quotable squote) "a b,(1)" = true /\
  returned_at (Token ",)" true true true (lexer (squote :: "a b,(1)" ++ [squote]))) =
  Ok (VStr "a b,(1)", 9).
Proof.
  exact (conj eq_refl (conj eq_refl
    (Token_quoted_verbatim ",)" true true true squote "a b,(1)"
       eq_refl eq_refl))).
Defined.

Lemma Token_char_none T bp c quoted :
  match Token_char T bp c None quoted None 0 with
  | Break => char_in c T = true
  | Continue q' qd' tok' pc' =>
      tok' = None -> isspace c = true /\ q' = None /\ qd' = quoted /\ pc' = 0%Z
  end.
Proof.
  unfold Token_char, append. cbn [is_quote].
  rewrite bool_decide_true by done. cbn [andb].
  destruct (char_in c _QUOTES); [done|].
  destruct (bp && char_in c "()").
  { destruct (Ascii.eqb c "("); [done|].
    destruct (char_in c T); [done|]. done. }
  change (0 =? 0)%Z with true. cbn [andb].
  destruct (char_in c T); [done|].
  rewrite bool_decide_false by (by intros [? ?]). cbn [orb andb].
  rewrite orb_false_r. destruct (isspace c); [|done]. cbn [negb].
  by intros _.
Qed.

(** A scan that finds no token has only read white space, up to the end
    of the input or to a terminator. *)
Lemma Token_loop_none T bp s : forall i quoted,
  scan_token (Token_loop T bp s i None quoted None 0) = None ->
  exists ws r,
    s = ws ++ r /\ forallb isspace ws = true /\ starts_in T r = true /\
    Token_loop T bp s i None quoted None 0 =
    {| scan_i := i + length ws; scan_quote := None; scan_quoted := quoted;
       scan_token := None |}.
Proof.
  induction s as [|c s IH]; intros i quoted H.
  { exists [], []. by rewrite Nat.add_0_r. }
  assert (Token_loop T bp (c :: s) i None quoted None 0 =
          match Token_char T bp c None quoted None 0 with
          | Break => {| scan_i := i; scan_quote := None;
                        scan_quoted := quoted; scan_token := None |}
          | Continue quote quoted token pc =>
              Token_loop T bp s (i + 1) quote quoted token pc
          end) as E.
  { destruct (Ascii.eqb c _ESCAPE) eqn:Hc;
      [|by apply Token_loop_noesc].
    apply Ascii.eqb_eq in Hc as ->. destruct s as [|c' s]; [done|].
    exfalso. rewrite Token_loop_esc in H.
    pose proof (Token_loop_token T bp _ s (i + 1 + 1) None quoted
                  (Token_escape None None c') 0 (le_n _)) as Ht.
    rewrite H in Ht. destruct Ht as [? ?]; [|done].
    unfold Token_escape, append. by destruct (_ && _). }
  rewrite E in *. pose proof (Token_char_none T bp c quoted) as Hc.
  destruct (Token_char T bp c None quoted None 0) as [|q' qd' tok' pc'].
  - exists [], (c :: s). by rewrite Nat.add_0_r.
  - destruct tok' as [t|].
    { pose proof (Token_loop_token T bp _ s (i + 1) q' qd' (Some t) pc'
                    (le_n _) ltac:(eauto)) as Ht.
      rewrite H in Ht. by destruct Ht. }
    destruct (Hc eq_refl) as (Hs & -> & -> & ->).
    destruct (IH _ _ H) as (ws & r & -> & Hws & Hr & ->).
    exists (c :: ws), r. cbn [forallb app length]. rewrite Hs, Hws.
    split_and!; try done. f_equal. lia.
Qed.

Lemma count_space_app ws r :
  forallb isspace ws = true -> count_space (ws ++ r) = length ws + count_space r.
Proof.
  induction ws as [|c ws IH]; [done|]. cbn [forallb app count_space length].
  intros [-> H]%andb_true_iff. by rewrite IH.
Qed.

Lemma count_space_spaces s :
  forallb isspace (firstn (count_space s) s) = true.
Proof.
  induction s as [|c s IH]; [done|]. cbn [count_space].
  destruct (isspace c) eqn:E; [|done]. cbn [firstn forallb]. by rewrite E.
Qed.

Lemma count_space_stop s c r :
  skipn (count_space s) s = c :: r -> isspace c = false.
Proof.
  induction s as [|d s IH]; [done|]. cbn [count_space].
  destruct (isspace d) eqn:E; [by apply IH|]. by intros [= -> _].
Qed.

Lemma rest_set_position L n :
  rest (set_position (_position L + n) L) = skipn n (rest L).
Proof. unfold rest, rest_from. simpl. by rewrite drop_drop. Qed.

Lemma SkipSpace_inv L b L' :
  SkipSpace None L = Ok (b, L') -> L' = advance (count_space (rest L)) L.
Proof.
  unfold SkipSpace. fold (rest L). unfold advance.
  by destruct (Nat.ltb _ _); intros [= _ <-].
Qed.

Lemma Token_cursor T bp space convert L v L' :
  Token T bp space convert L = Ok (v, L') ->
  let L1 := set_position (scan_i (Token_scan T bp L)) L in
  L' = if space then advance (count_space (rest L1)) L1 else L1.
Proof.
  unfold Token. intros H.
  apply bind_inv in H as (L0 & L1 & [= <- <-] & H).
  destruct (scan_quote (Token_scan T bp L));
    [by apply syntax_error_raises in H|].
  apply bind_inv in H as ([] & L1 & [= <-] & H).
  apply bind_inv in H as (b & L2 & Hs & [= <- <-]).
  destruct space; [by apply SkipSpace_inv in Hs|].
  by injection Hs as _ <-.
Qed.

(** X8. When [Token] returns [None], all that it has read is white space,
    and it has stopped at the end of the input or in front of a
    terminator (the terminators having no white space character): a
    caller that gets [None] has lost nothing of the expression. *)
Theorem Token_none_reads_space (T : str) (bp space convert : bool)
    (L L' : Lexer) :
  no_space T = true ->
  Token T bp space convert L = Ok (VNone, L') ->
  exists ws,
    rest L = ws ++ rest L' /\ forallb isspace ws = true /\
    starts_in T (rest L') = true.
Proof.
  intros HT H. pose proof (Token_cursor _ _ _ _ _ _ _ H) as Hcur.
  apply Token_inv in H as (_ & Hv & _ & _).
  assert (scan_token (Token_scan T bp L) = None) as Hnone.
  { unfold convert_token in Hv. destruct (scan_token _) as [t|]; [|done].
    destruct (_ && _); [|done].
    destruct (py_int t); [done|]. by destruct (py_float t). }
  unfold Token_scan in *. fold (rest L) in *.
  apply Token_loop_none in Hnone as (ws & r & Hrest & Hws & Hstart & E).
  rewrite E in *. cbn [scan_i] in *. cbv zeta in Hcur.
  assert (rest (set_position (_position L + length ws) L) = r) as H1.
  { rewrite rest_set_position, Hrest. apply drop_app_length. }
  assert (count_space r = 0) as Hns.
  { destruct r as [|c r']; [done|]. cbn [starts_in] in Hstart.
    unfold no_space in HT. apply negb_true_iff in HT.
    cbn [count_space]. destruct (isspace c) eqn:Ec; [|done].
    unfold char_in in Hstart. apply existsb_exists in Hstart as (d & Hd & He).
    apply Ascii.eqb_eq in He as <-.
    assert (existsb isspace T = true) as Hx
      by (apply existsb_exists; eauto).
    by rewrite Hx in HT. }
  assert (L' = set_position (_position L + length ws) L) as ->.
  { destruct space; [|done]. by rewrite H1, Hns, advance_0 in Hcur. }
  exists ws. rewrite H1. by rewrite Hrest.
Qed.

Lemma Token_none_reads_space_witness :
  no_space ",)" = true /\
  Token ",)" true true false (set_position 2 (lexer "f(  )")) =
    Ok (VNone, set_position 4 (lexer "f(  )")) /\
  exists ws,
    rest (set_position 2 (lexer "f(  )")) =
      ws ++ rest (set_position 4 (lexer "f(  )")) /\
    forallb isspace ws = true /\
    starts_in ",)" (rest (set_position 4 (lexer "f(  )"))) = true.
Proof.
  assert (Token ",)" true true false (set_position 2 (lexer "f(  )")) =
          Ok (VNone, set_position 4 (lexer "f(  )"))) as H
    by (vm_compute; reflexivity).
  exact (conj eq_refl (conj H
    (Token_none_reads_space ",)" true true false _ _ eq_refl H))).
Defined.

Lemma startswith_app name r : startswith (name ++ r) name = true.
Proof.
  induction name as [|c name IH]; [by destruct r|].
  cbn [app startswith]. by rewrite Ascii.eqb_refl, IH.
Qed.

(** X9. [IsString] matches whole words only.  On white space, the word
    [name] and the text [r], it returns whether [r] is empty or starts
    with white space or an opening parenthesis; the leading white space is
    read in every case, also when peeking or when there is no match, and
    the word itself only on a match without peeking. *)
Theorem IsString_whole_word (name ws r : str) (peek : bool) :
  name <> [] -> count_space name = 0 -> forallb isspace ws = true ->
  returned_at (IsString name peek (lexer (ws ++ name ++ r))) =
  Ok (ends_word r,
      length ws + (if ends_word r && negb peek then length name else 0)).
Proof.
  intros Hne Hname Hws. set (L := lexer (ws ++ name ++ r)).
  assert (count_space (rest L) = length ws) as Hc.
  { unfold L. rewrite rest_lexer, count_space_app by done.
    destruct name as [|c name]; [done|]. cbn [count_space app] in *.
    destruct (isspace c); [done|lia]. }
  set (L1 := set_position (length ws) L).
  assert (SkipSpace None L = Ok (true, L1)) as Hskip.
  { unfold SkipSpace. fold (rest L). rewrite Hc.
    assert (length ws < length (_expr L)) as Hlt.
    { unfold L. cbn. rewrite !length_app. destruct name; [done|].
      simpl. lia. }
    change (_position L) with 0. cbn [plus].
    by rewrite (proj2 (Nat.ltb_lt _ _) Hlt). }
  unfold IsString. rewrite (bind_Ok _ _ _ _ _ Hskip). cbn [negb].
  rewrite (bind_Ok _ _ _ _ _
             (eq_refl : GetPosition L1 = Ok (length ws, L1))).
  rewrite (bind_Ok _ _ _ _ _ (eq_refl : get_lexer L1 = Ok (L1, L1))).
  assert (rest_from (length ws) L1 = name ++ r) as H1.
  { unfold rest_from. cbn [_expr L1 set_position L lexer Lexer_init].
    apply drop_app_length. }
  assert (rest_from (length ws + length name) L1 = r) as H2.
  { unfold rest_from. cbn [_expr L1 set_position L lexer Lexer_init].
    rewrite <- drop_drop, drop_app_length. apply drop_app_length. }
  rewrite H1, startswith_app, H2. cbn [negb].
  destruct r as [|c r]; cbn [ends_word andb].
  - destruct peek; cbn [negb]; unfold mbind, M_bind, SetPosition, mret,
      M_ret, returned_at; cbn; f_equal; f_equal; lia.
  - destruct (isspace c || Ascii.eqb c "("); cbn [andb].
    + destruct peek; cbn [negb]; unfold mbind, M_bind, SetPosition, mret,
        M_ret, returned_at; cbn; f_equal; f_equal; lia.
    + unfold mret, M_ret, returned_at. cbn. f_equal. f_equal. lia.
Qed.

Lemma IsString_whole_word_witness :
  list_ascii_of_string "AND" <> [] /\
  count_space "AND" = 0 /\ forallb isspace "  " = true /\
  returned_at (IsString "AND" false (lexer ("  " ++ "AND" ++ "ROID x"))) =
    Ok (false, 2) /\
  returned_at (IsString "AND" false (lexer ("  " ++ "AND" ++ "(x)"))) =
    Ok (true, 5).
Proof.
  assert (list_ascii_of_string "AND" <> []) as Hne by discriminate.
  exact (conj Hne (conj eq_refl (conj eq_refl (conj
    (IsString_whole_word "AND" "  " "ROID x" false Hne eq_refl eq_refl)
    (IsString_whole_word "AND" "  " "(x)" false Hne eq_refl eq_refl))))).
Defined.





(** ** Argument lists *)

Lemma Token_char_arg c quoted token :
  arg_char c = true ->
  Token_char ",)" true c None quoted token 0 =
  Continue None quoted (append token [c]) 0.
Proof.
  unfold arg_char, plain. rewrite !andb_true_iff, !negb_true_iff.
  intros [[[[_ Hq] Hs] Ht] Hp]. unfold Token_char. decide_conditions.
  cbn [is_quote andb orb]. change (0 =? 0)%Z with true.
  by rewrite Hq, Hs, Ht, Hp.
Qed.

Lemma arg_char_noesc c : arg_char c = true -> Ascii.eqb c _ESCAPE = false.
Proof.
  unfold arg_char. intros [H _]%andb_true_iff. by eapply plain_noesc.
Qed.

Lemma Token_loop_arg w r i quoted token :
  forallb arg_char w = true ->
  Token_loop ",)" true (w ++ r) i None quoted token 0 =
  Token_loop ",)" true r (i + length w) None quoted (append_all token w) 0.
Proof.
  revert i token. induction w as [|c w IH]; intros i token Hw.
  - simpl. by rewrite Nat.add_0_r.
  - simpl in Hw. apply andb_true_iff in Hw as [Hc Hw].
    change ((c :: w) ++ r) with (c :: (w ++ r)).
    rewrite Token_loop_noesc by (by apply arg_char_noesc).
    rewrite Token_char_arg by done. rewrite IH by done.
    f_equal; [simpl; lia|].
    unfold append, append_all. destruct w; simpl; [done|].
    by rewrite <- app_assoc.
Qed.

(** The unquoted argument [a] in front of a comma or of the closing
    parenthesis. *)
Lemma Token_arg convert L a c r :
  is_arg a = true -> char_in c ",)" = true ->
  rest L = a ++ c :: r ->
  Token ",)" true true convert L =
  Ok (arg_value convert a, advance (length a) L).
Proof.
  intros Ha Hc HL. unfold is_arg in Ha.
  apply andb_true_iff in Ha as [Ha Hne].
  assert (Token_scan ",)" true L =
          {| scan_i := _position L + length a; scan_quote := None;
             scan_quoted := false; scan_token := Some a |}) as Hs.
  { unfold Token_scan. fold (rest L). rewrite HL.
    rewrite Token_loop_arg by done.
    assert (Ascii.eqb c _ESCAPE = false /\ isspace c = false /\
            Token_char ",)" true c None false (append_all None a) 0 = Break)
      as (He & _ & Hb).
    { apply orb_true_iff in Hc as [Hc|Hc].
      - apply Ascii.eqb_eq in Hc as ->. by vm_compute.
      - cbn [existsb] in Hc. rewrite orb_false_r in Hc.
        apply Ascii.eqb_eq in Hc as ->. by vm_compute. }
    rewrite Token_loop_noesc, Hb by done.
    destruct a; [|done]. by rewrite bool_decide_true in Hne. }
  rewrite (Token_returns_space _ _ _ _ _ _ _ Hs); [done|].
  rewrite (rest_advance _ _ _ HL). cbn [count_space].
  apply orb_true_iff in Hc as [Hc|Hc].
  - by apply Ascii.eqb_eq in Hc as ->.
  - cbn [existsb] in Hc. rewrite orb_false_r in Hc.
    by apply Ascii.eqb_eq in Hc as ->.
Qed.

Lemma arg_value_not_none convert a : is_none (arg_value convert a) = false.
Proof.
  unfold arg_value, convert_token. destruct (_ && _); [|done].
  destruct (py_int a); [done|]. by destruct (py_float a).
Qed.

Lemma ret_bind {A B} (a : A) (k : A -> M B) L : (mret a ≫= k) L = k a L.
Proof. reflexivity. Qed.

(** An argument and a comma: the loop goes on, and needs an argument. *)
Lemma Args_loop_comma fuel convert required acc L a r :
  is_arg a = true -> rest L = a ++ ","%char :: r ->
  Args_loop (S fuel) convert required acc L =
  Args_loop fuel convert true (acc ++ [arg_value convert a])
    (advance (length a + 1) L).
Proof.
  intros Ha HL. cbn [Args_loop].
  rewrite (bind_Ok _ _ _ _ _ (eq_refl : GetPosition L = Ok (_position L, L))).
  rewrite (bind_Ok _ _ _ _ _ (Token_arg convert L a ","%char r Ha eq_refl HL)).
  pose proof (rest_advance _ _ _ HL) as H1.
  rewrite (bind_Ok _ _ _ _ _
             (IsCharacter_miss _ ")" false false _ _ H1 eq_refl)).
  rewrite arg_value_not_none. cbn [negb].
  rewrite ret_bind.
  rewrite bool_decide_false by (by intros [? ?]).
  rewrite (bind_Ok _ _ _ _ _
             (IsCharacter_hit _ "," false _ _ H1 eq_refl)).
  by rewrite advance_advance.
Qed.

(** An argument and the closing parenthesis: the loop ends. *)
Lemma Args_loop_last fuel convert required acc L a r :
  is_arg a = true -> rest L = a ++ ")"%char :: r ->
  Args_loop (S fuel) convert required acc L =
  Ok (acc ++ [arg_value convert a], advance (length a + 1) L).
Proof.
  intros Ha HL. cbn [Args_loop].
  rewrite (bind_Ok _ _ _ _ _ (eq_refl : GetPosition L = Ok (_position L, L))).
  rewrite (bind_Ok _ _ _ _ _ (Token_arg convert L a ")"%char r Ha eq_refl HL)).
  pose proof (rest_advance _ _ _ HL) as H1.
  rewrite (bind_Ok _ _ _ _ _
             (IsCharacter_hit _ ")" false _ _ H1 eq_refl)).
  rewrite arg_value_not_none. cbn [negb].
  rewrite ret_bind.
  rewrite bool_decide_true by eauto.
  by rewrite advance_advance.
Qed.

(** The closing parenthesis where an argument could be. *)
Lemma Args_loop_close fuel convert required acc L r :
  rest L = ")"%char :: r ->
  Args_loop (S fuel) convert required acc L =
  if required
  then Raise (ExpressionSyntaxError ArgumentExpected
                (annotate (Some (_position L)) (advance 1 L)))
  else Ok (acc, advance 1 L).
Proof.
  intros HL. cbn [Args_loop].
  rewrite (bind_Ok _ _ _ _ _ (eq_refl : GetPosition L = Ok (_position L, L))).
  assert (Token_scan ",)" true L =
          {| scan_i := _position L + 0; scan_quote := None;
             scan_quoted := false; scan_token := None |}) as Hs.
  { unfold Token_scan. fold (rest L). rewrite HL.
    rewrite Token_loop_noesc by done. by rewrite Nat.add_0_r. }
  rewrite (bind_Ok _ _ _ _ _ (Token_returns_space _ _ convert _ _ _ _ Hs
             ltac:(by rewrite advance_0, HL))).
  rewrite advance_0.
  rewrite (bind_Ok _ _ _ _ _
             (IsCharacter_hit _ ")" false _ _ HL eq_refl)).
  cbn [convert_token is_none negb]. rewrite bool_decide_true by eauto.
  cbn [negb]. rewrite orb_false_r. destruct required; [|done].
  rewrite syntax_error_bind, syntax_error_within; [done|].
  apply rest_within in HL. cbn. lia.
Qed.

Lemma join_cons (sep : str) (a b : str) (l : list str) :
  join sep (a :: b :: l) = a ++ sep ++ join sep (b :: l).
Proof. reflexivity. Qed.

Lemma join_comma_length (l : list str) :
  length l <= S (length (join "," l)).
Proof.
  induction l as [|a [|b l] IH]; [simpl; lia|simpl; lia|].
  rewrite join_cons, !length_app.
  cbn [length list_ascii_of_string] in *. lia.
Qed.

Lemma Args_loop_join convert r : forall (l : list str) a fuel required acc L,
  forallb is_arg (a :: l) = true ->
  rest L = join "," (a :: l) ++ ")"%char :: r ->
  length l < fuel ->
  Args_loop fuel convert required acc L =
  Ok (acc ++ map (arg_value convert) (a :: l),
      advance (length (join "," (a :: l)) + 1) L).
Proof.
  induction l as [|b l IH]; intros a fuel required acc L Hl HL Hfuel;
    (destruct fuel as [|fuel]; [simpl in Hfuel; lia|]);
    cbn [forallb] in Hl; apply andb_true_iff in Hl as [Ha Hl].
  - by apply Args_loop_last with (r := r).
  - rewrite join_cons in *. rewrite <- !app_assoc in HL.
    cbn [list_ascii_of_string app] in HL.
    rewrite (Args_loop_comma _ _ _ _ _ a _ Ha HL).
    assert (rest (advance (length a + 1) L) =
            join "," (b :: l) ++ ")"%char :: r) as H1.
    { replace (length a + 1) with (length (a ++ [","%char]))
        by (rewrite length_app; simpl; lia).
      apply rest_advance. by rewrite HL, <- app_assoc. }
    rewrite (IH b); [|done|done|simpl in Hfuel; lia].
    rewrite advance_advance, <- app_assoc. cbn [map app].
    f_equal. f_equal. apply (f_equal (fun k => advance k L)).
    rewrite !length_app. cbn [list_ascii_of_string length]. lia.
Qed.

(** The arguments that are not converted are the strings as they are
    written. *)
Lemma Args_strings_joined (l : list str) (r : str) (L : Lexer) :
  forallb is_arg l = true ->
  rest L = join "," l ++ ")"%char :: r ->
  Args false L = Ok (map VStr l, advance (length (join "," l) + 1) L).
Proof.
  intros Hl HL. unfold Args.
  rewrite (bind_Ok _ _ _ _ _ (eq_refl : get_lexer L = Ok (L, L))).
  destruct l as [|a l].
  - unfold budget. by rewrite (Args_loop_close _ _ _ _ _ r).
  - rewrite (Args_loop_join false r l a _ false [] L); try done.
    pose proof (join_comma_length (a :: l)) as Hj.
    pose proof (rest_length L) as Hr. rewrite HL, length_app in Hr.
    unfold budget. cbn [length] in *. lia.
Qed.

(** X12. [Args] reads back what [','.join] writes: on unquoted arguments
    (non-empty, without escape, quote, white space, comma or parenthesis)
    separated by commas and followed by the closing parenthesis, it
    returns the arguments in order, each converted as an unquoted token,
    with the cursor after the parenthesis; the empty argument list is the
    parenthesis alone. *)
Theorem Args_join (convert : bool) (args : list str) (r : str) (L : Lexer) :
  forallb is_arg args = true ->
  rest L = join "," args ++ ")"%char :: r ->
  Args convert L =
  Ok (map (arg_value convert) args, advance (length (join "," args) + 1) L).
Proof.
  intros Hargs HL. unfold Args.
  rewrite (bind_Ok _ _ _ _ _ (eq_refl : get_lexer L = Ok (L, L))).
  destruct args as [|a args].
  - unfold budget. by rewrite (Args_loop_close _ _ _ _ _ r).
  - rewrite (Args_loop_join convert r args a _ false [] L); try done.
    pose proof (join_comma_length (a :: args)) as Hj.
    pose proof (rest_length L) as Hl. rewrite HL, length_app in Hl.
    unfold budget. cbn [length] in *. lia.
Qed.

Lemma Args_join_witness :
  forallb is_arg ["0" : str; "3" : str] = true /\
  Args true (set_position 6 (lexer "slice(0,3).x")) =
  Ok ([VInt 0; VInt 3], set_position 10 (lexer "slice(0,3).x")).
Proof.
  exact (conj eq_refl
    (Args_join true ["0" : str; "3" : str] ".x"
       (set_position 6 (lexer "slice(0,3).x")) eq_refl eq_refl)).
Defined.

Lemma Token_unconverted T bp space L v L' :
  Token T bp space false L = Ok (v, L') -> is_none v = false ->
  is_str v = true.
Proof.
  intros H Hv. apply Token_inv in H as (_ & -> & _).
  by destruct (scan_token _).
Qed.

Lemma previous_advance L c r :
  rest L = c :: r -> previous (advance 1 L) = Some c.
Proof.
  unfold previous, advance, rest, rest_from. cbn [_position _expr set_position].
  rewrite Nat.add_1_r. intros H.
  rewrite <- (Nat.add_0_r (_position L)), <- lookup_drop. by rewrite H.
Qed.

Lemma Args_loop_closed fuel : forall convert required acc L l L',
  Args_loop fuel convert required acc L = Ok (l, L') ->
  Forall (fun v => is_none v = false) acc ->
  (convert = false -> Forall (fun v => is_str v = true) acc) ->
  Forall (fun v => is_none v = false) l /\
  (convert = false -> Forall (fun v => is_str v = true) l) /\
  previous L' = Some ")"%char.
Proof.
  induction fuel as [|fuel IH]; intros convert required acc L l L' H Hacc Hstr;
    [done|].
  cbn [Args_loop] in H.
  apply bind_inv in H as (here & L1 & [= <- <-] & H).
  apply bind_inv in H as (arg & L2 & Htok & H).
  apply bind_inv in H as (end_ & L3 & Hend & H).
  apply IsCharacter_inv in Hend.
  apply bind_inv in H as (acc1 & L4 & Hargs & H).
  assert (L4 = L3 /\ Forall (fun v => is_none v = false) acc1 /\
          (convert = false -> Forall (fun v => is_str v = true) acc1))
    as (-> & Hacc1 & Hstr1).
  { destruct (is_none arg) eqn:Harg; cbn [negb] in Hargs.
    - destruct (_ || _); [by apply syntax_error_raises in Hargs|].
      by injection Hargs as <- <-.
    - injection Hargs as <- <-. split; [done|].
      split; [apply Forall_app; by auto|].
      intros ->. apply Forall_app. split; [by auto|].
      constructor; [|done]. by eapply Token_unconverted. }
  destruct end_ as [c|].
  - rewrite bool_decide_true in H by eauto. injection H as <- <-.
    destruct Hend as (r & Hrest & Hc & ->). split_and!; [done..|].
    rewrite (previous_advance _ _ _ Hrest). f_equal.
    apply orb_true_iff in Hc as [Hc|Hc]; [by apply Ascii.eqb_eq in Hc|done].
  - rewrite bool_decide_false in H by (by intros [? ?]).
    apply bind_inv in H as (comma & L5 & _ & H).
    by apply IH in H.
Qed.

(** Without conversion the arguments are strings. *)
Lemma Args_strings (L L' : Lexer) (l : list value) :
  Args false L = Ok (l, L') -> Forall (fun v => is_str v = true) l.
Proof.
  unfold Args. intros H.
  apply bind_inv in H as (L0 & L1 & [= <- <-] & H).
  apply Args_loop_closed in H as (_ & H & _); by auto.
Qed.

(** X13. What [Args] returns: no argument is [None], without conversion
    every argument is a string, and the character read last is the
    closing parenthesis. *)
Theorem Args_closed (convert : bool) (L L' : Lexer) (l : list value) :
  Args convert L = Ok (l, L') ->
  Forall (fun v => is_none v = false) l /\
  (convert = false -> Forall (fun v => is_str v = true) l) /\
  previous L' = Some ")"%char.
Proof.
  unfold Args. intros H.
  apply bind_inv in H as (L0 & L1 & [= <- <-] & H).
  by apply Args_loop_closed in H.
Qed.

Lemma Args_closed_witness :
  Args true (set_position 6 (lexer "slice(0,3).x")) =
  Ok ([VInt 0; VInt 3], set_position 10 (lexer "slice(0,3).x")) /\
  Forall (fun v => is_none v = false) [VInt 0; VInt 3] /\
  previous (set_position 10 (lexer "slice(0,3).x")) = Some ")"%char.
Proof.
  assert (Args true (set_position 6 (lexer "slice(0,3).x")) =
          Ok ([VInt 0; VInt 3], set_position 10 (lexer "slice(0,3).x")))
    as H by reflexivity.
  destruct (Args_closed _ _ _ _ H) as (H1 & _ & H2).
  exact (conj H (conj H1 H2)).
Defined.

(** The place of an argument holds a comma, or the closing parenthesis
    after a comma. *)
Lemma Args_loop_missing fuel convert required acc L c r :
  char_in c ",)" = true -> rest L = c :: r ->
  required = true \/ c = ","%char ->
  Args_loop (S fuel) convert required acc L =
  Raise (ExpressionSyntaxError ArgumentExpected
           (annotate (Some (_position L)) L)).
Proof.
  intros Hc HL Hreq.
  assert (c = ","%char \/ c = ")"%char) as Hc'.
  { apply orb_true_iff in Hc as [Hc|Hc]; [by apply Ascii.eqb_eq in Hc; auto|].
    cbn [existsb] in Hc. rewrite orb_false_r in Hc.
    apply Ascii.eqb_eq in Hc. by auto. }
  destruct Hc' as [->| ->].
  - cbn [Args_loop].
    rewrite (bind_Ok _ _ _ _ _
               (eq_refl : GetPosition L = Ok (_position L, L))).
    assert (Token_scan ",)" true L =
            {| scan_i := _position L + 0; scan_quote := None;
               scan_quoted := false; scan_token := None |}) as Hs.
    { unfold Token_scan. fold (rest L). rewrite HL.
      rewrite Token_loop_noesc by done. by rewrite Nat.add_0_r. }
    rewrite (bind_Ok _ _ _ _ _ (Token_returns_space _ _ convert _ _ _ _ Hs
               ltac:(by rewrite advance_0, HL))).
    rewrite advance_0.
    rewrite (bind_Ok _ _ _ _ _
               (IsCharacter_miss _ ")" false false _ _ HL eq_refl)).
    cbn [convert_token is_none negb].
    rewrite bool_decide_false by (by intros [? ?]). cbn [negb].
    rewrite orb_true_r.
    rewrite syntax_error_bind, syntax_error_within; [done|].
    apply rest_within in HL. cbn. lia.
  - destruct Hreq as [->|]; [|done].
    by rewrite (Args_loop_close _ _ _ _ _ r).
Qed.

Lemma Args_loop_with_commas convert c r : forall (l : list str) fuel required
    acc L,
  forallb is_arg l = true -> char_in c ",)" = true ->
  rest L = with_commas l ++ c :: r ->
  (l = [] -> required = true \/ c = ","%char) ->
  length l < fuel ->
  Args_loop fuel convert required acc L =
  Raise (ExpressionSyntaxError ArgumentExpected
           (annotate (Some (_position L + length (with_commas l))) L)).
Proof.
  induction l as [|a l IH]; intros fuel required acc L Hl Hc HL Hreq Hfuel;
    (destruct fuel as [|fuel]; [simpl in Hfuel; lia|]).
  - cbn [with_commas flat_map length app] in *. rewrite Nat.add_0_r.
    apply Args_loop_missing with (c := c) (r := r); auto.
  - cbn [forallb] in Hl. apply andb_true_iff in Hl as [Ha Hl].
    change (with_commas (a :: l)) with ((a ++ [","%char]) ++ with_commas l)
      in *.
    rewrite <- !app_assoc in HL. cbn [app] in HL.
    rewrite (Args_loop_comma _ _ _ _ _ a _ Ha HL).
    assert (rest (advance (length a + 1) L) = with_commas l ++ c :: r) as H1.
    { replace (length a + 1) with (length (a ++ [","%char]))
        by (rewrite length_app; simpl; lia).
      apply rest_advance. by rewrite HL, <- app_assoc. }
    rewrite (IH fuel); [|done|done|done|by auto|simpl in Hfuel; lia].
    f_equal. f_equal.
    replace (_position (advance (length a + 1) L) + length (with_commas l))
      with (_position L + length ((a ++ [","%char]) ++ with_commas l)); [done|].
    rewrite !length_app. unfold advance. simpl. lia.
Qed.

(** X14. A missing argument is a syntax error: after unquoted arguments
    that are each followed by a comma, a further comma, or the closing
    parenthesis when there is an argument in front of it, makes [Args]
    raise the argument expected error, annotated where the argument is
    missing. *)
Theorem Args_missing_argument (convert : bool) (l : list str) (c : ascii)
    (r : str) (L : Lexer) :
  forallb is_arg l = true -> char_in c ",)" = true ->
  (l = [] -> c = ","%char) ->
  rest L = with_commas l ++ c :: r ->
  Args convert L =
  Raise (ExpressionSyntaxError ArgumentExpected
           (annotate (Some (_position L + length (with_commas l))) L)).
Proof.
  intros Hl Hc Hreq HL. unfold Args.
  rewrite (bind_Ok _ _ _ _ _ (eq_refl : get_lexer L = Ok (L, L))).
  apply Args_loop_with_commas with (c := c) (r := r); [done..|by auto|].
  assert (length l <= length (with_commas l)) as Hlen.
  { clear. induction l as [|a l IH]; [done|].
    change (with_commas (a :: l)) with ((a ++ [","%char]) ++ with_commas l).
    rewrite !length_app. simpl. lia. }
  pose proof (rest_length L) as Hr. rewrite HL, length_app in Hr.
  unfold budget. simpl in Hr. lia.
Qed.

Lemma Args_missing_argument_witness :
  forallb is_arg ["1" : str] = true /\
  Args false (set_position 2 (lexer "f(1,)")) =
  Raise (ExpressionSyntaxError ArgumentExpected "f(1, *HERE* )").
Proof.
  exact (conj eq_refl
    (Args_missing_argument false ["1" : str] ")" []
       (set_position 2 (lexer "f(1,)")) eq_refl eq_refl
       (fun H => match H in _ = x return
                   match x with [] => _ | _ :: _ => True end with
                 | eq_refl => I end) eq_refl)).
Defined.

(** ** The exceptions of the lexer *)

Lemma bind_syntax_only {A B} (m : M A) (k : A -> M B) L :
  syntax_only (m L) ->
  (forall a L', m L = Ok (a, L') -> syntax_only (k a L')) ->
  syntax_only ((m ≫= k) L).
Proof.
  unfold mbind, M_bind. destruct (m L) as [[a L']| |]; [|done..].
  intros _ H. by apply H.
Qed.

Lemma reads_within L L' : reads L L' -> within L -> within L'.
Proof. unfold within. intros (E & _ & _ & H) Hw. rewrite E. auto. Qed.

Lemma reads_here L L' here :
  reads L L' -> here <= length (_expr L) -> here <= length (_expr L').
Proof. intros (E & _) H. by rewrite E. Qed.

Create HintDb within.
#[local] Hint Resolve reads_within reads_here reads_trans : within.

Lemma syntax_error_syntax_only {A} msg position L :
  default (_position L) position <= length (_expr L) ->
  syntax_only (syntax_error (A := A) msg position L).
Proof. intros H. by rewrite syntax_error_within. Qed.

Lemma IsCharacter_syntax_only characters peek eoi_ok L :
  within L -> syntax_only (IsCharacter characters peek eoi_ok L).
Proof.
  intros Hw. unfold IsCharacter. destruct (rest_from _ _) as [|c r].
  - destruct (_ || _); [done|]. by apply syntax_error_syntax_only.
  - destruct (negb (char_in c characters)); [done|]. by destruct (negb peek).
Qed.

Lemma SkipSpace_syntax_only token L :
  within L -> syntax_only (SkipSpace token L).
Proof.
  intros Hw. unfold SkipSpace. fold (rest L).
  destruct (Nat.ltb _ _); [done|].
  destruct token as [t|]; [|done]. destruct (bool_decide (t = [])); [done|].
  apply syntax_error_syntax_only. cbn.
  pose proof (count_space_length (rest L)). pose proof (rest_length L).
  unfold within in Hw. lia.
Qed.

Lemma Token_syntax_only T bp space convert L :
  within L -> syntax_only (Token T bp space convert L).
Proof.
  intros Hw. unfold Token. apply bind_syntax_only; [done|].
  intros L0 L1 [= <- <-].
  destruct (scan_quote _); [by apply syntax_error_syntax_only|].
  apply bind_syntax_only; [done|]. intros [] L1 [= <-].
  apply bind_syntax_only; [|done].
  destruct space; [|done]. apply SkipSpace_syntax_only.
  eapply reads_within; [apply Token_scan_reads|done].
Qed.

Lemma Key_brackets_syntax_only fuel : forall acc L,
  within L -> syntax_only (Key_brackets fuel acc L).
Proof.
  induction fuel as [|fuel IH]; intros acc L Hw; [done|].
  cbn [Key_brackets].
  apply bind_syntax_only; [by apply IsCharacter_syntax_only|].
  intros open L1 H1%IsCharacter_reads.
  destruct (bool_decide (is_Some open)); [|done].
  assert (within L1) as Hw1 by eauto with within.
  apply bind_syntax_only; [by apply Token_syntax_only|].
  intros index L2 H2%Token_reads.
  assert (within L2) as Hw2 by eauto with within.
  apply bind_syntax_only; [by apply IsCharacter_syntax_only|].
  intros close L3 H3%IsCharacter_reads.
  apply IH. eauto with within.
Qed.

Lemma Key_name_syntax_only here acc L :
  within L -> here <= length (_expr L) ->
  syntax_only (Key_name here acc L).
Proof.
  intros Hw Hhere. unfold Key_name.
  apply bind_syntax_only; [by apply Token_syntax_only|].
  intros name L1 H1%Token_reads.
  assert (within L1) as Hw1 by eauto with within.
  destruct (truthy name).
  - apply bind_syntax_only; [by apply IsCharacter_syntax_only|].
    intros paren L2 _. apply bind_syntax_only; [done|].
    intros L3 L4 [= <- <-].
    destruct (lookup_alias name L2); [by destruct (_ && _)|done].
  - apply bind_syntax_only; [by apply IsCharacter_syntax_only|].
    intros bracket L2 H2%IsCharacter_reads.
    assert (within L2) as Hw2 by eauto with within.
    destruct (negb _); [|done].
    apply bind_syntax_only.
    { destruct (bool_decide (acc = []));
        [by apply IsCharacter_syntax_only|done]. }
    intros dot L3 H3.
    assert (reads L2 L3) as H3'.
    { destruct (bool_decide (acc = []));
        [by apply IsCharacter_reads in H3|].
      injection H3 as _ <-. apply reads_refl. }
    assert (within L3) as Hw3 by eauto with within.
    apply bind_syntax_only.
    { destruct (bool_decide (is_Some dot)); [|done].
      apply bind_syntax_only; [done|]. intros eoi L4 [= _ <-].
      destruct eoi; [done|].
      apply bind_syntax_only; [by apply IsCharacter_syntax_only|done]. }
    intros whole L4 H4.
    assert (reads L3 L4) as H4'.
    { destruct (bool_decide (is_Some dot));
        [|injection H4 as _ <-; apply reads_refl].
      apply bind_inv in H4 as (eoi & L5 & [= _ <-] & H4).
      destruct eoi; [injection H4 as _ <-; apply reads_refl|].
      apply bind_inv in H4 as (op & L6 & H6%IsCharacter_reads & [= _ <-]).
      done. }
    destruct whole; [done|]. apply syntax_error_syntax_only. cbn.
    eauto 10 with within.
Qed.

Lemma Key_loop_syntax_only fuel : forall acc L,
  within L -> syntax_only (Key_loop fuel acc L).
Proof.
  induction fuel as [|fuel IH]; intros acc L Hw; [done|].
  cbn [Key_loop]. apply bind_syntax_only; [done|].
  intros eoi L1 [= <- <-].
  destruct (length (_expr L) <=? _position L)%nat; [done|].
  apply bind_syntax_only; [done|]. intros here L2 [= <- <-].
  apply bind_syntax_only; [by apply Key_name_syntax_only|].
  intros step L3 H3%Key_name_reads.
  assert (within L3) as Hw3 by eauto with within.
  destruct step as [acc1|]; [|done].
  apply bind_syntax_only; [done|]. intros eoi L4 [= <- <-].
  destruct (length (_expr L3) <=? _position L3)%nat; [done|].
  apply bind_syntax_only; [by apply IsCharacter_syntax_only|].
  intros close L5 H5%IsCharacter_reads.
  assert (within L5) as Hw5 by eauto with within.
  destruct (bool_decide (is_Some close)).
  { apply syntax_error_syntax_only. cbn. eauto 10 with within. }
  apply bind_syntax_only; [done|]. intros L6 L7 [= <- <-].
  apply bind_syntax_only; [by apply Key_brackets_syntax_only|].
  intros acc2 L8 H8%Key_brackets_reads.
  assert (within L8) as Hw8 by eauto with within.
  apply bind_syntax_only; [by apply IsCharacter_syntax_only|].
  intros dot L9 H9%IsCharacter_reads.
  assert (within L9) as Hw9 by eauto with within.
  destruct (negb _); [done|].
  apply bind_syntax_only; [done|]. intros eoi L10 [= <- <-].
  destruct (length (_expr L9) <=? _position L9)%nat;
    [by apply syntax_error_syntax_only|].
  by apply IH.
Qed.

Lemma Args_loop_syntax_only fuel : forall convert required acc L,
  within L -> syntax_only (Args_loop fuel convert required acc L).
Proof.
  induction fuel as [|fuel IH]; intros convert required acc L Hw; [done|].
  cbn [Args_loop]. apply bind_syntax_only; [done|].
  intros here L1 [= <- <-].
  apply bind_syntax_only; [by apply Token_syntax_only|].
  intros arg L2 H2%Token_reads.
  assert (within L2) as Hw2 by eauto with within.
  apply bind_syntax_only; [by apply IsCharacter_syntax_only|].
  intros end_ L3 H3%IsCharacter_reads.
  assert (within L3) as Hw3 by eauto with within.
  apply bind_syntax_only.
  { destruct (negb (is_none arg)); [done|]. destruct (_ || _); [|done].
    apply syntax_error_syntax_only. cbn. eauto 10 with within. }
  intros acc1 L4 H4.
  assert (L4 = L3) as ->.
  { destruct (negb (is_none arg)); [by injection H4 as _ <-|].
    destruct (_ || _); [by apply syntax_error_raises in H4|].
    by injection H4 as _ <-. }
  destruct (bool_decide (is_Some end_)); [done|].
  apply bind_syntax_only; [by apply IsCharacter_syntax_only|].
  intros comma L5 H5%IsCharacter_reads.
  apply IH. eauto with within.
Qed.

Lemma Args_syntax_only convert L :
  within L -> syntax_only (Args convert L).
Proof.
  intros Hw. unfold Args. apply bind_syntax_only; [done|].
  intros L0 L1 [= <- <-]. by apply Args_loop_syntax_only.
Qed.

Lemma Key_syntax_only L : within L -> syntax_only (Key L).
Proof.
  intros Hw. unfold Key. apply bind_syntax_only; [done|].
  intros L0 L1 [= <- <-]. by apply Key_loop_syntax_only.
Qed.

Lemma split_kwargs_strings parsed : forall acc kwargs,
  Forall (fun v => is_str v = true) parsed ->
  exists r, split_kwargs parsed acc kwargs = Ok r.
Proof.
  induction parsed as [|arg parsed IH]; intros acc kwargs Hp; [by eexists|].
  apply Forall_cons in Hp as [Harg Hp]. cbn [split_kwargs].
  destruct arg; try done.
  destruct (partition "=" s) as [[n sep] val]. destruct sep; by apply IH.
Qed.

Lemma _ParseTransform_syntax_only PAD func_name level mt restr L :
  within L ->
  syntax_only (_ParseTransform PAD func_name level mt restr L).
Proof.
  intros Hw. unfold _ParseTransform. apply bind_syntax_only; [done|].
  intros here L1 [= <- <-]. apply bind_syntax_only; [done|].
  intros L2 L3 [= <- <-].
  destruct (lookup_symbol func_name L) as [[n f]|];
    [|by apply syntax_error_syntax_only].
  apply bind_syntax_only; [|by intros [a k] L4 _].
  destruct (func_defaults f).
  - apply bind_syntax_only; [by apply Args_syntax_only|]. intros parsed L4 H.
    apply Args_strings in H.
    destruct (split_kwargs_strings parsed
      match func_doc f with
      | Some doc => if truthy (VStr doc) && contains doc PAD
                    then [] ++ [VProjectionSpec] else []
      | None => []
      end ∅ H) as [r ->]. done.
  - apply bind_syntax_only; [by apply Args_syntax_only|done].
Qed.

Lemma bind_syntax_or_type {A B} (m : M A) (k : A -> M B) L :
  syntax_only (m L) ->
  (forall a L', m L = Ok (a, L') -> syntax_or_type (k a L')) ->
  syntax_or_type ((m ≫= k) L).
Proof.
  unfold mbind, M_bind. destruct (m L) as [[a L']|e|]; [|by destruct e|done].
  intros _ H. by apply H.
Qed.

Lemma syntax_error_syntax_or_type {A} msg position L :
  default (_position L) position <= length (_expr L) ->
  syntax_or_type (syntax_error (A := A) msg position L).
Proof. intros H. by rewrite syntax_error_within. Qed.

Section Transform_exceptions.

Variable PAD : str.
Variables TransformAlways TransformMap TransformIf : pyfunc.

Lemma Transform_loop_syntax_or_type fuel : forall func_name level
    restr here calls mt L,
  within L -> here <= length (_expr L) ->
  syntax_or_type
    (Transform_loop PAD TransformAlways TransformMap TransformIf fuel
       func_name level restr here calls mt L).
Proof.
  induction fuel as [|fuel IH]; intros func_name level restr here calls mt L
    Hw Hhere; [done|].
  cbn [Transform_loop].
  apply bind_syntax_or_type; [by apply _ParseTransform_syntax_only|].
  intros t L1 H1. apply _ParseTransform_inv in H1 as (_ & _ & _ & _ & H1 & _).
  assert (within L1) as Hw1 by eauto with within.
  assert (here <= length (_expr L1)) as Hhere1 by eauto with within.
  apply bind_syntax_or_type.
  { unfold on_calls, SetConditional, Add.
    destruct (func_eqb _ _); [done|]. destruct (func_eqb _ _); [done|].
    destruct (func_eqb _ _); [|done].
    destruct (args t) as [|expr [|? ?]];
      [by apply syntax_error_syntax_only|done|
       by apply syntax_error_syntax_only]. }
  intros [[[fn' level'] mt'] calls'] L2 H2.
  assert (L2 = L1) as ->.
  { unfold on_calls, SetConditional, Add, mbind, M_bind, mret, M_ret in H2.
    destruct (func_eqb _ _); [by injection H2 as _ _ _ _ <-|].
    destruct (func_eqb _ _); [by injection H2 as _ _ _ _ <-|].
    destruct (func_eqb _ _); [|by injection H2 as _ _ _ _ <-].
    destruct (args t) as [|expr [|? ?]];
      [by apply syntax_error_raises in H2| |
       by apply syntax_error_raises in H2].
    by injection H2 as _ _ _ _ <-. }
  apply bind_syntax_or_type; [by apply IsCharacter_syntax_only|].
  intros dot L3 H3%IsCharacter_reads.
  assert (within L3) as Hw3 by eauto with within.
  destruct (negb _); [done|].
  apply bind_syntax_or_type; [by apply Key_syntax_only|].
  intros key L4 H4%Key_reads.
  assert (within L4) as Hw4 by eauto with within.
  apply bind_syntax_or_type; [done|]. intros here' L5 [= <- <-].
  apply bind_syntax_or_type; [by apply IsCharacter_syntax_only|].
  intros paren L6 H6%IsCharacter_reads.
  assert (within L6) as Hw6 by eauto with within.
  assert (_position L4 <= length (_expr L6)) as Hhere6
    by (eapply reads_here; [done|exact Hw4]).
  destruct (negb _); [by apply syntax_error_syntax_or_type|].
  destruct key as [|fn'' [|? ?]].
  - destruct (join_key []); [by apply syntax_error_syntax_or_type|done].
  - by apply IH.
  - destruct (join_key _); [by apply syntax_error_syntax_or_type|done].
Qed.

End Transform_exceptions.

Lemma bind_Raise {A B} (m : M A) (k : A -> M B) L e :
  m L = Raise e -> (m ≫= k) L = Raise e.
Proof. intros H. unfold mbind, M_bind. by rewrite H. Qed.

Lemma annotated_past here e :
  length e < here -> annotated here e = Raise IndexError.
Proof.
  intros H. unfold annotated. destruct here as [|before]; [lia|].
  by rewrite lookup_ge_None_2 by lia.
Qed.

(** With the cursor past the end of the expression, [Args] finds no
    token and no parenthesis, and the annotation of its error reads the
    character in front of the cursor. *)
Lemma Args_past_the_end convert L :
  length (_expr L) < _position L -> Args convert L = Raise IndexError.
Proof.
  intros H.
  assert (rest L = []) as Hrest.
  { unfold rest, rest_from. apply drop_ge. lia. }
  unfold Args.
  rewrite (bind_Ok _ _ _ _ _ (eq_refl : get_lexer L = Ok (L, L))).
  unfold budget. cbn [Args_loop].
  rewrite (bind_Ok _ _ _ _ _ (eq_refl : GetPosition L = Ok (_position L, L))).
  assert (Token_scan ",)" true L =
          {| scan_i := _position L + 0; scan_quote := None;
             scan_quoted := false; scan_token := None |}) as Hs.
  { unfold Token_scan. fold (rest L). rewrite Hrest.
    by rewrite Nat.add_0_r. }
  rewrite (bind_Ok _ _ _ _ _ (Token_returns_space _ _ convert _ _ _ _ Hs
             ltac:(by rewrite advance_0, Hrest))).
  rewrite advance_0. apply bind_Raise.
  unfold IsCharacter. fold (rest L). rewrite Hrest. cbn [orb].
  unfold syntax_error. apply bind_Raise. unfold Annotate. cbn [default].
  by rewrite annotated_past.
Qed.

(** X15. The exceptions of the lexer, for a cursor within the expression:
    [Token], [Key] and [Args] raise nothing but an
    [ExpressionSyntaxError], and [Transform] nothing but an
    [ExpressionSyntaxError] or a [TypeError]; the kwargs of a call are
    split from strings only, the first call of a chain is never asked for
    in an empty one, and the [TypeError] is that of a function name of
    several segments not all of which are strings.  A cursor past the end
    of the expression is another matter: the annotation of a syntax error
    then raises [IndexError]. *)
Theorem lexer_exceptions (PROJECTION_ARG_DOC : str)
    (TransformAlways TransformMap TransformIf : pyfunc) (L : Lexer) :
  within L ->
  (forall T bp space convert, syntax_only (Token T bp space convert L)) /\
  syntax_only (Key L) /\
  (forall convert, syntax_only (Args convert L)) /\
  (forall func_name level restr,
     syntax_or_type
       (Transform PROJECTION_ARG_DOC TransformAlways TransformMap TransformIf
          func_name level restr L)) /\
  (forall convert,
     Args convert (set_position (S (length (_expr L))) L) = Raise IndexError).
Proof.
  intros Hw. split_and!.
  - intros. by apply Token_syntax_only.
  - by apply Key_syntax_only.
  - intros. by apply Args_syntax_only.
  - intros. unfold Transform. apply bind_syntax_or_type; [done|].
    intros here L1 [= <- <-]. apply bind_syntax_or_type; [done|].
    intros L2 L3 [= <- <-]. by apply Transform_loop_syntax_or_type.
  - intros convert. apply Args_past_the_end. cbn. lia.
Qed.

Lemma lexer_exceptions_witness :
  within (lexer "a,") /\
  syntax_only (Args false (lexer "a,")) /\
  Args false (set_position 3 (lexer "a,")) = Raise IndexError.
Proof.
  assert (within (lexer "a,")) as H by (unfold within; cbn; lia).
  destruct (lexer_exceptions [] sample_always sample_map sample_if _ H)
    as (_ & _ & HA & _ & HI).
  exact (conj H (conj (HA false) (HI false))).
Defined.

(** A function name of two segments, the second an index, in the chain
    [upper().a[1](]: joining the segments for the error message raises a
    [TypeError]. *)
Example Transform_TypeError_example :
  Transform " projection: The parent ProjectionSpec." sample_always
    sample_map sample_if (VStr "upper") (Some 0%Z) false
    (set_position 6 (Lexer_init "upper().a[1](" (Some sample_defaults))) =
  Raise TypeError.
Proof. vm_compute. reflexivity. Qed.

(** ** The active level of a chain *)

Section Transform_active_level.

Variable PAD : str.
Variables TransformAlways TransformMap TransformIf : pyfunc.

Lemma Transform_loop_active fuel : forall func_name level restr
    here calls mt L chain L',
  Transform_loop PAD TransformAlways TransformMap TransformIf fuel func_name level restr here calls mt L =
  Ok (chain, L') ->
  exists new,
    _transforms chain = _transforms calls ++ new /\
    Forall (fun t => active t = level \/ active t = None) new.
Proof.
  induction fuel as [|fuel IH]; intros func_name level restr here calls mt
    L chain L' H; [done|].
  cbn [Transform_loop] in H.
  apply bind_inv in H as (t & L1 & Hparse & H).
  apply _ParseTransform_inv in Hparse as (_ & Hlevel & _).
  apply bind_inv in H as ([[[fn' level'] mt'] calls'] & L2 & Hcase & H).
  assert ((level' = level \/ level' = None) /\
          (_transforms calls' = _transforms calls \/
           _transforms calls' = _transforms calls ++ [t])) as [Hl Hcalls].
  { unfold on_calls, SetConditional, Add, mbind, M_bind, mret, M_ret in Hcase.
    destruct (func_eqb (func t) TransformAlways);
      [cbv beta in Hcase; simplify_eq; by auto|].
    destruct (func_eqb (func t) TransformMap);
      [cbv beta in Hcase; simplify_eq; by auto|].
    destruct (func_eqb (func t) TransformIf).
    - destruct (args t) as [|expr [|? ?]];
        [by apply syntax_error_raises in Hcase| |
         by apply syntax_error_raises in Hcase].
      cbv beta in Hcase. simplify_eq. by auto.
    - cbv beta in Hcase. simplify_eq. by auto. }
  assert (exists new', _transforms chain = _transforms calls' ++ new' /\
            Forall (fun t => active t = level \/ active t = None) new')
    as (new' & Hchain & Hnew').
  { apply bind_inv in H as (dot & L3 & _ & H).
    destruct (negb (bool_decide (is_Some dot))).
    - injection H as <- <-. exists []. by rewrite app_nil_r.
    - apply bind_inv in H as (key & L4 & _ & H).
      apply bind_inv in H as (here' & L5 & [= <- <-] & H).
      apply bind_inv in H as (paren & L6 & _ & H).
      destruct (negb (bool_decide (is_Some paren)));
        [by apply syntax_error_raises in H|].
      destruct key as [|fn'' [|? ?]].
      + destruct (join_key []); [by apply syntax_error_raises in H|done].
      + apply IH in H as (new' & ? & Hall). exists new'. split; [done|].
        eapply Forall_impl; [exact Hall|]. intros c [Hc|Hc]; [|by auto].
        destruct Hl as [->| ->]; by auto.
      + destruct (join_key _); [by apply syntax_error_raises in H|done]. }
  destruct Hcalls as [Hc|Hc]; rewrite Hc in Hchain.
  - by exists new'.
  - exists (t :: new'). rewrite <- app_assoc in Hchain. split; [done|].
    constructor; by auto.
Qed.

End Transform_active_level.

(** X16. A chain parsed at an active level is active at that level: every
    call of the chain that [Transform] returns has the level that was
    given, or [None] (after [always()]), so that [IsActive] at the level
    that was given is true of the chain, unless the chain is empty (the
    expression had combinators only). *)
Theorem Transform_active (PROJECTION_ARG_DOC : str)
    (TransformAlways TransformMap TransformIf : pyfunc)
    (func_name : value) (level : option Z) (restr : bool)
    (L L' : Lexer) (chain : _Transform) :
  Transform PROJECTION_ARG_DOC TransformAlways TransformMap TransformIf
    func_name level restr L = Ok (chain, L') ->
  Forall (fun t => active t = level \/ active t = None) (_transforms chain) /\
  IsActive level chain =
  Ok (negb (bool_decide (_transforms chain = [])), chain).
Proof.
  unfold Transform. intros H.
  apply bind_inv in H as (here & L1 & [= <- <-] & H).
  apply bind_inv in H as (L2 & L3 & [= <- <-] & H).
  apply Transform_loop_active in H as (new & Hnew & Hall).
  cbn [_Transform_init _transforms app] in Hnew. rewrite <- Hnew in Hall.
  split; [done|]. unfold IsActive, mbind, TM_bind, get_transforms.
  unfold _Transform_active. clear Hnew.
  destruct (_transforms chain) as [|t ts] eqn:E; [done|].
  rewrite bool_decide_false by done. rewrite E. cbn [negb].
  unfold mret, TM_ret.
  apply Forall_cons in Hall as [[->| ->] _]; [|done].
  unfold level_in. destruct level; [|done]. by rewrite bool_decide_true.
Qed.

Lemma Transform_active_witness :
  Transform " projection: The parent ProjectionSpec." sample_always
    sample_map sample_if (VStr "upper") (Some 0%Z) true
    sample_restriction_lexer =
  Ok (sample_restriction_chain, set_position 13 sample_restriction_lexer) /\
  IsActive (Some 0%Z) sample_restriction_chain =
  Ok (true, sample_restriction_chain).
Proof.
  assert (Transform " projection: The parent ProjectionSpec." sample_always
            sample_map sample_if (VStr "upper") (Some 0%Z) true
            sample_restriction_lexer =
          Ok (sample_restriction_chain,
              set_position 13 sample_restriction_lexer)) as H
    by reflexivity.
  exact (conj H (proj2 (Transform_active _ _ _ _ _ _ _ _ _ _ H))).
Defined.

(** X17. [MakeTransform] returns a chain of one call of [func]: evaluated
    on a subject, the chain calls [func] once, on the subject followed by
    the arguments, or on the arguments alone for a restriction; the chain
    has the name of the function, no conditional, and is active at level
    0 only. *)
Theorem MakeTransform_call (func_name : str) (f : pyfunc)
    (a : option (list value)) (k : option (gmap string value))
    (restr : bool) :
  exists calls,
    MakeTransform func_name f a k restr = Ok calls /\
    (forall obj,
       Evaluate obj calls =
       Ok (func_call f ((if restr then [] else [obj]) ++ default [] a)
             (default ∅ k), calls)) /\
    Name calls = Ok (func_name, calls) /\
    _Transform_conditional calls = Ok (None, calls) /\
    (forall level,
       IsActive level calls = Ok (bool_decide (level = Some 0%Z), calls)).
Proof.
  eexists. split; [reflexivity|]. split_and!.
  - intros obj. rewrite Evaluate_running. f_equal. f_equal.
    cbn [_transforms running fold_left app _Transform_init].
    unfold Evaluate_step, mapped, call. cbn.
    rewrite orb_true_r. by destruct restr.
  - done.
  - done.
  - intros level. unfold IsActive, mbind, TM_bind. by cbn.
Qed.

(** X18. After [SetRestriction], a chain whose first call is not
    list-mapped does not look at the subject: [Evaluate] returns the same
    value on every subject, since the first function is called on its
    arguments alone.  The calls after the first are kept as they are. *)
Theorem SetRestriction_Evaluate (self : _Transform) (t : _TransformCall)
    (ts : list _TransformCall) :
  _transforms self = t :: ts -> mapped t = false ->
  exists self',
    SetRestriction self = Ok (tt, self') /\
    _transforms self' = set_restriction t :: ts /\
    _conditional self' = _conditional self /\
    forall obj,
      Evaluate obj self' = Ok (running ts (call t []), self').
Proof.
  intros Hself Hmap. unfold SetRestriction. rewrite Hself.
  eexists. split; [reflexivity|]. split_and!; [done..|].
  intros obj. rewrite Evaluate_running. f_equal. f_equal.
  cbn [_transforms running fold_left]. f_equal.
  unfold Evaluate_step.
  change (mapped (set_restriction t)) with (mapped t). rewrite Hmap.
  cbn. by rewrite orb_true_r.
Qed.

Lemma SetRestriction_Evaluate_witness :
  exists self',
    SetRestriction sample_restriction_chain = Ok (tt, self') /\
    forall obj,
      returned_T (Evaluate obj self') =
      returned_T (Evaluate VNone self').
Proof.
  destruct (SetRestriction_Evaluate sample_restriction_chain
              (_TransformCall_init "upper" sample_upper (Some 0%Z)
                 (Some false) (Some []) (Some ∅) true)
              (tl (_transforms sample_restriction_chain))
              eq_refl eq_refl) as (self' & H & _ & _ & HE).
  exists self'. split; [exact H|]. intros obj. by rewrite !HE.
Defined.

(** ** White space and the annotation *)

(** X19. [SkipSpace] reads white space only, and all of it: what it has
    read when it returns is a run of white space characters; when it
    returns true the next character is not white space, and when it
    returns false the input is exhausted and no token was expected. *)
Theorem SkipSpace_stops (token : option str) (L L' : Lexer) (b : bool) :
  SkipSpace token L = Ok (b, L') ->
  exists ws,
    forallb isspace ws = true /\ rest L = ws ++ rest L' /\
    L' = advance (length ws) L /\
    if b then exists c r, rest L' = c :: r /\ isspace c = false
    else rest L' = [] /\ (forall t, token = Some t -> t = []).
Proof.
  unfold SkipSpace. fold (rest L). intros H.
  set (n := count_space (rest L)) in *.
  assert (rest (set_position (_position L + n) L) = skipn n (rest L)) as Hrest
    by apply rest_set_position.
  assert (length (firstn n (rest L)) = n) as Hlen.
  { rewrite length_firstn. pose proof (count_space_length (rest L)).
    unfold n. lia. }
  pose proof (rest_length (set_position (_position L + n) L)) as Hl.
  cbn [_expr _position set_position] in Hl.
  assert (forall L0, L0 = set_position (_position L + n) L ->
            forallb isspace (firstn n (rest L)) = true /\
            rest L = firstn n (rest L) ++ rest L0 /\
            L0 = advance (length (firstn n (rest L))) L) as Hcommon.
  { intros L0 ->. split; [apply count_space_spaces|].
    split; [by rewrite Hrest, firstn_skipn|]. by rewrite Hlen. }
  destruct (Nat.ltb _ _) eqn:Hlt.
  - injection H as <- <-. exists (firstn n (rest L)).
    destruct (Hcommon _ eq_refl) as (H1 & H2 & H3). split_and!; [done..|].
    apply Nat.ltb_lt in Hlt.
    rewrite Hrest in Hl |- *.
    destruct (skipn n (rest L)) as [|c r] eqn:E; [simpl in Hl; lia|].
    exists c, r. split; [done|]. unfold n in E.
    by apply count_space_stop in E.
  - apply Nat.ltb_ge in Hlt.
    assert (rest (set_position (_position L + n) L) = []) as Hnil.
    { apply length_zero_iff_nil. lia. }
    destruct token as [t|].
    + destruct (bool_decide (t = [])) eqn:Ht;
        [|by apply syntax_error_raises in H].
      apply bool_decide_eq_true in Ht as ->. injection H as <- <-.
      exists (firstn n (rest L)).
      destruct (Hcommon _ eq_refl) as (H1 & H2 & H3). split_and!; [done..|].
      by intros t [= <-].
    + injection H as <- <-. exists (firstn n (rest L)).
      destruct (Hcommon _ eq_refl) as (H1 & H2 & H3). split_and!; [done..|].
      by intros t [=].
Qed.

Lemma SkipSpace_stops_witness :
  SkipSpace None (lexer "  a b") = Ok (true, set_position 2 (lexer "  a b")) /\
  exists ws,
    forallb isspace ws = true /\
    rest (lexer "  a b") = ws ++ rest (set_position 2 (lexer "  a b")).
Proof.
  assert (SkipSpace None (lexer "  a b") =
          Ok (true, set_position 2 (lexer "  a b"))) as H by reflexivity.
  destruct (SkipSpace_stops _ _ _ _ H) as (ws & H1 & H2 & _).
  exact (conj H (ex_intro _ ws (conj H1 H2))).
Defined.

Lemma last_take_lookup (s : str) before c :
  s !! before = Some c -> last (firstn (S before) s) = Some c.
Proof.
  intros H. pose proof (lookup_lt_Some _ _ _ H) as Hlt.
  rewrite last_lookup, length_take.
  replace (Init.Nat.pred (S before `min` length s)) with before by lia.
  by rewrite lookup_take_lt by lia.
Qed.

Lemma ends_spaced_snoc (s : str) c :
  ends_spaced (s ++ [c]) = isspace c.
Proof. unfold ends_spaced. by rewrite last_snoc. Qed.

(** X20. The annotation of a position within the expression is the
    expression with the marker put in at the position, set off by white
    space on both sides: a blank is added on a side exactly when the
    expression has a character there that is not white space. *)
Theorem Annotate_spaced (position : option nat) (L : Lexer) :
  let here := default (_position L) position in
  here <= length (_expr L) ->
  exists before after,
    Annotate position L = Ok (before ++ marker ++ after, L) /\
    ends_spaced before = true /\ starts_spaced after = true /\
    (before = firstn here (_expr L) \/
     before = firstn here (_expr L) ++ [" "%char] /\
     ends_spaced (firstn here (_expr L)) = false) /\
    (after = skipn here (_expr L) \/
     after = " "%char :: skipn here (_expr L) /\
     starts_spaced (skipn here (_expr L)) = false).
Proof.
  intros here Hle. unfold Annotate. fold here. set (e := _expr L) in *.
  set (b1 := match here with
             | 0 => false
             | S before =>
                 match e !! before with
                 | Some c => negb (isspace c)
                 | None => false
                 end
             end).
  set (b2 := match e !! here with
             | Some c => negb (isspace c)
             | None => false
             end).
  assert (ends_spaced (firstn here e) = negb b1) as H1.
  { unfold b1, ends_spaced. destruct here as [|before]; [done|].
    destruct (lookup_lt_is_Some_2 e before ltac:(lia)) as [c Hc].
    rewrite Hc, (last_take_lookup _ _ _ Hc). by rewrite negb_involutive. }
  assert (starts_spaced (skipn here e) = negb b2) as H2.
  { unfold b2, starts_spaced. destruct (e !! here) as [c|] eqn:E.
    - rewrite (drop_S _ _ _ E). by rewrite negb_involutive.
    - rewrite drop_ge; [done|]. by apply lookup_ge_None. }
  assert (annotated here e =
          Ok (firstn here e ++
              ((if b1 then [" "%char] else []) ++ marker ++
               (if b2 then [" "%char] else [])) ++ skipn here e)) as ->.
  { unfold annotated, b1, b2, marker. destruct here as [|before].
    - destruct (e !! 0) as [c|]; [|done]. by destruct (negb (isspace c)).
    - destruct (lookup_lt_is_Some_2 e before ltac:(lia)) as [c ->].
      destruct (e !! S before) as [c'|];
        destruct (negb (isspace c)); try done;
        by destruct (negb (isspace c')). }
  destruct b1, b2; cbn [negb app] in *.
  - exists (firstn here e ++ [" "%char]), (" "%char :: skipn here e).
    split_and!; [|by rewrite ends_spaced_snoc|done|by auto..].
    by rewrite <- !app_assoc.
  - exists (firstn here e ++ [" "%char]), (skipn here e).
    split_and!; [|by rewrite ends_spaced_snoc|done|by auto..].
    rewrite app_nil_r. by rewrite <- !app_assoc.
  - exists (firstn here e), (" "%char :: skipn here e).
    split_and!; [|done|done|by auto..].
    by rewrite <- !app_assoc.
  - exists (firstn here e), (skipn here e). rewrite app_nil_r.
    split_and!; by auto.
Qed.

Lemma Annotate_spaced_witness :
  2 <= length (_expr (lexer "a.b")) /\
  exists before after,
    Annotate (Some 2) (lexer "a.b") =
    Ok (before ++ marker ++ after, lexer "a.b") /\
    ends_spaced before = true /\ starts_spaced after = true.
Proof.
  assert (2 <= length (_expr (lexer "a.b"))) as H
    by (apply Nat.leb_le; reflexivity).
  destruct (Annotate_spaced (Some 2) (lexer "a.b") H)
    as (before & after & H1 & H2 & H3 & _).
  exact (conj H (ex_intro _ before (ex_intro _ after (conj H1 (conj H2 H3))))).
Defined.

(** ** The string of a call *)

Lemma Key_function_name_lexer (n r : str) :
  n <> [] -> forallb isword n = true ->
  Key (lexer (n ++ "("%char :: r)) =
  Ok ([VStr n], advance (length n) (lexer (n ++ "("%char :: r))).
Proof.
  intros Hn Hw. pose proof (Key_function_name ProjectionSpec_empty n r Hn) as H.
  unfold canonical_name in H. rewrite Hw in H.
  change (Lexer_init (n ++ "("%char :: r) (Some ProjectionSpec_empty))
    with (lexer (n ++ "("%char :: r)) in H.
  destruct (Key (lexer (n ++ "("%char :: r))) as [[k L']| |] eqn:E; [|done..].
  apply Key_reads in E as (He & Hd & _).
  injection H as -> Hp. destruct L' as [e p d]. cbn in *. by subst.
Qed.

Lemma mapM_arg_text (l : list str) : mapM arg_text (map VStr l) = Some l.
Proof.
  induction l as [|a l IH]; [done|].
  change (mapM arg_text (map VStr (a :: l)))
    with (y ← arg_text (VStr a); k ← mapM arg_text (map VStr l);
          mret (y :: k)).
  by rewrite IH.
Qed.

(** X21. The lexer reads back the string of a call: for a call that is
    not list-mapped, whose name is a non-empty word and whose arguments
    are unquoted argument strings, [__str__] gives the name, a
    parenthesis and the arguments joined by commas, and on that string
    [Key], the parenthesis and [Args] give back the name as the only
    segment and the arguments. *)
Theorem call_str_read_back (t : _TransformCall) (l : list str) :
  mapped t = false -> name t <> [] -> forallb isword (name t) = true ->
  args t = map VStr l -> forallb is_arg l = true ->
  exists text,
    _TransformCall_str t = Ok text /\
    returned (read_call (lexer text)) = Ok ([VStr (name t)], args t).
Proof.
  intros Hm Hn Hw Ha Hl. unfold _TransformCall_str.
  rewrite Ha, mapM_arg_text, Hm. eexists. split; [reflexivity|].
  cbn [app list_ascii_of_string]. unfold read_call.
  set (text := name t ++ "("%char :: join "," l ++ [")"%char]).
  rewrite (bind_Ok _ _ _ _ _ (Key_function_name_lexer _ _ Hn Hw)).
  assert (rest (advance (length (name t)) (lexer text)) =
          "("%char :: join "," l ++ [")"%char]) as H1
    by (by apply rest_advance).
  rewrite (bind_Ok _ _ _ _ _ (IsCharacter_hit _ "(" false _ _ H1 eq_refl)).
  assert (rest (advance 1 (advance (length (name t)) (lexer text))) =
          join "," l ++ [")"%char]) as H2
    by (by apply (rest_advance _ ["("%char])).
  rewrite (bind_Ok _ _ _ _ _ (Args_strings_joined l [] _ Hl H2)).
  reflexivity.
Qed.

Lemma call_str_read_back_witness :
  exists text,
    _TransformCall_str
      (_TransformCall_init "slice" sample_slice (Some 0%Z) (Some false)
         (Some [VStr "0"; VStr "3"]) None false) = Ok text /\
    returned (read_call (lexer text)) =
    Ok ([VStr "slice"], [VStr "0"; VStr "3"]).
Proof.
  exact (call_str_read_back
    (_TransformCall_init "slice" sample_slice (Some 0%Z) (Some false)
       (Some [VStr "0"; VStr "3"]) None false)
    ["0" : str; "3" : str] eq_refl
    (fun H => match H in _ = x return
                match x with [] => False | _ :: _ => True end with
              | eq_refl => I end)
    eq_refl eq_refl eq_refl).
Defined.

(** ** A key in front of an operator *)

Lemma operator_not_quote c :
  char_in c _RESERVED_OPERATOR_CHARS = true ->
  Ascii.eqb c _ESCAPE = false /\ char_in c _QUOTES = false.
Proof.
  unfold char_in at 1. intros H.
  apply existsb_exists in H as (d & Hin & Hd).
  apply Ascii.eqb_eq in Hd as <-.
  cbn in Hin. decompose [or] Hin; subst; try done.
Qed.

Lemma key_end_cases s :
  key_end s = true ->
  s = [] \/
  exists c r, s = c :: r /\ char_in c _RESERVED_OPERATOR_CHARS = true /\
              c <> "."%char /\ c <> "["%char /\ c <> "]"%char.
Proof.
  destruct s as [|c r]; [by left|]. cbn [key_end].
  intros [Hop Hc]%andb_true_iff. right. exists c, r.
  apply negb_true_iff in Hc. unfold char_in in Hc.
  cbn [list_ascii_of_string existsb] in Hc.
  rewrite !orb_false_iff in Hc. destruct Hc as (H1 & H2 & H3 & _).
  apply Ascii.eqb_neq in H1, H2, H3. done.
Qed.

Lemma key_end_terminator s :
  key_end s = true -> at_terminator _RESERVED_OPERATOR_CHARS s = true.
Proof.
  intros [->|(c & r & -> & Hop & _)]%key_end_cases; [done|].
  destruct (operator_not_quote c Hop) as [He Hq].
  cbn [at_terminator]. by rewrite Hop, He, Hq.
Qed.

Lemma tail_suffix_terminator key s :
  forallb is_segment key = true -> key_end s = true ->
  at_terminator _RESERVED_OPERATOR_CHARS (canonical_tail key ++ s) = true.
Proof.
  intros Hwf Hs. destruct key as [|v key]; [by apply key_end_terminator|].
  destruct (canonical_tail_head (v :: key)) as (c & r & -> & [->| ->]);
    done.
Qed.

Lemma Key_brackets_suffix s key : forall fuel acc L,
  key_end s = true ->
  forallb is_segment key = true ->
  rest L = canonical_tail key ++ s ->
  length (canonical_tail key) < fuel ->
  Key_brackets fuel acc L =
  Ok (acc ++ leading_brackets key,
      advance (length (canonical_tail (leading_brackets key))) L).
Proof.
  induction key as [|v key IH]; intros fuel acc L Hs Hwf HL Hfuel.
  - destruct fuel as [|fuel]; [simpl in Hfuel; lia|]. cbn [Key_brackets].
    cbn [canonical_tail app] in HL.
    destruct (key_end_cases s Hs) as [->|(c & r & -> & _ & _ & Hb & _)].
    + rewrite (bind_Ok _ _ _ _ _ (IsCharacter_eoi L "[" false true HL eq_refl)).
      rewrite bool_decide_false by (by intros [? ?]).
      by rewrite app_nil_r, advance_0.
    + assert (char_in c "[" = false) as Hc.
      { unfold char_in. cbn [list_ascii_of_string existsb].
        rewrite orb_false_r. by apply Ascii.eqb_neq. }
      rewrite (bind_Ok _ _ _ _ _ (IsCharacter_miss L "[" false true _ _ HL Hc)).
      rewrite bool_decide_false by (by intros [? ?]).
      by rewrite app_nil_r, advance_0.
  - destruct fuel as [|fuel]; [lia|]. cbn [Key_brackets].
    simpl in Hwf. apply andb_true_iff in Hwf as [Hv Hwf].
    destruct v as [|z| |n| |]; try discriminate;
      cbn [canonical_tail is_name segment_text] in HL, Hfuel;
      cbn [leading_brackets is_name canonical_tail segment_text].
    + (* slice *)
      rewrite <- !app_assoc in HL. cbn [list_ascii_of_string app] in HL.
      rewrite (bind_Ok _ _ _ _ _ (IsCharacter_hit L "[" true _ _ HL eq_refl)).
      rewrite bool_decide_true by eauto.
      assert (rest (advance 1 L) = "]"%char :: canonical_tail key ++ s) as H1
        by (by apply (rest_advance L ["["%char])).
      rewrite (bind_Ok _ _ _ _ _ (Token_slice _ _ H1)).
      rewrite (bind_Ok _ _ _ _ _ (IsCharacter_hit _ "]" false _ _ H1 eq_refl)).
      rewrite IH; [|done|done| |].
      * rewrite <- app_assoc, !advance_advance.
        f_equal; f_equal; cbn [list_ascii_of_string app length]; lia.
      * by apply (rest_advance _ ["]"%char]).
      * cbn [list_ascii_of_string app length] in Hfuel. lia.
    + (* index *)
      rewrite <- !app_assoc in HL. cbn [list_ascii_of_string app] in HL.
      rewrite (bind_Ok _ _ _ _ _ (IsCharacter_hit L "[" true _ _ HL eq_refl)).
      rewrite bool_decide_true by eauto.
      assert (rest (advance 1 L) =
              str_of_Z z ++ "]"%char :: canonical_tail key ++ s)
        as H1 by (by apply (rest_advance L ["["%char])).
      rewrite (bind_Ok _ _ _ _ _ (Token_index _ _ _ H1)).
      pose proof (rest_advance _ _ _ H1) as H2.
      rewrite (bind_Ok _ _ _ _ _ (IsCharacter_hit _ "]" false _ _ H2 eq_refl)).
      rewrite <- !app_assoc, !length_app in Hfuel.
      cbn [list_ascii_of_string app length] in Hfuel.
      rewrite IH; [|done|done| |].
      * rewrite <- !app_assoc, !advance_advance, !length_app.
        f_equal; f_equal; cbn [list_ascii_of_string app length];
          rewrite ?length_app; cbn [length]; lia.
      * by apply (rest_advance _ ["]"%char]).
      * lia.
    + (* a name: the loop ends in front of its dot *)
      cbn [list_ascii_of_string app] in HL.
      rewrite (bind_Ok _ _ _ _ _ (IsCharacter_miss L "[" false true _ _ HL eq_refl)).
      rewrite bool_decide_false by (by intros [? ?]).
      by rewrite app_nil_r, advance_0.
Qed.

Lemma Key_loop_suffix s fuel : forall key acc L,
  key_end s = true -> aliases (_defaults L) = ∅ ->
  forallb is_segment key = true -> key <> [] ->
  rest L = canonical key ++ s ->
  length (canonical key) < fuel ->
  Key_loop fuel acc L = Ok (acc ++ key, advance (length (canonical key)) L).
Proof.
  induction fuel as [|fuel IH]; intros key acc L Hs Hal Hwf Hne HL Hfuel; [lia|].
  destruct key as [|v key]; [done|]. clear Hne.
  assert (exists acc1 key1 m,
    Key_name (_position L) acc L = Ok (Some acc1, advance m L) /\
    rest (advance m L) = canonical_tail key1 ++ s /\
    acc1 ++ key1 = acc ++ v :: key /\
    m + length (canonical_tail key1) = length (canonical (v :: key)) /\
    forallb is_segment key1 = true /\
    exists c r, rest L = c :: r) as
    (acc1 & key1 & m & Hname & H1 & Hkey & Hlen & Hwf1 & c & r & Hc).
  { pose proof Hwf as Hwf'. cbn [forallb] in Hwf'.
    apply andb_true_iff in Hwf' as [Hv Hwf'].
    destruct (is_name v) eqn:Hv'.
    - destruct v as [| | |n| |]; try discriminate.
      apply is_segment_name in Hv. cbn [canonical segment_text] in HL.
      rewrite <- app_assoc in HL.
      exists (acc ++ [VStr n]), key, (length (canonical_name n)).
      split_and!.
      + rewrite (Key_name_token L _ acc n (canonical_tail key ++ s));
          [|done|by apply tail_suffix_terminator|done].
        unfold name_segments. by rewrite lookup_alias_empty.
      + by apply rest_advance.
      + by rewrite <- app_assoc.
      + cbn [canonical segment_text]. by rewrite length_app.
      + done.
      + rewrite HL. pose proof (canonical_name_nonempty n Hv).
        destruct (canonical_name n); [done|]. cbn [app]. eauto.
    - rewrite canonical_bracket in HL by done.
      destruct (canonical_tail_head (v :: key)) as (c & r & Hc & Hh);
        [done..|].
      assert (c = "["%char) as ->.
      { destruct v; try discriminate; cbn in Hc; congruence. }
      rewrite Hc in HL. cbn [app] in HL.
      exists acc, (v :: key), 0. rewrite advance_0. split_and!.
      + by eapply Key_name_bracket.
      + by rewrite HL, Hc.
      + done.
      + by rewrite canonical_bracket.
      + done.
      + eauto. }
  rewrite <- Hkey, <- Hlen. clear Hkey.
  cbn [Key_loop].
  rewrite (bind_Ok _ _ _ _ _ (EndOfInput_cons _ _ _ Hc)).
  rewrite (bind_Ok _ _ _ _ _ (eq_refl : GetPosition L = Ok (_position L, L))).
  rewrite (bind_Ok _ _ _ _ _ Hname).
  destruct (canonical_tail key1 ++ s) as [|c1 r1] eqn:E1.
  { rewrite (bind_Ok _ _ _ _ _ (EndOfInput_nil _ H1)).
    apply app_eq_nil in E1 as [E1 _].
    assert (key1 = []) as ->.
    { destruct key1 as [|v1 k1]; [done|].
      by destruct (canonical_tail_head (v1 :: k1)) as (? & ? & ? & _);
        [done..|congruence]. }
    cbn [canonical_tail length]. by rewrite app_nil_r, Nat.add_0_r. }
  assert (c1 <> "]"%char) as Hc1.
  { destruct key1 as [|v1 k1].
    - cbn [canonical_tail app] in E1.
      destruct (key_end_cases s Hs) as [->|(c' & r' & -> & _ & _ & _ & H')];
        [done|congruence].
    - destruct (canonical_tail_head (v1 :: k1)) as (c' & r' & Hc' & Hh);
        [done..|].
      rewrite Hc' in E1. injection E1 as <- _. by destruct Hh as [->| ->]. }
  rewrite (bind_Ok _ _ _ _ _ (EndOfInput_cons _ _ _ H1)).
  assert (char_in c1 "]" = false) as Hc1'.
  { unfold char_in. cbn [list_ascii_of_string existsb].
    rewrite orb_false_r. by apply Ascii.eqb_neq. }
  rewrite (bind_Ok _ _ _ _ _ (IsCharacter_miss _ "]" false false _ _ H1 Hc1')).
  rewrite bool_decide_false by (by intros [? ?]).
  rewrite (bind_Ok _ _ _ _ _
             (eq_refl : get_lexer (advance m L) = Ok (advance m L, advance m L))).
  rewrite <- E1 in H1. clear E1 Hc1 Hc1' c1 r1.
  assert (length (canonical_tail key1) < budget (advance m L)) as Hb.
  { pose proof (rest_length (advance m L)) as Hr. rewrite H1 in Hr.
    rewrite length_app in Hr. unfold budget. lia. }
  rewrite (bind_Ok _ _ _ _ _
             (Key_brackets_suffix s key1 _ acc1 _ Hs Hwf1 H1 Hb)).
  rewrite advance_advance.
  set (lb := leading_brackets key1) in *. set (ab := after_brackets key1).
  assert (canonical_tail key1 = canonical_tail lb ++ canonical_tail ab) as Hsplit.
  { rewrite <- canonical_tail_app. f_equal. apply brackets_split. }
  assert (rest (advance (m + length (canonical_tail lb)) L) =
          canonical_tail ab ++ s) as H2.
  { rewrite <- advance_advance. apply rest_advance.
    by rewrite H1, Hsplit, <- app_assoc. }
  pose proof (is_segment_after key1 Hwf1) as Hwf2. fold ab in Hwf2.
  pose proof (brackets_split key1) as Hk. fold lb ab in Hk.
  rewrite Hsplit, length_app.
  destruct (after_brackets_name key1) as [E|(n' & k2 & E)]; fold ab in E;
    rewrite E in *.
  - cbn [canonical_tail app] in H2.
    assert (IsCharacter "." false true
              (advance (m + length (canonical_tail lb)) L) =
            Ok (None, advance (m + length (canonical_tail lb)) L)) as Hdot.
    { destruct (key_end_cases s Hs) as [->|(c' & r' & -> & _ & Hd & _)].
      - by apply IsCharacter_eoi.
      - eapply IsCharacter_miss; [done|]. unfold char_in.
        cbn [list_ascii_of_string existsb]. rewrite orb_false_r.
        by apply Ascii.eqb_neq. }
    rewrite (bind_Ok _ _ _ _ _ Hdot).
    rewrite bool_decide_false by (by intros [? ?]).
    rewrite Hk. cbn [negb canonical_tail length].
    by rewrite Nat.add_0_r, app_nil_r.
  - cbn [canonical_tail is_name segment_text list_ascii_of_string app] in H2.
    cbn [forallb] in Hwf2. apply andb_true_iff in Hwf2 as [Hn' Hwf2].
    apply is_segment_name in Hn'.
    rewrite (bind_Ok _ _ _ _ _ (IsCharacter_hit _ "." true _ _ H2 eq_refl)).
    rewrite bool_decide_true by eauto. cbn [negb].
    pose proof (rest_advance _ ["."%char] _ H2) as H3.
    rewrite advance_advance in H3. cbn [length] in H3.
    pose proof (canonical_name_nonempty n' Hn') as Hcn.
    assert (exists c3 r3,
              (canonical_name n' ++ canonical_tail k2) ++ s = c3 :: r3)
      as (c3 & r3 & E3).
    { destruct (canonical_name n'); [done|]. cbn [app]. eauto. }
    rewrite advance_advance.
    rewrite E3 in H3.
    rewrite (bind_Ok _ _ _ _ _ (EndOfInput_cons _ _ _ H3)).
    rewrite <- E3 in H3.
    rewrite (IH (VStr n' :: k2)); [|done|done| |done|done|].
    + rewrite advance_advance, Hk, <- !app_assoc. f_equal. f_equal.
      cbn [canonical canonical_tail is_name segment_text
             list_ascii_of_string app length].
      apply (f_equal (fun k => advance k L)). lia.
    + cbn [forallb]. apply andb_true_iff. split; [by destruct n'|done].
    + rewrite Hsplit, length_app in Hlen.
      cbn [canonical_tail is_name segment_text list_ascii_of_string app
             length] in Hlen.
      cbn [canonical segment_text]. lia.
Qed.

(** X22. A key within an expression: on the canonical string of a
    non-empty key path followed by the end of the input or by a reserved
    operator character other than the dot and the brackets, [Key] returns
    the key path and leaves the cursor in front of the operator, given
    that no alias is defined. *)
Theorem Key_stops_at_operator (key : list value) (s : str) (L : Lexer) :
  forallb is_segment key = true -> key <> [] -> key_end s = true ->
  aliases (_defaults L) = ∅ ->
  rest L = canonical key ++ s ->
  Key L = Ok (key, advance (length (canonical key)) L) /\
  rest (advance (length (canonical key)) L) = s.
Proof.
  intros Hwf Hne Hs Hal HL. split; [|by apply rest_advance].
  unfold Key.
  rewrite (bind_Ok _ _ _ _ _ (eq_refl : get_lexer L = Ok (L, L))).
  rewrite (Key_loop_suffix s _ key []); [done..|].
  pose proof (rest_length L) as Hr. rewrite HL, length_app in Hr.
  unfold budget. lia.
Qed.

Lemma Key_stops_at_operator_witness :
  forallb is_segment [VStr "a"; VInt 1; VStr "b"] = true /\
  key_end ":label" = true /\
  Key (lexer "a[1].b:label") =
  Ok ([VStr "a"; VInt 1; VStr "b"], set_position 6 (lexer "a[1].b:label")).
Proof.
  exact (conj eq_refl (conj eq_refl
    (proj1 (Key_stops_at_operator [VStr "a"; VInt 1; VStr "b"] ":label"
       (lexer "a[1].b:label") eq_refl
       (fun H => match H in _ = x return
                   match x with [] => False | _ :: _ => True end with
                 | eq_refl => I end)
       eq_refl eq_refl eq_refl)))).
Defined.

(** ** The string of a parsed chain *)

Lemma split_kwargs_printable parsed : forall acc kwargs a k,
  Forall (fun v => printable v = true) acc ->
  split_kwargs parsed acc kwargs = Ok (a, k) ->
  Forall (fun v => printable v = true) a.
Proof.
  induction parsed as [|arg parsed IH]; intros acc kwargs a k Hacc H.
  - by injection H as <- _.
  - cbn [split_kwargs] in H. destruct arg; try done.
    destruct (partition "=" s) as [[n sep] val]. destruct sep.
    + by eapply IH.
    + eapply IH; [|done]. apply Forall_app. split; [done|].
      by constructor.
Qed.

Lemma _ParseTransform_printable PAD func_name level mt restr L t L' :
  _ParseTransform PAD func_name level mt restr L = Ok (t, L') ->
  Forall (fun v => printable v = true) (args t).
Proof.
  unfold _ParseTransform. intros H.
  apply bind_inv in H as (here & L1 & [= <- <-] & H).
  apply bind_inv in H as (L2 & L3 & [= <- <-] & H).
  destruct (lookup_symbol func_name L) as [[n f]|];
    [|by apply syntax_error_raises in H].
  apply bind_inv in H as ([a k] & L4 & Hargs & [= <- <-]).
  cbn [args _TransformCall_init default].
  assert (Forall (fun v => printable v = true)
            match func_doc f with
            | Some doc => if truthy (VStr doc) && contains doc PAD
                          then [] ++ [VProjectionSpec] else []
            | None => []
            end) as Hfirst.
  { destruct (func_doc f); [|done]. destruct (_ && _); [|done].
    by constructor. }
  destruct (func_defaults f).
  - apply bind_inv in Hargs as (parsed & L5 & _ & Hsplit).
    destruct (split_kwargs parsed _ _) as [[a' k']| |] eqn:E; [|done..].
    injection Hsplit as <- <- <-.
    by eapply split_kwargs_printable.
  - apply bind_inv in Hargs as (parsed & L5 & Hparsed & [= <- <- <-]).
    apply Args_strings in Hparsed as Hstr.
    apply Forall_app. split; [done|].
    eapply Forall_impl; [exact Hstr|]. by intros [].
Qed.

Section Transform_printable.

Variable PAD : str.
Variables TransformAlways TransformMap TransformIf : pyfunc.

Lemma Transform_loop_printable fuel : forall func_name level restr here
    calls mt L chain L',
  Transform_loop PAD TransformAlways TransformMap TransformIf fuel func_name
    level restr here calls mt L = Ok (chain, L') ->
  exists new,
    _transforms chain = _transforms calls ++ new /\
    Forall (fun t => Forall (fun v => printable v = true) (args t)) new.
Proof.
  induction fuel as [|fuel IH]; intros func_name level restr here calls mt
    L chain L' H; [done|].
  cbn [Transform_loop] in H.
  apply bind_inv in H as (t & L1 & Hparse & H).
  apply _ParseTransform_printable in Hparse.
  apply bind_inv in H as ([[[fn' level'] mt'] calls'] & L2 & Hcase & H).
  assert (_transforms calls' = _transforms calls \/
          _transforms calls' = _transforms calls ++ [t]) as Hcalls.
  { unfold on_calls, SetConditional, Add, mbind, M_bind, mret, M_ret in Hcase.
    destruct (func_eqb (func t) TransformAlways);
      [cbv beta in Hcase; simplify_eq; by auto|].
    destruct (func_eqb (func t) TransformMap);
      [cbv beta in Hcase; simplify_eq; by auto|].
    destruct (func_eqb (func t) TransformIf).
    - destruct (args t) as [|expr [|? ?]];
        [by apply syntax_error_raises in Hcase| |
         by apply syntax_error_raises in Hcase].
      cbv beta in Hcase. simplify_eq. by auto.
    - cbv beta in Hcase. simplify_eq. by auto. }
  assert (exists new', _transforms chain = _transforms calls' ++ new' /\
            Forall (fun t => Forall (fun v => printable v = true) (args t))
              new') as (new' & Hchain & Hnew').
  { apply bind_inv in H as (dot & L3 & _ & H).
    destruct (negb (bool_decide (is_Some dot))).
    - injection H as <- <-. exists []. by rewrite app_nil_r.
    - apply bind_inv in H as (key & L4 & _ & H).
      apply bind_inv in H as (here' & L5 & [= <- <-] & H).
      apply bind_inv in H as (paren & L6 & _ & H).
      destruct (negb (bool_decide (is_Some paren)));
        [by apply syntax_error_raises in H|].
      destruct key as [|fn'' [|? ?]].
      + destruct (join_key []); [by apply syntax_error_raises in H|done].
      + by apply IH in H.
      + destruct (join_key _); [by apply syntax_error_raises in H|done]. }
  destruct Hcalls as [Hc|Hc]; rewrite Hc in Hchain.
  - by exists new'.
  - exists (t :: new'). rewrite <- app_assoc in Hchain. split; [done|].
    by constructor.
Qed.

End Transform_printable.

Lemma map_str_printable (transforms : list _TransformCall) :
  Forall (fun t => Forall (fun v => printable v = true) (args t)) transforms ->
  exists texts, map_str transforms = Ok texts.
Proof.
  induction transforms as [|t ts IH]; intros H; [by eexists|].
  apply Forall_cons in H as [Ht Hts]. cbn [map_str].
  assert (exists texts, mapM arg_text (args t) = Some texts) as [texts Ha].
  { clear -Ht. induction (args t) as [|v l IHl]; [by eexists|].
    apply Forall_cons in Ht as [Hv Hl]. destruct (IHl Hl) as [texts Hm].
    unfold printable in Hv. destruct (arg_text v) as [a|] eqn:Ea; [|done].
    exists (a :: texts).
    change (mapM arg_text (v :: l))
      with (y ← arg_text v; k ← mapM arg_text l; mret (y :: k)).
    by rewrite Ea, Hm. }
  unfold _TransformCall_str. rewrite Ha.
  destruct (IH Hts) as [rest_texts ->]. by eexists.
Qed.

(** X23. A chain that [Transform] returns can be written: every argument
    of every call is a string or the projection spec, so that [__str__]
    of the chain joins the strings of the calls and raises nothing. *)
Theorem Transform_str_returns (PROJECTION_ARG_DOC : str)
    (TransformAlways TransformMap TransformIf : pyfunc)
    (func_name : value) (level : option Z) (restr : bool)
    (L L' : Lexer) (chain : _Transform) :
  Transform PROJECTION_ARG_DOC TransformAlways TransformMap TransformIf
    func_name level restr L = Ok (chain, L') ->
  Forall (fun t => Forall (fun v => printable v = true) (args t))
    (_transforms chain) /\
  exists text, _Transform_str chain = Ok (text, chain).
Proof.
  unfold Transform. intros H.
  apply bind_inv in H as (here & L1 & [= <- <-] & H).
  apply bind_inv in H as (L2 & L3 & [= <- <-] & H).
  apply Transform_loop_printable in H as (new & Hnew & Hall).
  cbn [_Transform_init _transforms app] in Hnew. rewrite <- Hnew in Hall.
  split; [done|]. unfold _Transform_str.
  destruct (map_str_printable _ Hall) as [texts ->]. by eexists.
Qed.

Lemma Transform_str_returns_witness :
  Transform " projection: The parent ProjectionSpec." sample_always
    sample_map sample_if (VStr "upper") (Some 0%Z) true
    sample_restriction_lexer =
  Ok (sample_restriction_chain, set_position 13 sample_restriction_lexer) /\
  exists text,
    _Transform_str sample_restriction_chain =
    Ok (text, sample_restriction_chain).
Proof.
  assert (Transform " projection: The parent ProjectionSpec." sample_always
            sample_map sample_if (VStr "upper") (Some 0%Z) true
            sample_restriction_lexer =
          Ok (sample_restriction_chain,
              set_position 13 sample_restriction_lexer)) as H
    by reflexivity.
  exact (conj H (proj2 (Transform_str_returns _ _ _ _ _ _ _ _ _ _ H))).
Defined.


(** ** Chains of one function *)

Section Transform_calls.

Variable PAD : str.
Variables TransformAlways TransformMap TransformIf : pyfunc.

(** A call of a function without keyword arguments, on unquoted
    arguments. *)
Lemma _ParseTransform_plain n f level mt restr l r L :
  symbols (_defaults L) !! string_of_list_ascii n = Some f ->
  func_defaults f = false ->
  forallb is_arg l = true ->
  rest L = join "," l ++ ")"%char :: r ->
  _ParseTransform PAD (VStr n) level mt restr L =
  Ok (_TransformCall_init n f level mt
        (Some (projection_arg PAD f ++ map VStr l)) (Some ∅) restr,
      advance (length (join "," l) + 1) L).
Proof.
  intros Hsym Hdef Hl HL. unfold _ParseTransform.
  rewrite (bind_Ok _ _ _ _ _ (eq_refl : GetPosition L = Ok (_position L, L))).
  rewrite (bind_Ok _ _ _ _ _ (eq_refl : get_lexer L = Ok (L, L))).
  unfold lookup_symbol. rewrite Hsym. cbn [fmap option_fmap option_map].
  rewrite Hdef. unfold mbind, M_bind.
  rewrite (Args_strings_joined l r L Hl HL).
  reflexivity.
Qed.

Lemma no_dot_IsCharacter r L :
  no_dot r = true -> rest L = r ->
  IsCharacter "." false true L = Ok (None, L).
Proof.
  intros Hr HL. destruct r as [|c r].
  - by apply IsCharacter_eoi.
  - eapply IsCharacter_miss; [done|]. cbn [no_dot] in Hr.
    unfold char_in. cbn [list_ascii_of_string existsb].
    rewrite orb_false_r. by apply negb_true_iff.
Qed.

(** The last iteration of the loop: a call of an ordinary function that
    no dot follows. *)
Lemma Transform_loop_last fuel n f level restr here calls mt l r L :
  symbols (_defaults L) !! string_of_list_ascii n = Some f ->
  func_defaults f = false ->
  func_eqb f TransformAlways = false -> func_eqb f TransformMap = false ->
  func_eqb f TransformIf = false ->
  forallb is_arg l = true -> no_dot r = true ->
  rest L = join "," l ++ ")"%char :: r ->
  Transform_loop PAD TransformAlways TransformMap TransformIf (S fuel)
    (VStr n) level restr here calls mt L =
  Ok ({| _conditional := _conditional calls;
         _transforms := _transforms calls ++
           [_TransformCall_init n f level (Some mt)
              (Some (projection_arg PAD f ++ map VStr l)) (Some ∅) restr] |},
      advance (length (join "," l) + 1) L).
Proof.
  intros Hsym Hdef HA HM HI Hl Hr HL. cbn [Transform_loop].
  rewrite (bind_Ok _ _ _ _ _
             (_ParseTransform_plain n f level (Some mt) restr l r L
                Hsym Hdef Hl HL)).
  cbn [func _TransformCall_init]. rewrite HA, HM, HI.
  erewrite bind_Ok; [|reflexivity]. cbv beta iota.
  assert (rest (advance (length (join "," l) + 1) L) = r) as H1.
  { replace (length (join "," l) + 1)
      with (length (join "," l ++ [")"%char]))
      by (rewrite length_app; simpl; lia).
    apply rest_advance. by rewrite HL, <- app_assoc. }
  by rewrite (bind_Ok _ _ _ _ _ (no_dot_IsCharacter r _ Hr H1)).
Qed.



End Transform_calls.

Lemma Evaluate_chain_of (t : _TransformCall) (obj : value) :
  Evaluate obj (chain_of t) = Ok (Evaluate_step t obj, chain_of t).
Proof. by rewrite Evaluate_running. Qed.

(** X24. One call of an ordinary function: on unquoted arguments joined by
    commas, the closing parenthesis and no dot after it, [Transform]
    returns the chain of the one call of the symbol of the name, with the
    level and the restriction flag that were given, not list-mapped, and
    the arguments as strings after the projection argument; [Evaluate]
    then calls the function on the subject followed by these arguments,
    or on the arguments alone for a restriction. *)
Theorem Transform_single_call (PROJECTION_ARG_DOC : str)
    (TransformAlways TransformMap TransformIf : pyfunc)
    (n : str) (f : pyfunc) (level : option Z) (restr : bool)
    (l : list str) (r : str) (L : Lexer) :
  symbols (_defaults L) !! string_of_list_ascii n = Some f ->
  func_defaults f = false ->
  func_eqb f TransformAlways = false -> func_eqb f TransformMap = false ->
  func_eqb f TransformIf = false ->
  forallb is_arg l = true -> no_dot r = true ->
  rest L = join "," l ++ ")"%char :: r ->
  let t := _TransformCall_init n f level (Some false)
             (Some (projection_arg PROJECTION_ARG_DOC f ++ map VStr l))
             (Some ∅) restr in
  Transform PROJECTION_ARG_DOC TransformAlways TransformMap TransformIf
    (VStr n) level restr L =
  Ok (chain_of t, advance (length (join "," l) + 1) L) /\
  forall obj,
    Evaluate obj (chain_of t) =
    Ok (func_call f
          ((if restr then [] else [obj]) ++
           projection_arg PROJECTION_ARG_DOC f ++ map VStr l) ∅,
        chain_of t).
Proof.
  intros Hsym Hdef HA HM HI Hl Hr HL t. split.
  - unfold Transform.
    rewrite (bind_Ok _ _ _ _ _
               (eq_refl : GetPosition L = Ok (_position L, L))).
    rewrite (bind_Ok _ _ _ _ _ (eq_refl : get_lexer L = Ok (L, L))).
    unfold budget.
    by rewrite (Transform_loop_last PROJECTION_ARG_DOC TransformAlways
                  TransformMap TransformIf _ n f level restr _ _ false l r L).
  - intros obj. rewrite Evaluate_chain_of. f_equal. f_equal.
    unfold Evaluate_step, mapped, call. cbn. rewrite orb_true_r.
    by destruct restr.
Qed.

Lemma Transform_single_call_witness :
  Transform " projection: The parent ProjectionSpec." sample_always
    sample_map sample_if (VStr "upper") (Some 0%Z) false
    (set_position 6 (Lexer_init "upper(0,3)" (Some sample_defaults))) =
  Ok (chain_of
        (_TransformCall_init "upper" sample_upper (Some 0%Z) (Some false)
           (Some [VStr "0"; VStr "3"]) (Some ∅) false),
      set_position 10 (Lexer_init "upper(0,3)" (Some sample_defaults))).
Proof.
  exact (proj1 (Transform_single_call
    " projection: The parent ProjectionSpec." sample_always sample_map
    sample_if "upper" sample_upper (Some 0%Z) false ["0" : str; "3" : str] []
    (set_position 6 (Lexer_init "upper(0,3)" (Some sample_defaults)))
    eq_refl eq_refl eq_refl eq_refl eq_refl eq_refl eq_refl eq_refl)).
Defined.








(** X28. [if] needs exactly one argument: when the call of [if] has no
    argument, or more than one, [Transform] raises the conditional filter
    expected error, annotated at the position at which [Transform] was
    entered, whatever follows the call. *)
Theorem Transform_if_needs_condition (PROJECTION_ARG_DOC : str)
    (TransformAlways TransformMap TransformIf : pyfunc)
    (m : str) (g : pyfunc) (level : option Z) (restr : bool)
    (l : list str) (r : str) (L : Lexer) :
  symbols (_defaults L) !! string_of_list_ascii m = Some g ->
  func_defaults g = false ->
  func_eqb g TransformAlways = false -> func_eqb g TransformMap = false ->
  func_eqb g TransformIf = true ->
  forallb is_arg l = true ->
  length (projection_arg PROJECTION_ARG_DOC g ++ map VStr l) <> 1 ->
  rest L = join "," l ++ ")"%char :: r ->
  Transform PROJECTION_ARG_DOC TransformAlways TransformMap TransformIf
    (VStr m) level restr L =
  Raise (ExpressionSyntaxError ConditionalFilterExpected
           (annotate (Some (_position L)) L)).
Proof.
  intros Hm Hgd HgA HgM HgI Hl Hlen HL. unfold Transform.
  rewrite (bind_Ok _ _ _ _ _
             (eq_refl : GetPosition L = Ok (_position L, L))).
  rewrite (bind_Ok _ _ _ _ _ (eq_refl : get_lexer L = Ok (L, L))).
  unfold budget. cbn [Transform_loop].
  rewrite (bind_Ok _ _ _ _ _
             (_ParseTransform_plain PROJECTION_ARG_DOC m g level (Some false)
                restr l r L Hm Hgd Hl HL)).
  cbn [func args default _TransformCall_init]. rewrite HgA, HgM, HgI.
  assert (_position L <= length (_expr L)) as Hw.
  { pose proof (rest_length L) as Hr. rewrite HL, length_app in Hr.
    simpl in Hr. lia. }
  destruct (projection_arg PROJECTION_ARG_DOC g ++ map VStr l)
    as [|expr [|? ?]]; [|by cbn [length] in Hlen|];
    unfold id; cbv beta iota;
    by rewrite syntax_error_bind, syntax_error_within.
Qed.

Lemma Transform_if_needs_condition_witness :
  Transform " projection: The parent ProjectionSpec." sample_always
    sample_map sample_if (VStr "if") (Some 0%Z) false
    (set_position 3 (Lexer_init "if().upper()" (Some sample_defaults))) =
  Raise (ExpressionSyntaxError ConditionalFilterExpected
           "if( *HERE* ).upper()").
Proof.
  exact (Transform_if_needs_condition
    " projection: The parent ProjectionSpec." sample_always sample_map
    sample_if "if" sample_if (Some 0%Z) false [] ".upper()"
    (set_position 3 (Lexer_init "if().upper()" (Some sample_defaults)))
    eq_refl eq_refl eq_refl eq_refl eq_refl eq_refl
    (fun H => match H in _ = x return
                match x with 1 => False | _ => True end with
              | eq_refl => I end)
    eq_refl).
Defined.

(** * Escapes *)

Lemma default_append_all (w : str) : default [] (append_all None w) = w.
Proof. by destruct w. Qed.

Lemma append_all_Some (t w : str) : append_all (Some t) w = Some (t ++ w).
Proof. destruct w; [by rewrite app_nil_r|done]. Qed.

(** The escape branch outside quotes and between quotes. *)
Lemma Token_escape_pair (token : option str) c :
  Token_escape None token c = Some (default [] token ++ escape_pair c).
Proof.
  unfold Token_escape, escape_pair, append. cbn [is_quote].
  rewrite bool_decide_false by (by intros [? ?]).
  destruct (Ascii.eqb c _ESCAPE), (char_in c _QUOTES);
    cbn [negb andb orb default]; unfold id;
    by rewrite ?app_nil_r, <- ?app_assoc.
Qed.

Lemma Token_escape_pair_in q (t : str) c :
  Token_escape (Some q) (Some t) c = Some (t ++ escape_pair_in q c).
Proof.
  unfold Token_escape, escape_pair_in, append. cbn [is_quote].
  rewrite bool_decide_true by eauto.
  destruct (Ascii.eqb c _ESCAPE), (Ascii.eqb c q);
    cbn [negb andb orb default]; unfold id;
    by rewrite ?app_nil_r, <- ?app_assoc.
Qed.

Lemma Token_scan_lexer T bp s :
  Token_scan T bp (lexer s) = Token_loop T bp s 0 None false None 0.
Proof. reflexivity. Qed.

(** An escape pair in an unquoted token. *)
Lemma Token_scan_escape (w1 w2 : str) c :
  forallb (plain []) w1 = true -> forallb (plain []) w2 = true ->
  Token_scan [] false (lexer (w1 ++ _ESCAPE :: c :: w2)) =
  {| scan_i := length (w1 ++ _ESCAPE :: c :: w2); scan_quote := None;
     scan_quoted := false;
     scan_token := Some (w1 ++ escape_pair c ++ w2) |}.
Proof.
  intros H1 H2. rewrite Token_scan_lexer.
  rewrite Token_loop_plain by done. rewrite Token_loop_esc.
  rewrite <- (app_nil_r w2) at 1. rewrite Token_loop_plain by done.
  rewrite Token_loop_end, Token_escape_pair, default_append_all.
  rewrite append_all_Some, <- app_assoc. f_equal.
  rewrite length_app. cbn [length]. lia.
Qed.

(** An escape pair between quotes. *)
Lemma Token_scan_escape_in T bp q (body1 body2 : str) c :
  char_in q _QUOTES = true ->
  forallb (quotable q) body1 = true -> forallb (quotable q) body2 = true ->
  Token_scan T bp (lexer (q :: body1 ++ _ESCAPE :: c :: body2 ++ [q])) =
  {| scan_i := length (q :: body1 ++ _ESCAPE :: c :: body2 ++ [q]);
     scan_quote := None; scan_quoted := true;
     scan_token := Some (body1 ++ escape_pair_in q c ++ body2) |}.
Proof.
  intros Hq H1 H2. rewrite Token_scan_open by done.
  rewrite Token_loop_in_quote by done. rewrite Token_loop_esc.
  rewrite Token_escape_pair_in. rewrite Token_loop_in_quote by done.
  rewrite Token_loop_noesc by (by apply quote_noesc).
  rewrite Token_char_close, Token_loop_end. cbn [app].
  rewrite <- app_assoc. f_equal.
  cbn [length]. rewrite !length_app. cbn [length]. rewrite length_app.
  cbn [length]. lia.
Qed.

(** An escape at the end of the input is an ordinary character. *)
Lemma Token_scan_escape_end (w : str) :
  forallb (plain []) w = true ->
  Token_scan [] false (lexer (w ++ [_ESCAPE])) =
  {| scan_i := length (w ++ [_ESCAPE]); scan_quote := None;
     scan_quoted := false; scan_token := Some (w ++ [_ESCAPE]) |}.
Proof.
  intros H. rewrite Token_scan_lexer. rewrite Token_loop_plain by done.
  cbn [Token_loop]. unfold Token_char. decide_conditions.
  change (char_in _ESCAPE _QUOTES) with false.
  change (char_in _ESCAPE []) with false.
  change (isspace _ESCAPE) with false. cbn [negb orb is_quote andb].
  unfold append. rewrite default_append_all. f_equal.
  rewrite length_app. cbn [length]. lia.
Qed.

(** [Token] after a scan that has read the whole expression. *)
Lemma Token_at_end T bp convert (k : str) quoted token :
  Token_scan T bp (lexer k) =
  {| scan_i := length k; scan_quote := None; scan_quoted := quoted;
     scan_token := token |} ->
  returned_at (Token T bp true convert (lexer k)) =
  Ok (convert_token convert quoted token, length k).
Proof.
  intros Hs.
  rewrite (Token_returns_space T bp convert (lexer k) (length k) quoted token).
  - reflexivity.
  - exact Hs.
  - by rewrite (rest_advance (lexer k) k []) by (by rewrite app_nil_r).
Qed.

(** C5. [Token] joins adjacent quoted segments into one token, and
    unescapes only the escape and the quote characters.  The three
    adjacent quoted segments of [sample_adjacent] scan to the single token
    [foo & bar], and any two adjacent double-quoted segments to the
    concatenation of their contents; [sample_escaped] (the letter a, a
    backslash, a double quote and the letter b) scans to the single token
    of a, the double quote and b, whose quoted flag is false, so that its
    conversion is the one of an unquoted token.  In general, for every
    character [c]: in an unquoted token the escape and [c] stand for [c]
    alone when [c] is the escape or a quote character, and for the escape
    followed by [c] otherwise, and the token stays unquoted; between
    quotes the escape is dropped only in front of the escape and of the
    quote that is open; an escape at the end of the input is an ordinary
    character. *)
Theorem Token_quotes :
  returned_at (Token [] false true false (lexer sample_adjacent)) =
    Ok (VStr "foo & bar", 15) /\
  (forall a b convert,
     returned (Token [] false true convert
                 (lexer (double_quoted a ++ double_quoted b))) =
     Ok (VStr (a ++ b))) /\
  Token_scan [] false (lexer sample_escaped) =
    {| scan_i := 4; scan_quote := None; scan_quoted := false;
       scan_token := Some ("a" ++ [dquote] ++ "b") |} /\
  (forall convert,
     returned_at (Token [] false true convert (lexer sample_escaped)) =
     Ok (convert_token convert false (Some ("a" ++ [dquote] ++ "b")), 4)) /\
  (forall (w1 w2 : str) c,
     forallb (plain []) w1 = true -> forallb (plain []) w2 = true ->
     let k := w1 ++ _ESCAPE :: c :: w2 in
     Token_scan [] false (lexer k) =
       {| scan_i := length k; scan_quote := None; scan_quoted := false;
          scan_token := Some (w1 ++ escape_pair c ++ w2) |} /\
     forall convert,
       returned_at (Token [] false true convert (lexer k)) =
       Ok (convert_token convert false (Some (w1 ++ escape_pair c ++ w2)),
           length k)) /\
  (forall T bp q (body1 body2 : str) c,
     char_in q _QUOTES = true ->
     forallb (quotable q) body1 = true -> forallb (quotable q) body2 = true ->
     let k := q :: body1 ++ _ESCAPE :: c :: body2 ++ [q] in
     forall convert,
       returned_at (Token T bp true convert (lexer k)) =
       Ok (VStr (body1 ++ escape_pair_in q c ++ body2), length k)) /\
  (forall (w : str) convert,
     forallb (plain []) w = true ->
     returned_at (Token [] false true convert (lexer (w ++ [_ESCAPE]))) =
     Ok (convert_token convert false (Some (w ++ [_ESCAPE])),
         length (w ++ [_ESCAPE]))).
Proof.
  split_and!.
  - vm_compute. reflexivity.
  - apply Token_adjacent.
  - vm_compute. reflexivity.
  - intros []; vm_compute; reflexivity.
  - intros w1 w2 c H1 H2 k.
    pose proof (Token_scan_escape w1 w2 c H1 H2) as Hs. fold k in Hs.
    split; [done|]. intros convert.
    by rewrite (Token_at_end [] false convert k _ _ Hs).
  - intros T bp q body1 body2 c Hq H1 H2 k convert.
    pose proof (Token_scan_escape_in T bp q body1 body2 c Hq H1 H2) as Hs.
    fold k in Hs. rewrite (Token_at_end T bp convert k _ _ Hs).
    unfold convert_token. by rewrite andb_false_r.
  - intros w convert H.
    by rewrite (Token_at_end [] false convert _ _ _
                  (Token_scan_escape_end w H)).
Qed.

Lemma Token_quotes_witness :
  forallb (plain []) "a" = true /\ forallb (plain []) "b" = true /\
  Token_scan [] false (lexer ("a" ++ _ESCAPE :: "n"%char :: "b")) =
    {| scan_i := 4; scan_quote := None; scan_quoted := false;
       scan_token := Some ("a" ++ _ESCAPE :: "n"%char :: "b") |} /\
  Token_scan [] false (lexer ("a" ++ _ESCAPE :: squote :: "b")) =
    {| scan_i := 4; scan_quote := None; scan_quoted := false;
       scan_token := Some ("a" ++ squote :: "b") |}.
Proof.
  destruct Token_quotes as (_ & _ & _ & _ & H & _).
  exact (conj eq_refl (conj eq_refl
    (conj (proj1 (H "a" "b" "n"%char eq_refl eq_refl))
          (proj1 (H "a" "b" squote eq_refl eq_refl))))).
Defined.
